(** * travelagent: the parallel travel-planning workflow

    A shallow embedding of [travelagent/models.py],
    [travelagent/parallel_agents.py] and the workflow part of
    [travelagent/main.py], followed by the properties of the workflow.

    Python dictionaries that are used as the workflow state and as the
    patches returned by the nodes are finite maps with string keys; the
    nested dictionaries built by dict displays keep their insertion order
    and are association lists.  Functions that read the console, call the
    language model or print are commands of a small state-and-exception
    monad over a [world] that holds the state object handed to the node,
    the scripted answers of the user, and logs of what was generated and
    printed. *)

From stdpp Require Import base strings list gmap fin_maps.

Open Scope string_scope.
Open Scope list_scope.
Set Warnings "-register-all".

(** ** Python values *)

(** The values that flow through the workflow: [str], [bool], [dict] with
    string keys (insertion ordered) and [list]. *)
Inductive pyval : Type :=
  | VStr (s : string)
  | VBool (b : bool)
  | VDict (items : list (string * pyval))
  | VList (elems : list pyval).

(** The exceptions that the modelled code can raise.  [GenerationError]
    stands for whatever the language-model chain raises on a provider or
    transport failure; [EOFError] is what the console raises when no
    answer is left to read; [MarkupError] and [NotRenderableError] are the
    errors of [rich] on a text whose markup it cannot parse and on a table
    cell that it cannot render. *)
Inductive exn : Type :=
  | KeyError (k : string)
  | TypeError
  | GenerationError (msg : string)
  | EOFError
  | MarkupError
  | NotRenderableError.

Inductive result (A : Type) : Type :=
  | Returns (a : A)
  | Raises (e : exn).
Arguments Returns {A} a.
Arguments Raises {A} e.

(** [d[k]] on a dict display: the first binding of [k]. *)
Fixpoint dict_get (k : string) (items : list (string * pyval)) : option pyval :=
  match items with
  | [] => None
  | (k', v) :: rest => if decide (k' = k) then Some v else dict_get k rest
  end.

(** [v[k]] with a string subscript: a dict is looked up, a missing key is a
    [KeyError]; a string, a bool or a list cannot be subscripted by a
    string. *)
Definition subscript (v : pyval) (k : string) : result pyval :=
  match v with
  | VDict items =>
      match dict_get k items with
      | Some x => Returns x
      | None => Raises (KeyError k)
      end
  | _ => Raises TypeError
  end.

(** ** The world and the command monad *)

(** What [rich] is asked to print: a string, a fitted panel around a
    string, a table of two columns whose rows are pairs of strings, and a
    panel around a Markdown document. *)
Inductive rich : Type :=
  | Markup (text : string)
  | PanelFit (text : string)
  | Table (rows : list (string * string))
  | PanelMarkdown (body : string).

(** One call of [chain.invoke]: the prompt template of the chain and the
    variable mapping, in the order of the dict display. *)
Record llm_call : Type := LlmCall {
  call_prompt : string;
  call_vars : list (string * pyval)
}.

Record world : Type := World {
  state_obj : gmap string pyval;  (* the dict bound to the parameter [state] *)
  prompt_answers : list string;   (* what [Prompt.ask] will return, in order *)
  confirm_answers : list bool;    (* what [Confirm.ask] will return, in order *)
  llm_log : list llm_call;        (* the calls of [chain.invoke], oldest first *)
  console_log : list rich         (* what was printed, oldest first *)
}.

Definition M (A : Type) : Type := world → result A * world.

Definition ret {A} (a : A) : M A := λ w, (Returns a, w).
Definition raise {A} (e : exn) : M A := λ w, (Raises e, w).
Definition bind {A B} (m : M A) (f : A → M B) : M B :=
  λ w, match m w with
       | (Returns a, w') => f a w'
       | (Raises e, w') => (Raises e, w')
       end.

#[global] Instance M_ret : MRet M := @ret.
#[global] Instance M_bind : MBind M := λ A B f m, bind m f.

Definition lift {A} (r : result A) : M A := λ w, (r, w).

(** [state[k]]: reads the state object, [KeyError] when the key is absent. *)
Definition state_get (k : string) : M pyval :=
  λ w, match state_obj w !! k with
       | Some v => (Returns v, w)
       | None => (Raises (KeyError k), w)
       end.

(** [state[k] = v]: in-place update of the state object.  No node of the
    workflow uses it; it is what a mutation of the argument would be. *)
Definition state_set (k : string) (v : pyval) : M unit :=
  λ w, (Returns (), World (<[k:=v]> (state_obj w)) (prompt_answers w)
                          (confirm_answers w) (llm_log w) (console_log w)).

(** [Prompt.ask(...)]: the next scripted answer. *)
Definition prompt_ask : M string :=
  λ w, match prompt_answers w with
       | a :: rest => (Returns a, World (state_obj w) rest (confirm_answers w)
                                        (llm_log w) (console_log w))
       | [] => (Raises EOFError, w)
       end.

(** How many answers of [Prompt.ask] are left: bounds the rounds of a loop
    that asks once per round. *)
Definition answers_left : M nat :=
  λ w, (Returns (length (prompt_answers w)), w).

(** [Confirm.ask(...)]: the next scripted yes/no answer. *)
Definition confirm_ask : M bool :=
  λ w, match confirm_answers w with
       | a :: rest => (Returns a, World (state_obj w) (prompt_answers w) rest
                                        (llm_log w) (console_log w))
       | [] => (Raises EOFError, w)
       end.

(** ** External collaborators

    The standard library, the language-model chain and the console library
    are not part of the repository; the development is parametric in them.
    [chain_invoke n p vs] is the answer of
    [(p | llm | StrOutputParser()).invoke(vs)] when [n] calls were made
    before it: either the generated text or the message of the exception it
    raises.  [markup_error text] tells whether the markup parser of [rich]
    raises [MarkupError] on [text]; it is asked only about the texts that
    [markup_verdict] below leaves open. *)
Class Externals : Type := {
  json_dumps : pyval → string;          (* [json.dumps(v, indent=2)] *)
  str_lower : string → string;          (* [s.lower()] *)
  str_strip : string → string;          (* [s.strip()] *)
  chain_invoke : nat → string → list (string * pyval) → string + string;
  markup_error : string → bool          (* [rich.markup.render(text)] raises *)
}.

(** ** Printing

    [console.print] parses every string that it is given, and every string
    cell of a table or body of a panel, as console markup: [[name]] opens a
    style, [[/name]] closes the last style of that name that is open and
    [[/]] the last one opened, and a closing tag that finds nothing to close
    is a [MarkupError].  The code escapes none of the texts that it prints,
    so a value of the state, an answer of the chain or what the user typed
    is parsed like the constants of the program.

    The scan below settles the texts that leave no doubt.  It follows the
    parser tag by tag: a tag is what stands between [[] and the next []]; an
    opening tag made of lower-case words is pushed, a closing tag that
    repeats the name on top is popped.  A text without [[], or one that is
    read to its end in this way, is [Fine]; a closing tag met while nothing
    is open makes the text [Broken]; anything else (a backslash, which may
    escape a tag, a tag with other characters or with parameters, a closing
    tag for a style further down, a bracket that is not closed) leaves the
    text [Unknown], for the library to decide. *)
Inductive verdict : Type := Fine | Broken | Unknown.

Definition is_lower (c : Ascii.ascii) : bool :=
  let n := Ascii.nat_of_ascii c in ((97 <=? n) && (n <=? 122))%nat.

Definition is_char (n : nat) (c : Ascii.ascii) : bool := (Ascii.nat_of_ascii c =? n)%nat.

Fixpoint lower_words (s : string) : bool :=
  match s with
  | EmptyString => true
  | String c rest => (is_lower c || is_char 32 c) && lower_words rest
  end.

(** A style as the program writes them: lower-case words, [bold blue]. *)
Definition style_name (body : string) : bool :=
  match body with
  | EmptyString => false
  | String c rest => is_lower c && lower_words rest
  end.

Fixpoint has_bracket (text : string) : bool :=
  match text with
  | EmptyString => false
  | String c rest => is_char 91 c || has_bracket rest
  end.

(** [stack] holds the styles that are open, the last one first; [tag] is
    the part already read of the tag that the scan is in, if any. *)
Fixpoint markup_scan (text : string) (stack : list string) (tag : option string) : verdict :=
  match text with
  | EmptyString => match tag with None => Fine | Some _ => Unknown end
  | String c rest =>
      match tag with
      | None =>
          if is_char 91 c then markup_scan rest stack (Some EmptyString)
          else if is_char 92 c then Unknown
          else markup_scan rest stack None
      | Some body =>
          if is_char 93 c then
            match body with
            | String slash name =>
                if is_char 47 slash then
                  match stack with
                  | [] => Broken
                  | top :: below =>
                      if style_name name && String.eqb top name
                      then markup_scan rest below None
                      else Unknown
                  end
                else if style_name body then markup_scan rest (body :: stack) None
                else Unknown
            | EmptyString => Unknown
            end
          else if is_char 91 c then Unknown
          else markup_scan rest stack (Some (body +:+ String c EmptyString))
      end
  end.

Definition markup_verdict (text : string) : verdict :=
  if has_bracket text then markup_scan text [] None else Fine.

(** Whether [rich] raises [MarkupError] on [text]. *)
Definition markup_raises `{Externals} (text : string) : bool :=
  match markup_verdict text with
  | Fine => false
  | Broken => true
  | Unknown => markup_error text
  end.

(** The strings of a printed item that are parsed as markup.  The body of
    a Markdown panel is not: it is a Markdown document, which [rich] lays
    out whatever the text is. *)
Definition markup_texts (r : rich) : list string :=
  match r with
  | Markup text => [text]
  | PanelFit text => [text]
  | Table rows => flat_map (λ row, [row.1; row.2]) rows
  | PanelMarkdown _ => []
  end.

(** Whether the parser refuses a string of [r]. *)
Definition refused `{Externals} (r : rich) : bool :=
  existsb markup_raises (markup_texts r).

(** [console.print(r)]: a [MarkupError] when a string of [r] is refused by
    the parser, and nothing is printed then. *)
Definition console_print `{Externals} (r : rich) : M unit :=
  λ w, if refused r then (Raises MarkupError, w)
       else (Returns (), World (state_obj w) (prompt_answers w) (confirm_answers w)
                               (llm_log w) (console_log w ++ [r])).

(** [table.add_row(label, value)]: a cell has to be a string (or an object
    that [rich] can render, which none of the values of the workflow is);
    [add_row] raises [NotRenderableError] on any other value.  [rows] are
    the rows that the table holds already. *)
Definition add_row (label : string) (value : pyval) (rows : list (string * string))
    : M (list (string * string)) :=
  match value with
  | VStr text => mret (rows ++ [(label, text)])
  | _ => raise NotRenderableError
  end.

(** [Markdown(value)]: the document is parsed when it is built, and the
    parser takes a string only. *)
Definition Markdown (value : pyval) : M string :=
  match value with
  | VStr text => mret text
  | _ => raise TypeError
  end.

(** [chain.invoke(vars)] for [chain = prompt | llm | StrOutputParser()]:
    the call is logged, a failure is raised as [GenerationError]. *)
Definition invoke `{Externals} (prompt : string) (vars : list (string * pyval)) : M string :=
  λ w, let w' := World (state_obj w) (prompt_answers w) (confirm_answers w)
                       (llm_log w ++ [LlmCall prompt vars]) (console_log w) in
       match chain_invoke (length (llm_log w)) prompt vars with
       | inl text => (Returns text, w')
       | inr msg => (Raises (GenerationError msg), w')
       end.

(** ** models.py

    The mock searches that the agents call.  The arguments are whatever the
    state holds under the request keys; [mock_attractions_search] and
    [mock_social_places_search], which no agent calls, are left out. *)

Definition mock_flight_search (destination dates budget : pyval) : pyval :=
  VDict [
    ("flights", VList [
      VDict [
        ("airline", VStr "Ryanair");
        ("price", VStr "$450");
        ("departure", VStr "8:30 AM");
        ("arrival", VStr "2:15 PM");
        ("duration", VStr "1h 45m")
      ];
      VDict [
        ("airline", VStr "Aer Lingus");
        ("price", VStr "$420");
        ("departure", VStr "1:20 PM");
        ("arrival", VStr "7:05 PM");
        ("duration", VStr "1h 45m")
      ]
    ]);
    ("destination", destination);
    ("search_dates", dates)
  ].

Definition mock_hotel_search (destination dates budget : pyval) : pyval :=
  VDict [
    ("hotels", VList [
      VDict [
        ("name", VStr "Hotel Catalonia");
        ("price", VStr "$150/night");
        ("rating", VStr "4.5/5");
        ("amenities", VList [VStr "Pool"; VStr "Gym"; VStr "WiFi"; VStr "Breakfast"])
      ];
      VDict [
        ("name", VStr "NH Hotels");
        ("price", VStr "$89/night");
        ("rating", VStr "4.2/5");
        ("amenities", VList [VStr "WiFi"; VStr "Parking"; VStr "24h Front Desk"])
      ]
    ]);
    ("destination", destination);
    ("search_dates", dates)
  ].

Definition mock_events_search (destination dates : pyval) : pyval :=
  VDict [
    ("events", VList [
      VDict [
        ("name", VStr "Local Art Festival");
        ("date", VStr "Weekend");
        ("price", VStr "Free");
        ("category", VStr "Arts & Culture")
      ];
      VDict [
        ("name", VStr "Food & Wine Tour");
        ("date", VStr "Daily");
        ("price", VStr "$75");
        ("category", VStr "Food & Drink")
      ]
    ]);
    ("destination", destination)
  ].

Definition mock_restaurant_search (destination : pyval) : pyval :=
  VDict [
    ("restaurants", VList [
      VDict [
        ("name", VStr "The Local Bistro");
        ("cuisine", VStr "Local/Fusion");
        ("rating", VStr "4.7/5");
        ("price_range", VStr "$$")
      ];
      VDict [
        ("name", VStr "Seaside Grill");
        ("cuisine", VStr "Seafood");
        ("rating", VStr "4.5/5");
        ("price_range", VStr "$$$")
      ]
    ]);
    ("destination", destination)
  ].

(** ** parallel_agents.py *)

Definition flight_prompt : string :=
  "You are a flight search specialist. Based on the travel requirements,
        provide flight recommendations and analysis.

        Destination: {destination}
        Dates: {dates}
        Budget: {budget}

        Flight Search Results: {results}

        Provide a summary of flight options with recommendations:".

Definition hotel_prompt : string :=
  "You are a hotel search specialist. Based on the travel requirements,
        provide hotel recommendations and analysis.

        Destination: {destination}
        Dates: {dates}
        Budget: {budget}

        Hotel Search Results: {results}

        Provide a summary of hotel options with recommendations:".

Definition events_prompt : string :=
  "You are an events and activities specialist. Based on the travel requirements,
        provide recommendations for events and activities.

        Destination: {destination}
        Dates: {dates}

        Events Search Results: {results}

        Provide a summary of events and activities with recommendations:".

Definition restaurant_prompt : string :=
  "You are a restaurant and dining specialist. Based on the travel requirements,
        provide dining recommendations.

        Destination: {destination}
        Budget: {budget}

        Restaurant Search Results: {results}

        Provide a summary of dining options with recommendations:".

Definition attractions_prompt : string :=
  "You are a local attractions specialist with deep knowledge of {destination}.
        Generate a comprehensive list of the main attractions and must-see places in this city.

        Destination: {destination}
        Dates: {dates}
        Budget: {budget}

        Please provide detailed information about the top attractions including:
        - Historical sites and landmarks
        - Museums and cultural attractions
        - Natural attractions (parks, gardens, etc.)
        - Architectural highlights
        - Local specialties unique to this destination

        For each attraction, include:
        - Name and type
        - Brief description
        - Typical admission cost (if any)
        - Recommended visit duration
        - Rating/popularity
        - Best time to visit

        Format your response as a detailed travel guide for attractions in {destination}.".

Definition social_places_prompt : string :=
  "You are a local social life specialist with extensive knowledge of {destination}.
        Generate comprehensive recommendations for places where travelers can meet locals and other travelers,
        make social connections, and experience the local community culture.

        Destination: {destination}
        Dates: {dates}
        Budget: {budget}

        Please provide detailed information about social places and opportunities including:
        - Public spaces and community gathering spots
        - Cafés and social venues where locals and travelers mingle
        - Sports and recreation centers with group activities
        - Markets and social shopping areas
        - Language exchange venues and international meetups
        - Outdoor spaces popular with locals
        - Community events and social activities
        - Co-working spaces and social clubs

        For each place/activity, include:
        - Name and type of venue
        - Description of the social atmosphere
        - Best times to visit for social interaction
        - Types of people you'll likely meet
        - Activities or ways to engage with others
        - Cost (if any)
        - Tips for approaching and meeting people there

        Focus specifically on genuine local experiences and places that foster authentic connections
        rather than tourist-only venues. Format as a comprehensive social guide for {destination}.".

Definition consolidation_prompt : string :=
  "You are a travel planning specialist. Consolidate the following search results
        into a comprehensive, well-organized travel plan that includes main attractions and social opportunities.

        Destination: {destination}
        Dates: {dates}
        Budget: {budget}

        Flight Results: {flights}

        Hotel Results: {hotels}

        Events Results: {events}

        Restaurant Results: {restaurants}

        Main Attractions: {attractions}

        Social Places (Places to Meet People): {social_places}

        Create a detailed travel plan with recommendations and itinerary that includes:
        1. Transportation and accommodation
        2. Must-see attractions and sightseeing
        3. Social opportunities and places to meet locals and other travelers
        4. Dining recommendations
        5. Events and activities

        Focus especially on highlighting the main attractions and social connection opportunities.".

Definition modification_prompt : string :=
  "The user has provided feedback on the travel plan. Please revise the plan based on their input.

                Original Plan: {original_plan}

                User Feedback: {feedback}

                Provide a revised travel plan that addresses the user's concerns:".

Section agents.
Context `{Externals}.

Definition flight_agent : M (gmap string pyval) :=
  destination ← state_get "destination";
  dates ← state_get "dates";
  budget ← state_get "budget";
  let flight_data := mock_flight_search destination dates budget in
  v_destination ← state_get "destination";
  v_dates ← state_get "dates";
  v_budget ← state_get "budget";
  flight_analysis ← invoke flight_prompt [
    ("destination", v_destination);
    ("dates", v_dates);
    ("budget", v_budget);
    ("results", VStr (json_dumps flight_data))
  ];
  mret {[
    "flight_results" := VDict [
      ("data", flight_data);
      ("analysis", VStr flight_analysis)
    ]
  ]}.

Definition hotel_agent : M (gmap string pyval) :=
  destination ← state_get "destination";
  dates ← state_get "dates";
  budget ← state_get "budget";
  let hotel_data := mock_hotel_search destination dates budget in
  v_destination ← state_get "destination";
  v_dates ← state_get "dates";
  v_budget ← state_get "budget";
  hotel_analysis ← invoke hotel_prompt [
    ("destination", v_destination);
    ("dates", v_dates);
    ("budget", v_budget);
    ("results", VStr (json_dumps hotel_data))
  ];
  mret {[
    "hotel_results" := VDict [
      ("data", hotel_data);
      ("analysis", VStr hotel_analysis)
    ]
  ]}.

Definition events_agent : M (gmap string pyval) :=
  destination ← state_get "destination";
  dates ← state_get "dates";
  let events_data := mock_events_search destination dates in
  v_destination ← state_get "destination";
  v_dates ← state_get "dates";
  events_analysis ← invoke events_prompt [
    ("destination", v_destination);
    ("dates", v_dates);
    ("results", VStr (json_dumps events_data))
  ];
  mret {[
    "events_results" := VDict [
      ("data", events_data);
      ("analysis", VStr events_analysis)
    ]
  ]}.

Definition restaurant_agent : M (gmap string pyval) :=
  destination ← state_get "destination";
  let restaurant_data := mock_restaurant_search destination in
  v_destination ← state_get "destination";
  v_budget ← state_get "budget";
  restaurant_analysis ← invoke restaurant_prompt [
    ("destination", v_destination);
    ("budget", v_budget);
    ("results", VStr (json_dumps restaurant_data))
  ];
  mret {[
    "restaurant_results" := VDict [
      ("data", restaurant_data);
      ("analysis", VStr restaurant_analysis)
    ]
  ]}.

Definition attractions_agent : M (gmap string pyval) :=
  v_destination ← state_get "destination";
  v_dates ← state_get "dates";
  v_budget ← state_get "budget";
  attractions_analysis ← invoke attractions_prompt [
    ("destination", v_destination);
    ("dates", v_dates);
    ("budget", v_budget)
  ];
  mret {[
    "attractions_results" := VDict [
      ("data", VDict [("llm_generated", VBool true)]);
      ("analysis", VStr attractions_analysis)
    ]
  ]}.

Definition social_places_agent : M (gmap string pyval) :=
  v_destination ← state_get "destination";
  v_dates ← state_get "dates";
  v_budget ← state_get "budget";
  social_places_analysis ← invoke social_places_prompt [
    ("destination", v_destination);
    ("dates", v_dates);
    ("budget", v_budget)
  ];
  mret {[
    "social_places_results" := VDict [
      ("data", VDict [("llm_generated", VBool true)]);
      ("analysis", VStr social_places_analysis)
    ]
  ]}.

(** [state[field]["analysis"]] *)
Definition state_get_analysis (field : string) : M pyval :=
  r ← state_get field;
  lift (subscript r "analysis").

Definition consolidate_plan : M (gmap string pyval) :=
  v_destination ← state_get "destination";
  v_dates ← state_get "dates";
  v_budget ← state_get "budget";
  v_flights ← state_get_analysis "flight_results";
  v_hotels ← state_get_analysis "hotel_results";
  v_events ← state_get_analysis "events_results";
  v_restaurants ← state_get_analysis "restaurant_results";
  v_attractions ← state_get_analysis "attractions_results";
  v_social_places ← state_get_analysis "social_places_results";
  final_plan ← invoke consolidation_prompt [
    ("destination", v_destination);
    ("dates", v_dates);
    ("budget", v_budget);
    ("flights", v_flights);
    ("hotels", v_hotels);
    ("events", v_events);
    ("restaurants", v_restaurants);
    ("attractions", v_attractions);
    ("social_places", v_social_places)
  ];
  mret {[ "final_plan" := VStr final_plan ]}.

End agents.

(** ** main.py *)

Definition nl : string := String (Ascii.ascii_of_nat 10) "".

Section approval.
Context `{Externals}.

(** The body of [while True:] in [human_approval_agent].  Every round
    reads one answer of [Prompt.ask], so [fuel] rounds are enough as soon
    as [fuel] exceeds the number of answers that are left: the round that
    finds no answer raises the [EOFError] of the console, and the case of no
    round left is never reached from [human_approval_agent].  A round that
    matches no branch falls through to the next round. *)
Fixpoint approval_loop (fuel : nat) : M (gmap string pyval) :=
  match fuel with
  | O => raise EOFError
  | S fuel' =>
      answer ← prompt_ask;
      let approval := str_strip (str_lower answer) in
      if bool_decide (approval ∈ ["yes"; "y"]) then
        console_print (Markup "[bold green]✅ Travel plan approved! Booking can proceed.[/bold green]");;
        mret {[ "human_approved" := VBool true ]}
      else if bool_decide (approval ∈ ["no"; "n"]) then
        console_print (Markup "[bold red]❌ Travel plan rejected.[/bold red]");;
        mret {[ "human_approved" := VBool false ]}
      else if bool_decide (approval ∈ ["modify"; "m"]) then
        console_print (Markup "[cyan]Please provide feedback for modifications:[/cyan]");;
        answer2 ← prompt_ask;
        let feedback := str_strip answer2 in
        original_plan ← state_get "final_plan";
        revised_plan ← invoke modification_prompt [
          ("original_plan", original_plan);
          ("feedback", VStr feedback)
        ];
        console_print (Markup nl);;
        console_print (PanelFit "[bold green]REVISED TRAVEL PLAN[/bold green]");;
        revised ← Markdown (VStr revised_plan);
        console_print (PanelMarkdown revised);;
        final_approval ← confirm_ask;
        if final_approval : bool then
          console_print (Markup "[bold green]✅ Revised travel plan approved![/bold green]");;
          mret (<[ "final_plan" := VStr revised_plan ]>
                {[ "human_approved" := VBool true ]})
        else
          console_print (Markup "[bold red]❌ Revised travel plan rejected.[/bold red]");;
          mret (<[ "final_plan" := VStr revised_plan ]>
                {[ "human_approved" := VBool false ]})
      else approval_loop fuel'
  end.

Definition human_approval_agent : M (gmap string pyval) :=
  console_print (Markup nl);;
  console_print (PanelFit "[bold blue]TRAVEL PLAN READY FOR REVIEW[/bold blue]");;
  let info_table := [] in
  r_destination ← state_get "destination";
  info_table ← add_row "Destination:" r_destination info_table;
  r_dates ← state_get "dates";
  info_table ← add_row "Dates:" r_dates info_table;
  r_budget ← state_get "budget";
  info_table ← add_row "Budget:" r_budget info_table;
  console_print (Table info_table);;
  console_print (Markup (nl +:+ "[bold yellow]Generated Travel Plan:[/bold yellow]"));;
  plan ← state_get "final_plan";
  document ← Markdown plan;
  console_print (PanelMarkdown document);;
  remaining ← answers_left;
  approval_loop (S remaining).

End approval.

(** ** Test doubles

    The stand-ins of the test suite: a chain that answers a fixed text (or
    fails), scripted console answers, and ASCII versions of [lower] and
    [strip]. *)

Definition ascii_lower_char (c : Ascii.ascii) : Ascii.ascii :=
  let n := Ascii.nat_of_ascii c in
  if ((65 <=? n) && (n <=? 90))%nat then Ascii.ascii_of_nat (n + 32) else c.

Fixpoint ascii_lower (s : string) : string :=
  match s with
  | EmptyString => EmptyString
  | String c rest => String (ascii_lower_char c) (ascii_lower rest)
  end.

Definition ascii_is_space (c : Ascii.ascii) : bool :=
  let n := Ascii.nat_of_ascii c in
  (((9 <=? n) && (n <=? 13)) || ((28 <=? n) && (n <=? 32)))%nat.

Fixpoint ascii_lstrip (s : string) : string :=
  match s with
  | EmptyString => EmptyString
  | String c rest => if ascii_is_space c then ascii_lstrip rest else s
  end.

Fixpoint ascii_rstrip (s : string) : string :=
  match s with
  | EmptyString => EmptyString
  | String c rest =>
      match ascii_rstrip rest with
      | EmptyString => if ascii_is_space c then EmptyString else String c EmptyString
      | rest' => String c rest'
      end
  end.

Definition ascii_strip (s : string) : string := ascii_rstrip (ascii_lstrip s).

Definition stub_chain (answer : string + string) : Externals := {|
  json_dumps := λ _, "{}";
  str_lower := ascii_lower;
  str_strip := ascii_strip;
  chain_invoke := λ _ _ _, answer;
  markup_error := λ _, false
|}.

Definition sample_travel_state : gmap string pyval :=
  list_to_map [
    ("destination", VStr "Barcelona");
    ("dates", VStr "March 15-20, 2024");
    ("budget", VStr "$2000");
    ("flight_results", VDict []);
    ("hotel_results", VDict []);
    ("events_results", VDict []);
    ("restaurant_results", VDict []);
    ("attractions_results", VDict []);
    ("social_places_results", VDict []);
    ("final_plan", VStr "");
    ("human_approved", VBool false)
  ].

Definition complete_travel_state : gmap string pyval :=
  list_to_map [
    ("destination", VStr "Barcelona");
    ("dates", VStr "March 15-20, 2024");
    ("budget", VStr "$2000");
    ("flight_results", VDict [
      ("data", VDict [("flights", VList [
         VDict [("airline", VStr "Test Air"); ("price", VStr "$450")]])]);
      ("analysis", VStr "Flight analysis")]);
    ("hotel_results", VDict [
      ("data", VDict [("hotels", VList [
         VDict [("name", VStr "Test Hotel"); ("price", VStr "$150/night")]])]);
      ("analysis", VStr "Hotel analysis")]);
    ("events_results", VDict [
      ("data", VDict [("events", VList [
         VDict [("name", VStr "Test Event"); ("price", VStr "Free")]])]);
      ("analysis", VStr "Events analysis")]);
    ("restaurant_results", VDict [
      ("data", VDict [("restaurants", VList [
         VDict [("name", VStr "Test Restaurant"); ("cuisine", VStr "Local")]])]);
      ("analysis", VStr "Restaurant analysis")]);
    ("attractions_results", VDict [
      ("data", VDict [("llm_generated", VBool true)]);
      ("analysis", VStr "Attractions analysis")]);
    ("social_places_results", VDict [
      ("data", VDict [("llm_generated", VBool true)]);
      ("analysis", VStr "Social places analysis")]);
    ("final_plan", VStr "");
    ("human_approved", VBool false)
  ].

Definition reviewed_travel_state : gmap string pyval :=
  <[ "final_plan" := VStr "Original plan" ]> complete_travel_state.

Definition world_of (state : gmap string pyval) (asks : list string) (confirms : list bool) : world :=
  World state asks confirms [] [].


(** ** The graph engine

    The workflow is run by a graph library that is not part of the
    repository.  What follows is its contract as the specification of the
    system gives it: the merge policy, the construction and validation of a
    graph, and the execution algorithm. *)

#[global] Instance exn_eq_dec : EqDecision exn.
Proof. solve_decision. Defined.

(** Modelled from the spec: the state merge policy, which is not in the
    source.  "A patch from any node is merged into shared state by a shallow
    union: every key in the patch overwrites the same key in the shared
    state; keys not present in the patch are left untouched."  The patch is
    written into the state key by key, as [dict.update] does. *)
Definition merge (state patch : gmap string pyval) : gmap string pyval :=
  map_fold (λ k v acc, <[k:=v]> acc) state patch.

(** Modelled from the spec: the graph under construction, which is not in
    the source: registered nodes, entry nodes and directed edges. *)
Record graph : Type := Graph {
  nodes : list (string * M (gmap string pyval));
  entry_points : list string;
  edges : list (string * string)
}.

(** Modelled from the spec: the terminal marker [END] of the graph library. *)
Definition END : string := "__end__".

(** Modelled from the spec: [StateGraph(TravelState)], a graph with no node,
    entry or edge yet. *)
Definition StateGraph : graph := Graph [] [] [].

(** Modelled from the spec: construction, "register named nodes; declare a
    set of entry nodes and a set of directed edges". *)
Definition add_node (name : string) (fn : M (gmap string pyval)) (g : graph) : graph :=
  Graph (nodes g ++ [(name, fn)]) (entry_points g) (edges g).

Definition set_entry_point (name : string) (g : graph) : graph :=
  Graph (nodes g) (entry_points g ++ [name]) (edges g).

Definition add_edge (a b : string) (g : graph) : graph :=
  Graph (nodes g) (entry_points g) (edges g ++ [(a, b)]).

Definition node_names (g : graph) : list string := fst <$> nodes g.

Definition predecessors (g : graph) (n : string) : list string :=
  fst <$> filter (λ e, e.2 = n) (edges g).

Definition successors (g : graph) (n : string) : list string :=
  snd <$> filter (λ e, e.1 = n) (edges g).

Fixpoint find_node (n : string) (l : list (string * M (gmap string pyval)))
    : option (M (gmap string pyval)) :=
  match l with
  | [] => None
  | (m, fn) :: rest => if decide (m = n) then Some fn else find_node n rest
  end.

(** Modelled from the spec: validation at construction.  "Every node
    referenced by an edge must be registered; the graph must be acyclic;
    every node except entries must have at least one predecessor; exactly
    one terminal marker ([END]) must be reachable from every path." *)
Definition edges_registered (g : graph) : bool :=
  forallb (λ e, bool_decide (e.1 ∈ node_names g)
                && bool_decide (e.2 ∈ node_names g ∨ e.2 = END)) (edges g)
  && forallb (λ n, bool_decide (n ∈ node_names g)) (entry_points g).

(** Nodes are peeled off once all their predecessors are; a graph is
    acyclic when every node is peeled off after as many rounds as there are
    nodes. *)
Fixpoint peel (g : graph) (rounds : nat) (peeled : list string) : list string :=
  match rounds with
  | O => peeled
  | S r =>
      peel g r (peeled ++ filter (λ n, (n ∉ peeled) ∧
                                       Forall (λ a, a ∈ peeled) (predecessors g n))
                                 (node_names g))
  end.

Definition acyclic (g : graph) : bool :=
  bool_decide (Forall (λ n, n ∈ peel g (length (nodes g)) []) (node_names g)).

Definition predecessors_present (g : graph) : bool :=
  bool_decide (Forall (λ n, n ∈ entry_points g ∨ predecessors g n ≠ []) (node_names g)).

(** The nodes from which [END] is reached, found backwards from [END]. *)
Fixpoint reaching_end (g : graph) (rounds : nat) (found : list string) : list string :=
  match rounds with
  | O => found
  | S r =>
      reaching_end g r (found ++ filter (λ n, (n ∉ found) ∧
                                   Exists (λ b, b = END ∨ b ∈ found) (successors g n))
                                 (node_names g))
  end.

Definition end_reachable (g : graph) : bool :=
  bool_decide (Forall (λ n, n ∈ reaching_end g (length (nodes g)) []) (node_names g)).

(** Modelled from the spec: [compile()], the graph when it passes the
    validation at construction. *)
Definition compile (g : graph) : option graph :=
  if edges_registered g && acyclic g && predecessors_present g && end_reachable g
  then Some g else None.

(** Modelled from the spec: the execution algorithm, which is not in the
    source.  "Run all entry nodes; a node becomes eligible to run once all
    of its predecessors have completed and merged; eligible nodes with no
    remaining ordering dependency between them may run concurrently; a node
    with multiple predecessors runs exactly once, after the last of its
    predecessors merges."  A failure of a node aborts its merge and no node
    is started after it.

    An execution is driven by a schedule: a list of actions, each either
    the invocation of an eligible node or the merge of a patch that a node
    has returned.  Invocations and merges of independent nodes interleave
    in any order, which covers what concurrent workers can produce. *)
Inductive event : Type :=
  | Invoked (n : string)
  | Merged (n : string)
  | Failed (n : string) (e : exn).

#[global] Instance event_eq_dec : EqDecision event.
Proof. solve_decision. Defined.

Inductive action : Type :=
  | Invoke (n : string)
  | Merge (n : string).

Record config : Type := Config {
  env : world;                                  (* holds the shared state *)
  pending : list (string * gmap string pyval);  (* returned, not yet merged *)
  trace : list event                            (* oldest first *)
}.

Definition is_failure (x : event) : bool :=
  match x with Failed _ _ => true | _ => false end.

(** Modelled from the spec: "a node becomes eligible to run once all of its
    predecessors have completed and merged"; a node runs once, entries have
    no predecessor to wait for, and nothing is started after a failure. *)
Definition eligible (g : graph) (n : string) (tr : list event) : bool :=
  negb (existsb is_failure tr)
  && bool_decide (Invoked n ∉ tr)
  && bool_decide (n ∈ entry_points g ∨ predecessors g n ≠ [])
  && bool_decide (Forall (λ a, Merged a ∈ tr) (predecessors g n)).

Fixpoint take_pending (n : string) (l : list (string * gmap string pyval))
    : option (gmap string pyval * list (string * gmap string pyval)) :=
  match l with
  | [] => None
  | (m, p) :: rest =>
      if decide (m = n) then Some (p, rest)
      else match take_pending n rest with
           | Some (q, rest') => Some (q, (m, p) :: rest')
           | None => None
           end
  end.

Definition with_state (s : gmap string pyval) (w : world) : world :=
  World s (prompt_answers w) (confirm_answers w) (llm_log w) (console_log w).

(** Modelled from the spec: one action of the scheduler.  An invocation runs
    the node on the shared state and keeps the returned patch for its merge,
    or records the failure; a merge writes a pending patch into the shared
    state under the merge policy. *)
Definition sched_step (g : graph) (a : action) (c : config) : option config :=
  match a with
  | Invoke n =>
      match find_node n (nodes g) with
      | Some fn =>
          if eligible g n (trace c) then
            match fn (env c) with
            | (Returns p, w') =>
                Some (Config w' (pending c ++ [(n, p)]) (trace c ++ [Invoked n]))
            | (Raises e, w') =>
                Some (Config w' (pending c) (trace c ++ [Invoked n; Failed n e]))
            end
          else None
      | None => None
      end
  | Merge n =>
      match take_pending n (pending c) with
      | Some (p, rest) =>
          Some (Config (with_state (merge (state_obj (env c)) p) (env c)) rest
                       (trace c ++ [Merged n]))
      | None => None
      end
  end.

(** Modelled from the spec: an execution along a schedule; [None] when the
    schedule asks for an action that the algorithm does not allow. *)
Fixpoint run (g : graph) (schedule : list action) (c : config) : option config :=
  match schedule with
  | [] => Some c
  | a :: rest =>
      match sched_step g a c with
      | Some c' => run g rest c'
      | None => None
      end
  end.

Definition initial (w : world) : config := Config w [] [].

(** Modelled from the spec: [execute] is synchronous for its caller.  The
    schedule that it follows: start every node that is eligible,
    in the order of registration; when none is, merge the oldest pending
    patch; stop at the first failure or when nothing is left to do. *)
Definition next_action (g : graph) (c : config) : option action :=
  if existsb is_failure (trace c) then None
  else match filter (λ n, eligible g n (trace c) = true) (node_names g) with
       | n :: _ => Some (Invoke n)
       | [] => match pending c with
               | (n, _) :: _ => Some (Merge n)
               | [] => None
               end
       end.

Fixpoint execute_from (g : graph) (fuel : nat) (c : config) : config :=
  match fuel with
  | O => c
  | S fuel' =>
      match next_action g c with
      | Some a =>
          match sched_step g a c with
          | Some c' => execute_from g fuel' c'
          | None => c
          end
      | None => c
      end
  end.

Definition first_failure (tr : list event) : option exn :=
  match filter (λ x, is_failure x = true) tr with
  | Failed _ e :: _ => Some e
  | _ => None
  end.

(** Modelled from the spec: [execute(initial_state) -> final_state].  Every
    node is invoked and merged at most once, so twice the number of nodes
    bounds the steps. *)
Definition execute_config (g : graph) (w : world) : config :=
  execute_from g (2 * length (nodes g)) (initial w).

(** Modelled from the spec: the invoke contract, the final state or the
    failure that stopped the execution. *)
Definition execute (g : graph) (w : world) : result (gmap string pyval) :=
  let c := execute_config g w in
  match first_failure (trace c) with
  | Some e => Raises e
  | None => Returns (state_obj (env c))
  end.

Section workflow.
Context `{Externals}.

Definition workflow : graph :=
  let workflow := StateGraph in
  let workflow := add_node "flight_search" flight_agent workflow in
  let workflow := add_node "hotel_search" hotel_agent workflow in
  let workflow := add_node "events_search" events_agent workflow in
  let workflow := add_node "restaurant_search" restaurant_agent workflow in
  let workflow := add_node "attractions_search" attractions_agent workflow in
  let workflow := add_node "social_places_search" social_places_agent workflow in
  let workflow := add_node "consolidate" consolidate_plan workflow in
  let workflow := add_node "human_approval" human_approval_agent workflow in
  let workflow := set_entry_point "flight_search" workflow in
  let workflow := set_entry_point "hotel_search" workflow in
  let workflow := set_entry_point "events_search" workflow in
  let workflow := set_entry_point "restaurant_search" workflow in
  let workflow := set_entry_point "attractions_search" workflow in
  let workflow := set_entry_point "social_places_search" workflow in
  let workflow := add_edge "flight_search" "consolidate" workflow in
  let workflow := add_edge "hotel_search" "consolidate" workflow in
  let workflow := add_edge "events_search" "consolidate" workflow in
  let workflow := add_edge "restaurant_search" "consolidate" workflow in
  let workflow := add_edge "attractions_search" "consolidate" workflow in
  let workflow := add_edge "social_places_search" "consolidate" workflow in
  let workflow := add_edge "consolidate" "human_approval" workflow in
  let workflow := add_edge "human_approval" END workflow in
  workflow.

Definition create_parallelization_workflow : option graph := compile workflow.

End workflow.


(** * Properties *)

(** ** Running commands *)

Lemma bind_Returns {A B} (m : M A) (f : A → M B) w a w' :
  m w = (Returns a, w') → (m ≫= f) w = f a w'.
Proof. intros Hm. unfold mbind, M_bind, bind. by rewrite Hm. Qed.

Lemma bind_Raises {A B} (m : M A) (f : A → M B) w e w' :
  m w = (Raises e, w') → (m ≫= f) w = (Raises e, w').
Proof. intros Hm. unfold mbind, M_bind, bind. by rewrite Hm. Qed.

Lemma state_get_Some w k v :
  state_obj w !! k = Some v → state_get k w = (Returns v, w).
Proof. intros Hk. unfold state_get. by rewrite Hk. Qed.

Lemma state_get_None w k :
  state_obj w !! k = None → state_get k w = (Raises (KeyError k), w).
Proof. intros Hk. unfold state_get. by rewrite Hk. Qed.

(** The world after one more logged call of the chain. *)
Definition logged (c : llm_call) (w : world) : world :=
  World (state_obj w) (prompt_answers w) (confirm_answers w)
        (llm_log w ++ [c]) (console_log w).

(** What the caller of [chain.invoke] gets for the answer of the chain. *)
Definition answer_of (r : string + string) : result string :=
  match r with
  | inl text => Returns text
  | inr msg => Raises (GenerationError msg)
  end.

Lemma invoke_eq `{Externals} prompt vars w :
  invoke prompt vars w =
    (answer_of (chain_invoke (length (llm_log w)) prompt vars),
     logged (LlmCall prompt vars) w).
Proof. unfold invoke, answer_of, logged. by destruct (chain_invoke _ _ _). Qed.

(** ** The gather nodes *)

Inductive gather : Type :=
  | Flight | Hotel | Events | Restaurant | Attractions | SocialPlaces.

Definition gather_agent `{Externals} (g : gather) : M (gmap string pyval) :=
  match g with
  | Flight => flight_agent
  | Hotel => hotel_agent
  | Events => events_agent
  | Restaurant => restaurant_agent
  | Attractions => attractions_agent
  | SocialPlaces => social_places_agent
  end.

(** The key of the state that the node writes. *)
Definition gather_field (g : gather) : string :=
  match g with
  | Flight => "flight_results"
  | Hotel => "hotel_results"
  | Events => "events_results"
  | Restaurant => "restaurant_results"
  | Attractions => "attractions_results"
  | SocialPlaces => "social_places_results"
  end.

(** The name under which the node is registered in the workflow. *)
Definition gather_node (g : gather) : string :=
  match g with
  | Flight => "flight_search"
  | Hotel => "hotel_search"
  | Events => "events_search"
  | Restaurant => "restaurant_search"
  | Attractions => "attractions_search"
  | SocialPlaces => "social_places_search"
  end.

(** The patch of a gather node for generated text [a]. *)
Definition gather_patch (g : gather) (data : pyval) (a : string) : gmap string pyval :=
  {[ gather_field g := VDict [("data", data); ("analysis", VStr a)] ]}.

Ltac run_reads :=
  repeat (erewrite bind_Returns by (apply state_get_Some; eassumption)).

(** A gather node that finds the three request fields makes exactly one
    call of the chain and turns its answer into its patch or its failure. *)
Lemma gather_agent_run `{Externals} g w d t b :
  state_obj w !! "destination" = Some d →
  state_obj w !! "dates" = Some t →
  state_obj w !! "budget" = Some b →
  ∃ call data,
    gather_agent g w =
      (match chain_invoke (length (llm_log w)) (call_prompt call) (call_vars call) with
       | inl a => Returns (gather_patch g data a)
       | inr msg => Raises (GenerationError msg)
       end, logged call w).
Proof.
  intros Hd Ht Hb.
  destruct g; cbn [gather_agent];
    unfold flight_agent, hotel_agent, events_agent, restaurant_agent,
      attractions_agent, social_places_agent;
    run_reads.
  all: match goal with
       | |- context [invoke ?p ?vs ≫= λ a, mret (<[_ := VDict [("data", ?data); _]]> _)] =>
           exists (LlmCall p vs), data
       | |- context [invoke ?p ?vs ≫= λ a, mret {[_ := VDict [("data", ?data); _]]}] =>
           exists (LlmCall p vs), data
       end.
  all: unfold mbind, M_bind, bind; rewrite invoke_eq; cbn [call_prompt call_vars];
    by destruct (chain_invoke _ _ _).
Qed.

(** C1: on a state that holds string fields [destination], [dates] and
    [budget], each of the six gather agents makes one call of the chain,
    and when that call succeeds with a non-empty text the agent returns a
    patch whose only key is its own [<domain>_results], whose value has a
    [data] entry and an [analysis] entry that is that non-empty string. *)
Theorem gather_agent_returns_own_results `{Externals} (g : gather) (w : world)
    (d t b : string) :
  state_obj w !! "destination" = Some (VStr d) →
  state_obj w !! "dates" = Some (VStr t) →
  state_obj w !! "budget" = Some (VStr b) →
  ∃ call,
    (gather_agent g w).2 = logged call w ∧
    ∀ a, chain_invoke (length (llm_log w)) (call_prompt call) (call_vars call) = inl a →
         a ≠ "" →
         ∃ p v data,
           (gather_agent g w).1 = Returns p ∧
           dom p = {[ gather_field g ]} ∧
           p !! gather_field g = Some v ∧
           subscript v "data" = Returns data ∧
           subscript v "analysis" = Returns (VStr a) ∧
           a ≠ "".
Proof.
  intros Hd Ht Hb.
  destruct (gather_agent_run g w _ _ _ Hd Ht Hb) as (call & data & Hrun).
  exists call. rewrite Hrun. split; [done|].
  intros a Ha Hne. rewrite Ha.
  exists (gather_patch g data a), (VDict [("data", data); ("analysis", VStr a)]), data.
  unfold gather_patch. split_and!; try done.
  - apply dom_singleton_L.
  - apply lookup_singleton_eq.
Qed.

Lemma gather_agent_returns_own_results_witness :
  ∃ call,
    (@gather_agent (stub_chain (inl "Flight analysis")) Flight
       (world_of sample_travel_state [] [])).2
      = logged call (world_of sample_travel_state [] []) ∧
    ∀ a, @chain_invoke (stub_chain (inl "Flight analysis")) 0
           (call_prompt call) (call_vars call) = inl a →
         a ≠ "" →
         ∃ p v data,
           (@gather_agent (stub_chain (inl "Flight analysis")) Flight
              (world_of sample_travel_state [] [])).1 = Returns p ∧
           dom p = {[ "flight_results" ]} ∧
           p !! "flight_results" = Some v ∧
           subscript v "data" = Returns data ∧
           subscript v "analysis" = Returns (VStr a) ∧
           a ≠ "".
Proof.
  apply (@gather_agent_returns_own_results (stub_chain (inl "Flight analysis")) Flight
           (world_of sample_travel_state [] []) "Barcelona" "March 15-20, 2024" "$2000");
    vm_compute; reflexivity.
Defined.

(** ** The consolidation node *)

Lemma state_get_analysis_Some w field r a :
  state_obj w !! field = Some r →
  subscript r "analysis" = Returns a →
  state_get_analysis field w = (Returns a, w).
Proof.
  intros Hf Ha. unfold state_get_analysis.
  erewrite bind_Returns by (by apply state_get_Some). unfold lift. by rewrite Ha.
Qed.

Ltac run_analyses :=
  repeat (erewrite bind_Returns by (eapply state_get_analysis_Some; eassumption)).

(** The variable mapping that [consolidate_plan] hands to the chain. *)
Definition consolidation_vars (d t b : string) (analysis : gather → string)
    : list (string * pyval) :=
  [ ("destination", VStr d); ("dates", VStr t); ("budget", VStr b);
    ("flights", VStr (analysis Flight));
    ("hotels", VStr (analysis Hotel));
    ("events", VStr (analysis Events));
    ("restaurants", VStr (analysis Restaurant));
    ("attractions", VStr (analysis Attractions));
    ("social_places", VStr (analysis SocialPlaces)) ].

(** C2: on a state whose six result fields each hold an analysis string,
    [consolidate_plan] calls the chain exactly once, with the nine variables
    [destination], [dates], [budget], [flights], [hotels], [events],
    [restaurants], [attractions], [social_places] (the last six being the
    analysis strings of the result fields), and it hands on what the call
    gives: the patch whose only key is [final_plan], holding the answered
    text whatever it is, the empty text included, or the failure of the
    call, and then no patch. *)
Theorem consolidate_plan_single_call `{Externals} (w : world) (d t b : string)
    (analysis : gather → string) :
  state_obj w !! "destination" = Some (VStr d) →
  state_obj w !! "dates" = Some (VStr t) →
  state_obj w !! "budget" = Some (VStr b) →
  (∀ g, ∃ r, state_obj w !! gather_field g = Some r ∧
             subscript r "analysis" = Returns (VStr (analysis g))) →
  (consolidate_plan w).2
    = logged (LlmCall consolidation_prompt (consolidation_vars d t b analysis)) w ∧
  (consolidation_vars d t b analysis).*1
    = ["destination"; "dates"; "budget"; "flights"; "hotels"; "events";
       "restaurants"; "attractions"; "social_places"] ∧
  (consolidate_plan w).1
    = match chain_invoke (length (llm_log w)) consolidation_prompt
              (consolidation_vars d t b analysis) with
      | inl plan => Returns {[ "final_plan" := VStr plan ]}
      | inr msg => Raises (GenerationError msg)
      end ∧
  (∀ p, (consolidate_plan w).1 = Returns p → dom p = {[ "final_plan" ]}).
Proof.
  intros Hd Ht Hb Hres.
  destruct (Hres Flight) as (r1 & ? & ?), (Hres Hotel) as (r2 & ? & ?),
    (Hres Events) as (r3 & ? & ?), (Hres Restaurant) as (r4 & ? & ?),
    (Hres Attractions) as (r5 & ? & ?), (Hres SocialPlaces) as (r6 & ? & ?).
  cbn [gather_field] in *.
  assert (consolidate_plan w =
    (match chain_invoke (length (llm_log w)) consolidation_prompt
             (consolidation_vars d t b analysis) with
     | inl plan => Returns {[ "final_plan" := VStr plan ]}
     | inr msg => Raises (GenerationError msg)
     end,
     logged (LlmCall consolidation_prompt (consolidation_vars d t b analysis)) w))
    as ->.
  { unfold consolidate_plan. run_reads. run_analyses.
    unfold mbind, M_bind, bind. rewrite invoke_eq.
    fold (consolidation_vars d t b analysis).
    by destruct (chain_invoke _ _ _). }
  split_and!; [done..|]. cbn [fst].
  intros p. destruct (chain_invoke _ _ _); [|done].
  intros [= <-]. apply dom_singleton_L.
Qed.

Definition complete_analysis (g : gather) : string :=
  match g with
  | Flight => "Flight analysis"
  | Hotel => "Hotel analysis"
  | Events => "Events analysis"
  | Restaurant => "Restaurant analysis"
  | Attractions => "Attractions analysis"
  | SocialPlaces => "Social places analysis"
  end.

Lemma consolidate_plan_single_call_witness :
  let E := stub_chain (inl "Final plan") in
  let w := world_of complete_travel_state [] [] in
  let vars := consolidation_vars "Barcelona" "March 15-20, 2024" "$2000" complete_analysis in
  (@consolidate_plan E w).2 = logged (LlmCall consolidation_prompt vars) w ∧
  vars.*1
    = ["destination"; "dates"; "budget"; "flights"; "hotels"; "events";
       "restaurants"; "attractions"; "social_places"] ∧
  (@consolidate_plan E w).1
    = match @chain_invoke E (length (llm_log w)) consolidation_prompt vars with
      | inl plan => Returns {[ "final_plan" := VStr plan ]}
      | inr msg => Raises (GenerationError msg)
      end ∧
  (∀ p, (@consolidate_plan E w).1 = Returns p → dom p = {[ "final_plan" ]}).
Proof.
  intros E w vars.
  apply (@consolidate_plan_single_call E w
           "Barcelona" "March 15-20, 2024" "$2000" complete_analysis);
    [vm_compute; reflexivity..|].
  intros g; destruct g; eexists; split; vm_compute; reflexivity.
Defined.

(** The text that the chain answers goes into the patch as it is: on the
    state of the test suite whose six result fields hold their analysis, a
    chain that answers the empty text gives [{final_plan: ""}], and a chain
    that fails gives no patch at all. *)
Lemma consolidate_plan_passes_answer_on :
  let w := world_of complete_travel_state [] [] in
  (∀ g, ∃ r, state_obj w !! gather_field g = Some r ∧
             subscript r "analysis" = Returns (VStr (complete_analysis g))) ∧
  (@consolidate_plan (stub_chain (inl "")) w).1
    = Returns {[ "final_plan" := VStr "" ]} ∧
  (@consolidate_plan (stub_chain (inr "rate limit")) w).1
    = Raises (GenerationError "rate limit").
Proof.
  intros w. split_and!; [|vm_compute; reflexivity..].
  intros g; destruct g; eexists; split; vm_compute; reflexivity.
Qed.

(** What [state[field]["analysis"]] raises when it finds no entry: the
    [KeyError] of the field when the state does not hold it, the [KeyError]
    of [analysis] when the field is a dict without that entry, and a
    [TypeError] when the field is not a dict. *)
Definition missing_analysis (s : gmap string pyval) (field : string) : option exn :=
  match s !! field with
  | None => Some (KeyError field)
  | Some (VDict items) =>
      match dict_get "analysis" items with
      | Some _ => None
      | None => Some (KeyError "analysis")
      end
  | Some _ => Some TypeError
  end.

(** The result fields that [consolidate_plan] reads before that of [g]. *)
Definition read_before (g : gather) : list gather :=
  match g with
  | Flight => []
  | Hotel => [Flight]
  | Events => [Flight; Hotel]
  | Restaurant => [Flight; Hotel; Events]
  | Attractions => [Flight; Hotel; Events; Restaurant]
  | SocialPlaces => [Flight; Hotel; Events; Restaurant; Attractions]
  end.

Lemma state_get_analysis_found w field :
  missing_analysis (state_obj w) field = None →
  ∃ a, state_get_analysis field w = (Returns a, w).
Proof.
  unfold missing_analysis, state_get_analysis. intros Hfound.
  destruct (state_obj w !! field) as [[| |items|]|] eqn:Hf; try done.
  erewrite bind_Returns by (by apply state_get_Some).
  unfold lift, subscript. destruct (dict_get "analysis" items); [eauto|done].
Qed.

Lemma state_get_analysis_raises w field e :
  missing_analysis (state_obj w) field = Some e →
  state_get_analysis field w = (Raises e, w).
Proof.
  unfold missing_analysis, state_get_analysis. intros Hmiss.
  destruct (state_obj w !! field) as [r|] eqn:Hf.
  - erewrite bind_Returns by (by apply state_get_Some).
    unfold lift, subscript. destruct r as [| |items|]; try by injection Hmiss as <-.
    destruct (dict_get "analysis" items); [done|by injection Hmiss as <-].
  - injection Hmiss as <-. by apply bind_Raises, state_get_None.
Qed.

(** C5: when a result field of the state has no [analysis] entry, and the
    request fields and the result fields read before it are in place,
    [consolidate_plan] fails with the built-in exception of that lookup,
    before any call of the chain: the [KeyError] of the field when the
    field is absent, the [KeyError] of [analysis] when the field is a dict
    without the entry, a [TypeError] when the field is not a dict.  The code
    has no exception class of its own for this. *)
Theorem consolidate_plan_missing_dependency `{Externals} (w : world) (g : gather) (e : exn) :
  is_Some (state_obj w !! "destination") →
  is_Some (state_obj w !! "dates") →
  is_Some (state_obj w !! "budget") →
  Forall (λ g', missing_analysis (state_obj w) (gather_field g') = None) (read_before g) →
  missing_analysis (state_obj w) (gather_field g) = Some e →
  consolidate_plan w = (Raises e, w) ∧
  (state_obj w !! gather_field g = None → e = KeyError (gather_field g)) ∧
  (∀ items, state_obj w !! gather_field g = Some (VDict items) → e = KeyError "analysis") ∧
  (∀ v, state_obj w !! gather_field g = Some v → (∀ items, v ≠ VDict items) → e = TypeError).
Proof.
  intros [vd Hd] [vt Ht] [vb Hb] Hbefore Hmiss. split.
  - unfold consolidate_plan. run_reads.
    destruct g; cbn [read_before gather_field] in Hbefore, Hmiss;
      repeat match goal with
             | Hall : Forall _ (_ :: _) |- _ =>
                 let Hg := fresh "Hg" in
                 apply Forall_cons in Hall as [Hg Hall]; cbn [gather_field] in Hg;
                 apply (state_get_analysis_found w) in Hg as [? Hg];
                 erewrite bind_Returns by exact Hg
             end;
      by erewrite bind_Raises by (by apply state_get_analysis_raises).
  - unfold missing_analysis in Hmiss. split_and!.
    + intros Hf. rewrite Hf in Hmiss. by injection Hmiss as <-.
    + intros items Hf. rewrite Hf in Hmiss.
      destruct (dict_get "analysis" items); [done|by injection Hmiss as <-].
    + intros v Hf Hv. rewrite Hf in Hmiss.
      destruct v as [| |items|]; try by injection Hmiss as <-.
      by destruct (Hv items).
Qed.

Lemma consolidate_plan_missing_dependency_witness :
  let E := stub_chain (inl "Final plan") in
  let w := world_of sample_travel_state [] [] in
  let e := KeyError "analysis" in
  @consolidate_plan E w = (Raises e, w) ∧
  (state_obj w !! gather_field Flight = None → e = KeyError (gather_field Flight)) ∧
  (∀ items, state_obj w !! gather_field Flight = Some (VDict items) → e = KeyError "analysis") ∧
  (∀ v, state_obj w !! gather_field Flight = Some v → (∀ items, v ≠ VDict items) → e = TypeError).
Proof.
  intros E w e.
  apply (@consolidate_plan_missing_dependency E w Flight e).
  - by eexists.
  - by eexists.
  - by eexists.
  - apply Forall_nil_2.
  - vm_compute. reflexivity.
Defined.

(** What the node raises in the test suite's states: Python's own
    [KeyError] and [TypeError].  On the initial state of the workflow, whose
    result fields are empty dicts, it is the [KeyError] of [analysis]; with
    the first result field taken away it is the [KeyError] of that field;
    with a string in its place it is a [TypeError]. *)
Lemma consolidate_plan_raises_builtin_error :
  let E := stub_chain (inl "Final plan") in
  (@consolidate_plan E (world_of sample_travel_state [] [])).1
    = Raises (KeyError "analysis") ∧
  (@consolidate_plan E (world_of (delete "flight_results" sample_travel_state) [] [])).1
    = Raises (KeyError "flight_results") ∧
  (@consolidate_plan E (world_of (<[ "flight_results" := VStr "" ]> sample_travel_state) [] [])).1
    = Raises TypeError.
Proof. intros E. split_and!; vm_compute; reflexivity. Qed.

(** ** The approval node *)

Section approval_facts.
Context `{Externals}.

(** What the loop compares with the accepted values. *)
Definition decision (answer : string) : string := str_strip (str_lower answer).

Definition valid_decision (answer : string) : Prop :=
  decision answer ∈ ["yes"; "y"; "no"; "n"; "modify"; "m"].

Definition with_answers (answers : list string) (w : world) : world :=
  World (state_obj w) answers (confirm_answers w) (llm_log w) (console_log w).

Definition printed (items : list rich) (w : world) : world :=
  World (state_obj w) (prompt_answers w) (confirm_answers w) (llm_log w)
        (console_log w ++ items).

(** The world once the plan has been put on the console for review. *)
Definition reviewed (d t b plan : string) (w : world) : world :=
  printed [ Markup nl;
            PanelFit "[bold blue]TRAVEL PLAN READY FOR REVIEW[/bold blue]";
            Table [("Destination:", d); ("Dates:", t); ("Budget:", b)];
            Markup (nl +:+ "[bold yellow]Generated Travel Plan:[/bold yellow]");
            PanelMarkdown plan ] w.

(** The cell that [add_row] makes of [state[k]], or the exception of the
    lookup or of [add_row]. *)
Definition review_cell (s : gmap string pyval) (k : string) : exn + string :=
  match s !! k with
  | None => inl (KeyError k)
  | Some (VStr text) => inr text
  | Some _ => inl NotRenderableError
  end.

(** How the review of the plan ends on the state [s], step by step in the
    order of [human_approval_agent]: with the first exception and what was
    printed before it, or with the four strings that are shown. *)
Definition review_outcome (s : gmap string pyval)
    : exn * list rich + string * string * string * string :=
  let banner := [ Markup nl;
                  PanelFit "[bold blue]TRAVEL PLAN READY FOR REVIEW[/bold blue]" ] in
  match review_cell s "destination" with
  | inl e => inl (e, banner)
  | inr d =>
      match review_cell s "dates" with
      | inl e => inl (e, banner)
      | inr t =>
          match review_cell s "budget" with
          | inl e => inl (e, banner)
          | inr b =>
              let table := Table [("Destination:", d); ("Dates:", t); ("Budget:", b)] in
              let heading :=
                Markup (nl +:+ "[bold yellow]Generated Travel Plan:[/bold yellow]") in
              if refused table then inl (MarkupError, banner)
              else match s !! "final_plan" with
                   | None => inl (KeyError "final_plan", banner ++ [table; heading])
                   | Some (VStr plan) => inr (d, t, b, plan)
                   | Some _ => inl (TypeError, banner ++ [table; heading])
                   end
          end
      end
  end.

Lemma console_print_eq r w :
  refused r = false → console_print r w = (Returns (), printed [r] w).
Proof. intros Hr. unfold console_print. by rewrite Hr. Qed.

Lemma console_print_refused r w :
  refused r = true → console_print r w = (Raises MarkupError, w).
Proof. intros Hr. unfold console_print. by rewrite Hr. Qed.

Lemma printed_printed l1 l2 w : printed l2 (printed l1 w) = printed (l1 ++ l2) w.
Proof. unfold printed. cbn. by rewrite <- app_assoc. Qed.

(** The texts of the program are markup that [rich] takes. *)
Ltac constant_renders := apply console_print_eq; reflexivity.

(** The node is its review followed by the approval loop. *)
Lemma human_approval_agent_review w :
  human_approval_agent w =
    match review_outcome (state_obj w) with
    | inl (e, items) => (Raises e, printed items w)
    | inr (d, t, b, plan) =>
        approval_loop (S (length (prompt_answers w))) (reviewed d t b plan w)
    end.
Proof.
  unfold human_approval_agent, review_outcome, review_cell.
  do 2 (erewrite bind_Returns by constant_renders). rewrite printed_printed.
  cbn [app].
  destruct (state_obj w !! "destination") as [vd|] eqn:Hd;
    [|by erewrite bind_Raises by (by apply state_get_None)].
  erewrite bind_Returns by (by apply state_get_Some).
  destruct vd as [d| | |]; try by erewrite bind_Raises by reflexivity.
  erewrite bind_Returns by reflexivity.
  destruct (state_obj w !! "dates") as [vt|] eqn:Ht;
    [|by erewrite bind_Raises by (by apply state_get_None)].
  erewrite bind_Returns by (by apply state_get_Some).
  destruct vt as [t| | |]; try by erewrite bind_Raises by reflexivity.
  erewrite bind_Returns by reflexivity.
  destruct (state_obj w !! "budget") as [vb|] eqn:Hb;
    [|by erewrite bind_Raises by (by apply state_get_None)].
  erewrite bind_Returns by (by apply state_get_Some).
  destruct vb as [b| | |]; try by erewrite bind_Raises by reflexivity.
  erewrite bind_Returns by reflexivity. cbn [app].
  destruct (refused (Table _)) eqn:Htable;
    [by erewrite bind_Raises by (by apply console_print_refused)|].
  erewrite bind_Returns by (by apply console_print_eq). rewrite printed_printed.
  erewrite bind_Returns by constant_renders. rewrite printed_printed.
  cbn [app].
  destruct (state_obj w !! "final_plan") as [vp|] eqn:Hp;
    [|by erewrite bind_Raises by (by apply state_get_None)].
  erewrite bind_Returns by (by apply state_get_Some).
  destruct vp as [plan| | |]; try by erewrite bind_Raises by reflexivity.
  erewrite bind_Returns by reflexivity.
  erewrite bind_Returns by (by apply console_print_eq). rewrite printed_printed.
  by erewrite bind_Returns by (unfold answers_left; reflexivity).
Qed.

Lemma review_table_renders d t b :
  markup_raises d = false → markup_raises t = false → markup_raises b = false →
  refused (Table [("Destination:", d); ("Dates:", t); ("Budget:", b)]) = false.
Proof.
  intros Hd Ht Hb. unfold refused. cbn [markup_texts flat_map app fst snd existsb].
  rewrite Hd, Ht, Hb. reflexivity.
Qed.

Lemma review_table_refused d t b :
  refused (Table [("Destination:", d); ("Dates:", t); ("Budget:", b)]) = true →
  markup_raises d = true ∨ markup_raises t = true ∨ markup_raises b = true.
Proof.
  unfold refused. cbn [markup_texts flat_map app fst snd existsb].
  destruct (markup_raises d), (markup_raises t), (markup_raises b); auto.
Qed.

Lemma review_outcome_shown s d t b plan :
  s !! "destination" = Some (VStr d) →
  s !! "dates" = Some (VStr t) →
  s !! "budget" = Some (VStr b) →
  s !! "final_plan" = Some (VStr plan) →
  markup_raises d = false → markup_raises t = false → markup_raises b = false →
  review_outcome s = inr (d, t, b, plan).
Proof.
  intros Hd Ht Hb Hp Hmd Hmt Hmb. unfold review_outcome, review_cell.
  rewrite Hd, Ht, Hb, Hp. cbn zeta. by rewrite review_table_renders.
Qed.

Lemma human_approval_agent_reviewed w d t b plan :
  state_obj w !! "destination" = Some (VStr d) →
  state_obj w !! "dates" = Some (VStr t) →
  state_obj w !! "budget" = Some (VStr b) →
  state_obj w !! "final_plan" = Some (VStr plan) →
  markup_raises d = false → markup_raises t = false → markup_raises b = false →
  human_approval_agent w
    = approval_loop (S (length (prompt_answers w))) (reviewed d t b plan w).
Proof.
  intros Hd Ht Hb Hp Hmd Hmt Hmb. rewrite human_approval_agent_review.
  by rewrite (review_outcome_shown _ d t b plan).
Qed.

Lemma prompt_ask_cons w a rest :
  prompt_answers w = a :: rest →
  prompt_ask w = (Returns a, with_answers rest w).
Proof. intros Hw. unfold prompt_ask. by rewrite Hw. Qed.

Lemma prompt_ask_nil w :
  prompt_answers w = [] → prompt_ask w = (Raises EOFError, w).
Proof. intros Hw. unfold prompt_ask. by rewrite Hw. Qed.

Lemma confirm_ask_cons w ok oks :
  confirm_answers w = ok :: oks →
  confirm_ask w = (Returns ok, World (state_obj w) (prompt_answers w) oks
                                     (llm_log w) (console_log w)).
Proof. intros Hw. unfold confirm_ask. by rewrite Hw. Qed.

(** One round on an answer that is approved. *)
Lemma approval_loop_yes fuel w a rest :
  prompt_answers w = a :: rest →
  decision a ∈ ["yes"; "y"] →
  approval_loop (S fuel) w =
    (Returns {[ "human_approved" := VBool true ]},
     printed [Markup "[bold green]✅ Travel plan approved! Booking can proceed.[/bold green]"]
             (with_answers rest w)).
Proof.
  intros Hw Hyes. cbn [approval_loop].
  erewrite bind_Returns by (by apply prompt_ask_cons).
  fold (decision a). rewrite bool_decide_eq_true_2 by done.
  by erewrite bind_Returns by constant_renders.
Qed.

(** One round on an answer that is rejected. *)
Lemma approval_loop_no fuel w a rest :
  prompt_answers w = a :: rest →
  decision a ∈ ["no"; "n"] →
  approval_loop (S fuel) w =
    (Returns {[ "human_approved" := VBool false ]},
     printed [Markup "[bold red]❌ Travel plan rejected.[/bold red]"]
             (with_answers rest w)).
Proof.
  intros Hw Hno. cbn [approval_loop].
  erewrite bind_Returns by (by apply prompt_ask_cons).
  fold (decision a).
  rewrite bool_decide_eq_false_2.
  2:{ intros Hyes. set_unfold. intuition congruence. }
  rewrite bool_decide_eq_true_2 by done.
  by erewrite bind_Returns by constant_renders.
Qed.

(** One round on an answer that is neither of the accepted values: the
    answer is dropped and the loop asks again. *)
Lemma approval_loop_invalid fuel w a rest :
  prompt_answers w = a :: rest →
  ¬ valid_decision a →
  approval_loop (S fuel) w = approval_loop fuel (with_answers rest w).
Proof.
  intros Hw Hbad. cbn [approval_loop].
  erewrite bind_Returns by (by apply prompt_ask_cons).
  fold (decision a). unfold valid_decision in Hbad.
  rewrite !bool_decide_eq_false_2; [done|set_unfold; tauto..].
Qed.

End approval_facts.

(** The texts of the program are markup that [rich] takes: the test of
    [console_print] on a constant is decided by the scan. *)
Ltac render_constants :=
  repeat match goal with
         | |- context [refused ?r] =>
             let v := eval vm_compute in (refused r) in
             lazymatch v with
             | false => change (refused r) with false
             end
         end.

Ltac render_constants_in Hrun :=
  repeat match type of Hrun with
         | context [refused ?r] =>
             let v := eval vm_compute in (refused r) in
             lazymatch v with
             | false => change (refused r) with false in Hrun
             end
         end.

Ltac constant_renders := apply console_print_eq; reflexivity.

Section approval_machine.
Context `{Externals}.

Definition modification_vars (plan : pyval) (feedback_answer : string)
    : list (string * pyval) :=
  [("original_plan", plan); ("feedback", VStr (str_strip feedback_answer))].

(** One round on a request for modification: the second answer is the
    feedback, the chain is called once, the revised plan is shown and the
    yes/no answer decides the flag; the round returns in either case. *)
Lemma approval_loop_modify fuel w a fb rest plan revised ok oks :
  prompt_answers w = a :: fb :: rest →
  decision a ∈ ["modify"; "m"] →
  state_obj w !! "final_plan" = Some plan →
  chain_invoke (length (llm_log w)) modification_prompt (modification_vars plan fb)
    = inl revised →
  confirm_answers w = ok :: oks →
  approval_loop (S fuel) w =
    (Returns (<[ "final_plan" := VStr revised ]> {[ "human_approved" := VBool ok ]}),
     World (state_obj w) rest oks
       (llm_log w ++ [LlmCall modification_prompt (modification_vars plan fb)])
       (console_log w ++
          [ Markup "[cyan]Please provide feedback for modifications:[/cyan]";
            Markup nl;
            PanelFit "[bold green]REVISED TRAVEL PLAN[/bold green]";
            PanelMarkdown revised;
            Markup (if ok then "[bold green]✅ Revised travel plan approved![/bold green]"
                    else "[bold red]❌ Revised travel plan rejected.[/bold red]") ])).
Proof.
  destruct w as [s pa ca lg co]. cbn [state_obj prompt_answers confirm_answers llm_log console_log].
  intros -> Hmod Hplan Hgen ->.
  cbn [approval_loop].
  unfold mbind, M_bind, bind, prompt_ask, console_print, state_get, invoke, confirm_ask,
    Markdown.
  render_constants.
  cbn [state_obj prompt_answers confirm_answers llm_log console_log].
  fold (decision a).
  rewrite (bool_decide_eq_false_2 (decision a ∈ ["yes"; "y"]))
    by (set_unfold; intuition congruence).
  rewrite (bool_decide_eq_false_2 (decision a ∈ ["no"; "n"]))
    by (set_unfold; intuition congruence).
  rewrite bool_decide_eq_true_2 by done.
  cbn [state_obj prompt_answers confirm_answers llm_log console_log].
  rewrite Hplan. cbn [state_obj prompt_answers confirm_answers llm_log console_log].
  fold (modification_vars plan fb). rewrite Hgen.
  unfold mret, M_ret, ret. render_constants.
  cbn [state_obj prompt_answers confirm_answers llm_log console_log].
  destruct ok; render_constants;
    cbn [state_obj prompt_answers confirm_answers llm_log console_log];
    by rewrite <- !app_assoc.
Qed.

(** C4: on a state whose [destination], [dates] and [budget] are strings
    that the console takes as markup and whose [final_plan] is a string,
    [human_approval_agent] is the state machine of the specification.  A
    first answer [yes] returns [{human_approved: true}]; [no] returns
    [{human_approved: false}]; [modify] reads the feedback, generates the
    revised plan from the original plan and the feedback with one call of
    the chain, and returns [{final_plan: revised, human_approved: ok}] for
    the yes/no answer [ok]: the revised plan is kept when it is declined,
    and there is one round only (two answers asked, one call, one
    confirmation, then the node returns). *)
Theorem human_approval_state_machine (w : world) (d t b plan : string)
    (a : string) (rest : list string) :
  state_obj w !! "destination" = Some (VStr d) →
  state_obj w !! "dates" = Some (VStr t) →
  state_obj w !! "budget" = Some (VStr b) →
  state_obj w !! "final_plan" = Some (VStr plan) →
  markup_raises d = false →
  markup_raises t = false →
  markup_raises b = false →
  prompt_answers w = a :: rest →
  (decision a ∈ ["yes"; "y"] →
     (human_approval_agent w).1 = Returns {[ "human_approved" := VBool true ]}) ∧
  (decision a ∈ ["no"; "n"] →
     (human_approval_agent w).1 = Returns {[ "human_approved" := VBool false ]}) ∧
  (decision a ∈ ["modify"; "m"] →
     ∀ fb rest' revised ok oks,
       rest = fb :: rest' →
       chain_invoke (length (llm_log w)) modification_prompt
         (modification_vars (VStr plan) fb) = inl revised →
       confirm_answers w = ok :: oks →
       (human_approval_agent w).1
         = Returns (<[ "final_plan" := VStr revised ]> {[ "human_approved" := VBool ok ]}) ∧
       llm_log (human_approval_agent w).2
         = (llm_log w ++ [LlmCall modification_prompt (modification_vars (VStr plan) fb)]) ∧
       prompt_answers (human_approval_agent w).2 = rest' ∧
       confirm_answers (human_approval_agent w).2 = oks).
Proof.
  intros Hd Ht Hb Hp Hmd Hmt Hmb Hw.
  rewrite (human_approval_agent_reviewed w d t b plan Hd Ht Hb Hp Hmd Hmt Hmb).
  split_and!.
  - intros Hyes. by erewrite approval_loop_yes.
  - intros Hno. by erewrite approval_loop_no.
  - intros Hmod fb rest' revised ok oks -> Hgen Hok.
    by erewrite approval_loop_modify by (by rewrite ?Hw).
Qed.

End approval_machine.

Lemma human_approval_state_machine_witness :
  let E := stub_chain (inl "Revised plan with more restaurants") in
  let w := world_of reviewed_travel_state ["modify"; "add more restaurants"] [true] in
  (@decision E "modify" ∈ ["yes"; "y"] →
     (@human_approval_agent E w).1 = Returns {[ "human_approved" := VBool true ]}) ∧
  (@decision E "modify" ∈ ["no"; "n"] →
     (@human_approval_agent E w).1 = Returns {[ "human_approved" := VBool false ]}) ∧
  (@decision E "modify" ∈ ["modify"; "m"] →
     ∀ fb rest' revised ok oks,
       ["add more restaurants"] = fb :: rest' →
       @chain_invoke E (length (llm_log w)) modification_prompt
         (@modification_vars E (VStr "Original plan") fb) = inl revised →
       confirm_answers w = ok :: oks →
       (@human_approval_agent E w).1
         = Returns (<[ "final_plan" := VStr revised ]> {[ "human_approved" := VBool ok ]}) ∧
       llm_log (@human_approval_agent E w).2
         = (llm_log w ++ [LlmCall modification_prompt
                            (@modification_vars E (VStr "Original plan") fb)]) ∧
       prompt_answers (@human_approval_agent E w).2 = rest' ∧
       confirm_answers (@human_approval_agent E w).2 = oks).
Proof.
  intros E w.
  apply (@human_approval_state_machine E w "Barcelona" "March 15-20, 2024"
           "$2000" "Original plan" "modify" ["add more restaurants"]);
    vm_compute; reflexivity.
Defined.

(** A state with a [final_plan] on which the node is not that state
    machine: the destination closes a style that nothing has opened, [rich]
    refuses the table of the review, and the node fails with [MarkupError]
    before it asks for the decision, with the answer [yes] still unread.
    The same happens with [NotRenderableError] when a request field is not a
    string. *)
Lemma human_approval_agent_markup_error :
  let E := stub_chain (inl "Revised plan") in
  let w := world_of (<[ "destination" := VStr "[/x]" ]> reviewed_travel_state) ["yes"] [] in
  let w' := world_of (<[ "budget" := VDict [] ]> reviewed_travel_state) ["yes"] [] in
  state_obj w !! "final_plan" = Some (VStr "Original plan") ∧
  @decision E "yes" ∈ ["yes"; "y"] ∧
  (@human_approval_agent E w).1 = Raises MarkupError ∧
  prompt_answers (@human_approval_agent E w).2 = ["yes"] ∧
  (@human_approval_agent E w').1 = Raises NotRenderableError.
Proof.
  intros E w w'. split_and!; try (vm_compute; reflexivity).
  vm_compute. apply list_elem_of_here.
Qed.

Section approval_reprompts.
Context `{Externals}.

#[local] Instance valid_decision_dec a : Decision (valid_decision a).
Proof. unfold valid_decision. apply _. Defined.

Lemma with_answers_id w : with_answers (prompt_answers w) w = w.
Proof. by destruct w. Qed.

(** A round returns on a valid answer without looking at the rounds left. *)
Lemma approval_loop_valid_fuel fuel1 fuel2 w a rest :
  prompt_answers w = a :: rest →
  valid_decision a →
  approval_loop (S fuel1) w = approval_loop (S fuel2) w.
Proof.
  intros Hw Hok. cbn [approval_loop].
  erewrite !bind_Returns by (by apply prompt_ask_cons).
  fold (decision a). unfold valid_decision in Hok.
  repeat case_bool_decide; try done. set_unfold; tauto.
Qed.

(** More rounds than answers left are never used. *)
Lemma approval_loop_fuel fuel1 fuel2 w :
  length (prompt_answers w) < fuel1 →
  length (prompt_answers w) < fuel2 →
  approval_loop fuel1 w = approval_loop fuel2 w.
Proof.
  remember (prompt_answers w) as answers eqn:Hw.
  revert fuel1 fuel2 w Hw.
  induction answers as [|a rest IH]; intros fuel1 fuel2 w Hw Hlt1 Hlt2;
    (destruct fuel1 as [|fuel1]; [cbn in Hlt1; lia|]);
    (destruct fuel2 as [|fuel2]; [cbn in Hlt2; lia|]).
  - cbn [approval_loop]. by erewrite !bind_Raises by (by apply prompt_ask_nil).
  - destruct (decide (valid_decision a)) as [Hok|Hbad].
    + by eapply approval_loop_valid_fuel.
    + erewrite !approval_loop_invalid by done.
      apply IH; [done|cbn in *; lia..].
Qed.

(** Answers outside the accepted values at the head of the script are
    skipped without a trace. *)
Lemma approval_loop_skip bad rest w fuel :
  Forall (λ a, ¬ valid_decision a) bad →
  approval_loop (length bad + fuel) (with_answers (bad ++ rest) w)
    = approval_loop fuel (with_answers rest w).
Proof.
  induction 1 as [|a bad Ha _ IH]; [done|].
  cbn [length Nat.add app].
  by erewrite approval_loop_invalid by done.
Qed.

(** A round that returns a patch has read a valid answer, after skipping
    the answers that are not. *)
Lemma approval_loop_returns fuel w p w' :
  approval_loop fuel w = (Returns p, w') →
  ∃ bad a rest,
    prompt_answers w = bad ++ a :: rest ∧
    Forall (λ a, ¬ valid_decision a) bad ∧ valid_decision a.
Proof.
  revert w. induction fuel as [|fuel IH]; intros w Hrun; [done|].
  destruct (prompt_answers w) as [|a rest] eqn:Hw.
  - cbn [approval_loop] in Hrun.
    by erewrite bind_Raises in Hrun by (by apply prompt_ask_nil).
  - destruct (decide (valid_decision a)) as [Hok|Hbad].
    + by exists [], a, rest.
    + erewrite approval_loop_invalid in Hrun by done.
      destruct (IH _ Hrun) as (bad & a' & rest' & Hrest & Hbads & Hok).
      cbn in Hrest. subst rest.
      exists (a :: bad), a', rest'. split_and!; [done| |done].
      by constructor.
Qed.

(** The node on a script that starts with answers outside the accepted
    values: the review is the same, and the loop skips them. *)
Lemma human_approval_agent_skip w bad answers :
  Forall (λ a, ¬ valid_decision a) bad →
  human_approval_agent (with_answers (bad ++ answers) w) =
    match review_outcome (state_obj w) with
    | inl (e, items) => (Raises e, printed items (with_answers (bad ++ answers) w))
    | inr (d, t, b, plan) =>
        approval_loop (S (length answers)) (reviewed d t b plan (with_answers answers w))
    end.
Proof.
  intros Hbad. rewrite human_approval_agent_review. cbn [with_answers state_obj].
  destruct (review_outcome (state_obj w)) as [[e items]|[[[d t] b] plan]]; [done|].
  cbn [with_answers prompt_answers].
  rewrite (approval_loop_fuel _ (length bad + S (length answers)))
    by (cbn; rewrite ?length_app; lia).
  by rewrite <- (approval_loop_skip bad answers (reviewed d t b plan w)).
Qed.


End approval_reprompts.


(** ** Nodes read the state and write their own keys *)

(** [m] leaves the state object as it found it, and what it returns
    satisfies [R]. *)
Definition frame_ok {A} (R : A → Prop) (m : M A) : Prop :=
  ∀ w, state_obj (m w).2 = state_obj w ∧ ∀ a, (m w).1 = Returns a → R a.

Definition anything {A} (a : A) : Prop := True.

Lemma frame_ret {A} (R : A → Prop) a : R a → frame_ok R (mret a).
Proof. intros Ha w. split; [done|]. by intros a' [= <-]. Qed.

Lemma frame_raise {A} (R : A → Prop) e : frame_ok R (raise e).
Proof. intros w. by split. Qed.

Lemma frame_bind {A B} (R : B → Prop) (m : M A) (f : A → M B) :
  frame_ok anything m → (∀ a, frame_ok R (f a)) → frame_ok R (m ≫= f).
Proof.
  intros Hm Hf w. unfold mbind, M_bind, bind.
  destruct (Hm w) as [Hs _]. destruct (m w) as [[a|e] w']; cbn in Hs.
  - destruct (Hf a w') as [Hs' HR]. split; [congruence|done].
  - by split.
Qed.

Lemma frame_state_get k : frame_ok anything (state_get k).
Proof. intros w. unfold state_get. by destruct (state_obj w !! k). Qed.

Lemma frame_lift {A} (r : result A) : frame_ok anything (lift r).
Proof. intros w. by split. Qed.

Lemma frame_invoke `{Externals} prompt vars : frame_ok anything (invoke prompt vars).
Proof. intros w. rewrite invoke_eq. by split. Qed.

Lemma frame_console_print `{Externals} r : frame_ok anything (console_print r).
Proof. intros w. unfold console_print. by destruct (refused r). Qed.

Lemma frame_add_row label value rows : frame_ok anything (add_row label value rows).
Proof. intros w. by destruct value. Qed.

Lemma frame_Markdown value : frame_ok anything (Markdown value).
Proof. intros w. by destruct value. Qed.

Lemma frame_prompt_ask : frame_ok anything prompt_ask.
Proof. intros w. unfold prompt_ask. by destruct (prompt_answers w). Qed.

Lemma frame_confirm_ask : frame_ok anything confirm_ask.
Proof. intros w. unfold confirm_ask. by destruct (confirm_answers w). Qed.

Lemma frame_answers_left : frame_ok anything answers_left.
Proof. intros w. by split. Qed.

Lemma frame_state_get_analysis field : frame_ok anything (state_get_analysis field).
Proof.
  apply frame_bind; [apply frame_state_get|]. intros r. apply frame_lift.
Qed.

(** A command that writes into the state object is not such a reader. *)
Lemma state_set_not_frame : ¬ frame_ok anything (state_set "budget" (VStr "$1")).
Proof.
  intros Hset. destruct (Hset (World ∅ [] [] [] [])) as [Hs _].
  cbn in Hs. apply (f_equal (λ s, s !! "budget")) in Hs.
  by rewrite lookup_insert_eq in Hs.
Qed.

Create HintDb frame.
#[global] Hint Resolve frame_state_get frame_lift frame_prompt_ask frame_add_row
  frame_Markdown frame_confirm_ask frame_answers_left frame_state_get_analysis
  frame_raise : frame.
#[global] Hint Extern 1 (frame_ok _ (invoke _ _)) => apply frame_invoke : frame.
#[global] Hint Extern 1 (frame_ok _ (console_print _)) => apply frame_console_print : frame.

(** Steps through a command: every primitive in front is a read. *)
Ltac frame_steps :=
  repeat (apply frame_bind; [solve [auto with frame]|intros ?]).

(** The keys that only the driver writes. *)
Definition request_fields : list string := ["destination"; "dates"; "budget"].

(** A patch that holds keys of [keys] only. *)
Definition writes_only (keys : gset string) (p : gmap string pyval) : Prop :=
  dom p ⊆ keys.

Lemma gather_agent_frame `{Externals} g :
  frame_ok (writes_only {[ gather_field g ]}) (gather_agent g).
Proof.
  destruct g; cbn [gather_agent gather_field];
    unfold flight_agent, hotel_agent, events_agent, restaurant_agent,
      attractions_agent, social_places_agent;
    frame_steps; apply frame_ret; unfold writes_only; by rewrite dom_singleton_L.
Qed.

Lemma consolidate_plan_frame `{Externals} :
  frame_ok (writes_only {[ "final_plan" ]}) consolidate_plan.
Proof.
  unfold consolidate_plan. frame_steps.
  apply frame_ret. unfold writes_only. by rewrite dom_singleton_L.
Qed.

Lemma approval_loop_frame `{Externals} fuel :
  frame_ok (writes_only {[ "final_plan"; "human_approved" ]}) (approval_loop fuel).
Proof.
  induction fuel as [|fuel IH]; cbn [approval_loop]; [apply frame_raise|].
  frame_steps. repeat case_bool_decide; [..|done].
  - frame_steps. apply frame_ret. unfold writes_only.
    rewrite dom_singleton_L. apply union_subseteq_r.
  - frame_steps. apply frame_ret. unfold writes_only.
    rewrite dom_singleton_L. apply union_subseteq_r.
  - frame_steps.
    match goal with |- frame_ok _ (if ?c then _ else _) => destruct c end;
      frame_steps; apply frame_ret; unfold writes_only;
      by rewrite dom_insert_L, dom_singleton_L.
Qed.

Lemma human_approval_agent_frame `{Externals} :
  frame_ok (writes_only {[ "final_plan"; "human_approved" ]}) human_approval_agent.
Proof.
  unfold human_approval_agent. cbn zeta.
  do 14 (apply frame_bind; [solve [auto with frame]|intros ?]).
  apply approval_loop_frame.
Qed.

(** ** The merge policy *)

Lemma merge_union (s p : gmap string pyval) : merge s p = p ∪ s.
Proof.
  unfold merge.
  apply (map_fold_weak_ind (λ r (m : gmap string pyval), r = m ∪ s)).
  - by rewrite (left_id_L ∅ (∪)).
  - intros k v m r _ ->. by rewrite insert_union_l.
Qed.

Lemma merge_lookup (s p : gmap string pyval) k :
  merge s p !! k = match p !! k with Some v => Some v | None => s !! k end.
Proof.
  rewrite merge_union, lookup_union.
  by destruct (p !! k), (s !! k).
Qed.

(** C8: the merge is a shallow union (a key of the patch takes the value of
    the patch, a key that the patch does not hold keeps the value of the
    state) and merging the same patch a second time changes nothing. *)
Theorem merge_shallow_union_idempotent (s p : gmap string pyval) :
  (∀ k, merge s p !! k = match p !! k with Some v => Some v | None => s !! k end) ∧
  merge (merge s p) p = merge s p.
Proof.
  split; [apply merge_lookup|].
  apply map_eq. intros k. rewrite !merge_lookup. by destruct (p !! k).
Qed.

(** ** Executions of a graph *)

Section executions.
Variable g : graph.

(** What an event requires of the events before it. *)
Definition event_ok (pre : list event) (x : event) : Prop :=
  match x with
  | Invoked n => eligible g n pre = true
  | Merged n => Invoked n ∈ pre ∧ (Merged n ∉ pre) ∧ ∀ e, Failed n e ∉ pre
  | Failed n e => ∃ pre', pre = pre' ++ [Invoked n]
  end.

Definition trace_ok (tr : list event) : Prop :=
  ∀ pre x post, tr = pre ++ x :: post → event_ok pre x.

Lemma trace_ok_nil : trace_ok [].
Proof. intros pre x post Heq. by destruct pre. Qed.

Lemma trace_ok_snoc tr x : trace_ok tr → event_ok tr x → trace_ok (tr ++ [x]).
Proof.
  intros Htr Hx pre y post Heq.
  destruct post as [|z post _] using rev_ind.
  - apply app_inj_tail in Heq as [-> ->]. done.
  - rewrite app_comm_cons, app_assoc in Heq.
    apply app_inj_tail in Heq as [-> _]. by eapply Htr.
Qed.

Lemma trace_ok_prefix pre post : trace_ok (pre ++ post) → trace_ok pre.
Proof.
  intros Htr pre1 x post1 ->. apply (Htr pre1 x (post1 ++ post)).
  by rewrite <- app_assoc.
Qed.

Lemma no_failure_spec tr :
  existsb is_failure tr = false ↔ ∀ n e, Failed n e ∉ tr.
Proof.
  induction tr as [|x tr IH]; cbn.
  - split; [|done]. intros _ n e Hin. by apply elem_of_nil in Hin.
  - rewrite orb_false_iff, IH. split.
    + intros [Hx Htr] n e [<-|Hin]%elem_of_cons; [done|]. by eapply Htr.
    + intros Hall. split.
      * destruct x as [| |n e]; try done. destruct (Hall n e). by left.
      * intros n e Hin. apply (Hall n e). by right.
Qed.

Lemma eligible_spec n tr :
  eligible g n tr = true ↔
    (∀ m e, Failed m e ∉ tr) ∧ (Invoked n ∉ tr) ∧
    (n ∈ entry_points g ∨ predecessors g n ≠ []) ∧
    Forall (λ a, Merged a ∈ tr) (predecessors g n).
Proof.
  unfold eligible.
  rewrite !andb_true_iff, negb_true_iff, no_failure_spec, !bool_decide_eq_true.
  tauto.
Qed.

(** A node is invoked after the patches of all its predecessors are
    merged, and not after a failure. *)
Lemma invoked_after_predecessors tr pre n post :
  trace_ok tr → tr = pre ++ Invoked n :: post →
  Forall (λ a, Merged a ∈ pre) (predecessors g n) ∧ ∀ m e, Failed m e ∉ pre.
Proof.
  intros Htr Heq. specialize (Htr _ _ _ Heq). cbn in Htr.
  apply eligible_spec in Htr. tauto.
Qed.

(** A node is invoked at most once. *)
Lemma invoked_once tr pre n post :
  trace_ok tr → tr = pre ++ Invoked n :: post →
  (Invoked n ∉ pre) ∧ (Invoked n ∉ post).
Proof.
  intros Htr Heq. split.
  - specialize (Htr _ _ _ Heq). cbn in Htr. apply eligible_spec in Htr. tauto.
  - intros (post1 & post2 & ->)%list_elem_of_split.
    rewrite app_comm_cons, app_assoc in Heq.
    specialize (Htr _ _ _ Heq). cbn in Htr. apply eligible_spec in Htr.
    destruct Htr as (_ & Hnot & _). apply Hnot.
    apply elem_of_app. right. by left.
Qed.

Lemma merged_was_invoked tr n :
  trace_ok tr → Merged n ∈ tr → Invoked n ∈ tr.
Proof.
  intros Htr (pre & post & Heq)%list_elem_of_split.
  destruct (Htr _ _ _ Heq) as (Hin & _). subst tr.
  apply elem_of_app. by left.
Qed.

Lemma failed_was_invoked tr n e :
  trace_ok tr → Failed n e ∈ tr → Invoked n ∈ tr.
Proof.
  intros Htr (pre & post & Heq)%list_elem_of_split.
  destruct (Htr _ _ _ Heq) as (pre' & ->). subst tr.
  rewrite !elem_of_app, list_elem_of_singleton. tauto.
Qed.

(** The patch of a node that failed is never merged. *)
Lemma failed_never_merged tr n e :
  trace_ok tr → Failed n e ∈ tr → Merged n ∉ tr.
Proof.
  intros Htr Hfail (pre & post & Heq)%list_elem_of_split.
  destruct (Htr _ _ _ Heq) as (Hinv & _ & Hnofail).
  subst tr. apply elem_of_app in Hfail as [Hfail|Hfail]; [by eapply Hnofail|].
  apply elem_of_cons in Hfail as [?|Hfail]; [done|].
  apply list_elem_of_split in Hfail as (post1 & post2 & ->).
  pose proof (Htr (pre ++ Merged n :: post1) (Failed n e) post2) as Hev.
  rewrite <- app_assoc in Hev. specialize (Hev eq_refl) as (pre' & Hpre').
  apply list_elem_of_split in Hinv as (pre1 & pre2 & ->).
  destruct (invoked_once _ pre1 n (pre2 ++ Merged n :: post1 ++ Failed n e :: post2) Htr)
    as [_ Hnot]; [by rewrite <- !app_assoc|].
  apply Hnot.
  destruct post1 as [|y post1 _] using rev_ind.
  - apply app_inj_tail in Hpre' as [_ [=]].
  - rewrite app_comm_cons, !app_assoc in Hpre'.
    apply app_inj_tail in Hpre' as [_ ->].
    rewrite !elem_of_app, !elem_of_cons, !elem_of_app, list_elem_of_singleton. tauto.
Qed.

(** After a failure no node is started, and the failure is the only one. *)
Lemma failure_is_last tr pre n e post :
  trace_ok tr → tr = pre ++ Failed n e :: post →
  (∀ m e', Failed m e' ∉ pre) ∧ (∀ m, Invoked m ∉ post) ∧ (∀ m e', Failed m e' ∉ post).
Proof.
  intros Htr Heq.
  assert (∀ m, Invoked m ∉ post) as Hpost.
  { intros m (post1 & post2 & ->)%list_elem_of_split.
    rewrite app_comm_cons, app_assoc in Heq.
    destruct (invoked_after_predecessors _ _ _ _ Htr Heq) as [_ Hnofail].
    apply (Hnofail n e). apply elem_of_app. right. by left. }
  split_and!; [|done|].
  - destruct (Htr _ _ _ Heq) as (pre' & ->).
    rewrite <- app_assoc in Heq. cbn in Heq.
    destruct (invoked_after_predecessors _ _ _ _ Htr Heq) as [_ Hnofail].
    intros m e' [?|[=]%list_elem_of_singleton]%elem_of_app. by eapply Hnofail.
  - intros m e' (post1 & post2 & ->)%list_elem_of_split.
    rewrite app_comm_cons, app_assoc in Heq.
    destruct (Htr _ _ _ Heq) as (pre' & Hpre').
    destruct post1 as [|y post1 _] using rev_ind.
    + by apply app_inj_tail in Hpre' as [_ [=]].
    + rewrite app_comm_cons, app_assoc in Hpre'.
      apply app_inj_tail in Hpre' as [_ ->].
      apply (Hpost m). rewrite !elem_of_app, list_elem_of_singleton. tauto.
Qed.

Lemma filter_no_failure tr :
  (∀ m e, Failed m e ∉ tr) → filter (λ x, is_failure x = true) tr = [].
Proof.
  intros Hnofail. induction tr as [|x tr IH]; [done|].
  rewrite filter_cons. destruct (decide (is_failure x = true)) as [Hx|_].
  - destruct x as [| |m e]; try done. destruct (Hnofail m e). by left.
  - apply IH. intros m e Hin. apply (Hnofail m e). by right.
Qed.

Lemma first_failure_unique tr pre n e post :
  trace_ok tr → tr = pre ++ Failed n e :: post → first_failure tr = Some e.
Proof.
  intros Htr Heq. destruct (failure_is_last _ _ _ _ _ Htr Heq) as (Hpre & _ & _).
  unfold first_failure. rewrite Heq, filter_app, filter_no_failure by done.
  by rewrite filter_cons.
Qed.

Lemma take_pending_Some n l p rest :
  take_pending n l = Some (p, rest) →
  ∃ l1 l2, l = l1 ++ (n, p) :: l2 ∧ rest = l1 ++ l2.
Proof.
  revert p rest. induction l as [|[m q] l IH]; intros p rest Htake; [done|].
  cbn in Htake. destruct (decide (m = n)) as [->|Hne].
  - injection Htake as -> ->. by exists [], rest.
  - destruct (take_pending n l) as [[q' rest']|]; [|done].
    injection Htake as -> <-.
    destruct (IH _ _ eq_refl) as (l1 & l2 & -> & ->).
    by exists ((m, q) :: l1), l2.
Qed.

Lemma take_pending_None n l : take_pending n l = None → n ∉ l.*1.
Proof.
  induction l as [|[m q] l IH]; cbn; [intros _; apply not_elem_of_nil|].
  destruct (decide (m = n)) as [->|Hne]; [done|].
  destruct (take_pending n l) as [[q' rest']|]; [done|].
  intros _. apply not_elem_of_cons. split; [done|by apply IH].
Qed.

Lemma fst_snoc (l : list (string * gmap string pyval)) n p :
  (l ++ [(n, p)]).*1 = l.*1 ++ [n].
Proof. by rewrite fmap_app. Qed.

(** The invariant of the configurations of an execution. *)
Record sched_inv (c : config) : Prop := SchedInv {
  inv_trace : trace_ok (trace c);
  inv_nodup : NoDup (pending c).*1;
  inv_pending : ∀ n, n ∈ (pending c).*1 →
    Invoked n ∈ trace c ∧ (Merged n ∉ trace c) ∧ ∀ e, Failed n e ∉ trace c;
  inv_cover : ∀ n, Invoked n ∈ trace c →
    n ∈ (pending c).*1 ∨ Merged n ∈ trace c ∨ ∃ e, Failed n e ∈ trace c
}.

Lemma sched_inv_initial w : sched_inv (initial w).
Proof.
  split; cbn.
  - apply trace_ok_nil.
  - constructor.
  - intros n Hn. by apply elem_of_nil in Hn.
  - intros n Hn. by apply elem_of_nil in Hn.
Qed.

Lemma elem_of_snoc (x y : event) tr : x ∈ tr ++ [y] ↔ x ∈ tr ∨ x = y.
Proof. by rewrite elem_of_app, list_elem_of_singleton. Qed.

Lemma sched_inv_invoke_ok c n p w' :
  sched_inv c → eligible g n (trace c) = true →
  sched_inv (Config w' (pending c ++ [(n, p)]) (trace c ++ [Invoked n])).
Proof.
  intros [Htr Hnd Hpend Hcov] Hel.
  pose proof Hel as (Hnofail & Hnew & _)%eligible_spec.
  assert (n ∉ (pending c).*1) as Hfresh by (intros Hin; by apply Hpend in Hin as [? _]).
  split; cbn.
  - by apply trace_ok_snoc.
  - rewrite fst_snoc. apply NoDup_app. split_and!; [done| |apply NoDup_singleton].
    intros m Hm ->%list_elem_of_singleton. done.
  - intros m. rewrite fst_snoc, elem_of_app, list_elem_of_singleton.
    setoid_rewrite elem_of_snoc.
    intros [Hm| ->].
    + destruct (Hpend m Hm) as (? & ? & ?).
      split_and!; [tauto|intros [?|[=]]; done|intros e [?|[=]]; by eapply Hnofail].
    + split_and!; [tauto| |intros e [?|[=]]; by eapply Hnofail].
      intros [Hmerged|[=]]. by apply Hnew, merged_was_invoked.
  - intros m [Hm|[= <-]]%elem_of_snoc;
      rewrite fst_snoc, elem_of_app, list_elem_of_singleton;
      setoid_rewrite elem_of_snoc; [|left; by right].
    destruct (Hcov m Hm) as [?|[?|[e ?]]]; [tauto..|].
    right. right. exists e. by left.
Qed.

Lemma elem_of_snoc2 (x y z : event) tr : x ∈ tr ++ [y; z] ↔ x ∈ tr ∨ x = y ∨ x = z.
Proof.
  rewrite elem_of_app, elem_of_cons, list_elem_of_singleton. tauto.
Qed.

Lemma sched_inv_invoke_fail c n e w' :
  sched_inv c → eligible g n (trace c) = true →
  sched_inv (Config w' (pending c) (trace c ++ [Invoked n; Failed n e])).
Proof.
  intros [Htr Hnd Hpend Hcov] Hel.
  pose proof Hel as (Hnofail & Hnew & _)%eligible_spec.
  split; cbn.
  - change [Invoked n; Failed n e] with ([Invoked n] ++ [Failed n e]).
    rewrite app_assoc. apply trace_ok_snoc; [by apply trace_ok_snoc|].
    by exists (trace c).
  - done.
  - intros m Hm. destruct (Hpend m Hm) as (Hinv & ? & ?).
    setoid_rewrite elem_of_snoc2.
    split_and!; [tauto|intros [?|[[=]|[=]]]; done|].
    intros e' [?|[[=]|[= <- <-]]]; [by eapply Hnofail|done].
  - intros m. setoid_rewrite elem_of_snoc2.
    intros [Hm|[[= <-]|[=]]].
    + destruct (Hcov m Hm) as [?|[?|[e' ?]]]; [tauto..|].
      right. right. exists e'. by left.
    + right. right. exists e. right. by right.
Qed.

Lemma sched_inv_merge c n p rest w' :
  sched_inv c → take_pending n (pending c) = Some (p, rest) →
  sched_inv (Config w' rest (trace c ++ [Merged n])).
Proof.
  intros [Htr Hnd Hpend Hcov] (l1 & l2 & Hl & ->)%take_pending_Some.
  rewrite Hl in Hnd, Hpend, Hcov.
  rewrite fmap_app, fmap_cons in Hnd. cbn [fst] in Hnd.
  apply NoDup_app in Hnd as (Hnd1 & Hdisj & [Hn2 Hnd2]%NoDup_cons).
  assert (n ∉ l1.*1) as Hn1.
  { intros Hin. apply (Hdisj n Hin). by left. }
  assert (∀ m, m ∈ (l1 ++ (n, p) :: l2).*1 ↔ m = n ∨ m ∈ (l1 ++ l2).*1) as Hmem.
  { intros m. rewrite !fmap_app, fmap_cons, !elem_of_app, elem_of_cons. cbn [fst]. tauto. }
  assert (n ∉ (l1 ++ l2).*1) as Hn.
  { rewrite fmap_app, elem_of_app. tauto. }
  split; cbn.
  - apply trace_ok_snoc; [done|]. apply Hpend, Hmem. by left.
  - rewrite fmap_app. apply NoDup_app. split_and!; [done| |done].
    intros m Hm1 Hm2. apply (Hdisj m Hm1). by right.
  - intros m Hm. assert (m ≠ n) as Hne by congruence.
    destruct (Hpend m) as (? & ? & Hnf); [apply Hmem; by right|].
    setoid_rewrite elem_of_snoc.
    split_and!; [tauto|intros [?|[=]]; done|intros e [?|[=]]; by eapply Hnf].
  - intros m. setoid_rewrite elem_of_snoc.
    intros [Hm|[=]]. destruct (decide (m = n)) as [->|Hne]; [right; left; by right|].
    destruct (Hcov m Hm) as [Hin|[?|[e ?]]]; [|tauto|].
    + apply Hmem in Hin as [?|?]; [done|by left].
    + right. right. exists e. by left.
Qed.

Lemma sched_step_inv a c c' :
  sched_inv c → sched_step g a c = Some c' → sched_inv c'.
Proof.
  intros Hinv Hstep. destruct a as [n|n]; cbn in Hstep.
  - destruct (find_node n (nodes g)) as [fn|]; [|done].
    destruct (eligible g n (trace c)) eqn:Hel; [|done].
    destruct (fn (env c)) as [[p|e] w']; injection Hstep as <-.
    + by apply sched_inv_invoke_ok.
    + by apply sched_inv_invoke_fail.
  - destruct (take_pending n (pending c)) as [[p rest]|] eqn:Htake; [|done].
    injection Hstep as <-. by eapply sched_inv_merge.
Qed.

(** An invariant of the steps holds along every schedule. *)
Lemma run_invariant (P : config → Prop) schedule c c' :
  (∀ a c1 c2, P c1 → sched_step g a c1 = Some c2 → P c2) →
  P c → run g schedule c = Some c' → P c'.
Proof.
  intros Hstep. revert c. induction schedule as [|a rest IH]; intros c Hc Hrun.
  - by injection Hrun as <-.
  - cbn in Hrun. destruct (sched_step g a c) as [c1|] eqn:Ha; [|done].
    eapply IH; [|done]. by eapply Hstep.
Qed.

Lemma run_inv schedule w c :
  run g schedule (initial w) = Some c → sched_inv c.
Proof.
  apply run_invariant; [apply sched_step_inv|apply sched_inv_initial].
Qed.

Lemma run_app s1 s2 c :
  run g (s1 ++ s2) c = run g s1 c ≫= run g s2.
Proof.
  revert c. induction s1 as [|a s1 IH]; intros c; [done|].
  cbn. destruct (sched_step g a c); [apply IH|done].
Qed.

(** The events of a configuration stay in the trace. *)
Lemma run_trace_prefix schedule c c' :
  run g schedule c = Some c' → ∃ more, trace c' = trace c ++ more.
Proof.
  revert c. induction schedule as [|a rest IH]; intros c Hrun.
  - injection Hrun as <-. exists []. by rewrite app_nil_r.
  - cbn in Hrun. destruct (sched_step g a c) as [c1|] eqn:Ha; [|done].
    destruct (IH _ Hrun) as [more Hmore].
    assert (∃ new, trace c1 = trace c ++ new) as [new Hnew].
    { destruct a as [n|n]; cbn in Ha.
      - destruct (find_node n (nodes g)) as [fn|]; [|done].
        destruct (eligible g n (trace c)); [|done].
        destruct (fn (env c)) as [[p|e] w']; injection Ha as <-; by eexists.
      - destruct (take_pending n (pending c)) as [[p rest']|]; [|done].
        injection Ha as <-. by eexists. }
    exists (new ++ more). by rewrite Hmore, Hnew, app_assoc.
Qed.

(** What a step of the scheduler is. *)
Lemma sched_step_cases a c c' :
  sched_step g a c = Some c' →
  (∃ n fn, a = Invoke n ∧ find_node n (nodes g) = Some fn ∧
           eligible g n (trace c) = true ∧
           ((∃ p, fn (env c) = (Returns p, env c') ∧
                  pending c' = pending c ++ [(n, p)] ∧
                  trace c' = trace c ++ [Invoked n]) ∨
            (∃ e, fn (env c) = (Raises e, env c') ∧
                  pending c' = pending c ∧
                  trace c' = trace c ++ [Invoked n; Failed n e]))) ∨
  (∃ n p l1 l2, a = Merge n ∧
                pending c = l1 ++ (n, p) :: l2 ∧ pending c' = l1 ++ l2 ∧
                env c' = with_state (merge (state_obj (env c)) p) (env c) ∧
                trace c' = trace c ++ [Merged n]).
Proof.
  intros Hstep. destruct a as [n|n]; cbn [sched_step] in Hstep.
  - left. destruct (find_node n (nodes g)) as [fn|] eqn:Hfn; [|done].
    destruct (eligible g n (trace c)) eqn:Hel; [|done].
    exists n, fn. split_and!; [done..|].
    destruct (fn (env c)) as [[p|e] w']; injection Hstep as <-; cbn; eauto.
  - right. destruct (take_pending n (pending c)) as [[p rest]|] eqn:Htake; [|done].
    injection Hstep as <-.
    apply take_pending_Some in Htake as (l1 & l2 & Hl & ->).
    by exists n, p, l1, l2.
Qed.

Lemma run_cons a schedule c c' :
  run g (a :: schedule) c = Some c' →
  ∃ c1, sched_step g a c = Some c1 ∧ run g schedule c1 = Some c'.
Proof.
  cbn [run]. destruct (sched_step g a c) as [c1|]; [|done]. by exists c1.
Qed.

(** [execute] follows a schedule. *)
Lemma execute_from_run fuel c :
  ∃ schedule, run g schedule c = Some (execute_from g fuel c).
Proof.
  revert c. induction fuel as [|fuel IH]; intros c; [by exists []|].
  cbn. destruct (next_action g c) as [a|]; [|by exists []].
  destruct (sched_step g a c) as [c1|] eqn:Ha; [|by exists []].
  destruct (IH c1) as [schedule Hrun].
  exists (a :: schedule). cbn. by rewrite Ha.
Qed.

End executions.

Section complete_executions.
Variable g : graph.

(** Nothing is left to do: no node can be started and no patch merged. *)
Definition complete (c : config) : Prop := ∀ a, sched_step g a c = None.

(** In a complete execution without failure, a registered node whose
    predecessors are merged is merged too. *)
Lemma complete_merged c n fn :
  sched_inv g c → complete c → (∀ m e, Failed m e ∉ trace c) →
  find_node n (nodes g) = Some fn →
  n ∈ entry_points g ∨ predecessors g n ≠ [] →
  Forall (λ a, Merged a ∈ trace c) (predecessors g n) →
  Merged n ∈ trace c.
Proof.
  intros Hinv Hdone Hnofail Hfn Hentry Hpreds.
  assert (Invoked n ∈ trace c) as Hinvoked.
  { destruct (decide (Invoked n ∈ trace c)) as [|Hnot]; [done|].
    specialize (Hdone (Invoke n)). cbn in Hdone. rewrite Hfn in Hdone.
    rewrite (proj2 (eligible_spec g n (trace c))) in Hdone by done.
    by destruct (fn (env c)) as [[p|e] w']. }
  destruct (inv_cover g c Hinv n Hinvoked) as [Hpend|[?|[e He]]]; [|done|].
  - specialize (Hdone (Merge n)). cbn in Hdone.
    destruct (take_pending n (pending c)) as [[p rest]|] eqn:Htake; [done|].
    by apply take_pending_None in Htake.
  - by destruct (Hnofail n e).
Qed.

End complete_executions.

(** ** [execute] runs to the end *)

Section execute_total.
Variable g : graph.

Lemma find_node_Some n fn : find_node n (nodes g) = Some fn → n ∈ node_names g.
Proof.
  unfold node_names. induction (nodes g) as [|[m fm] l IH]; cbn; [done|].
  destruct (decide (m = n)) as [->|_]; [by left|]. intros Hfn. right. by apply IH.
Qed.

Lemma find_node_names n : n ∈ node_names g → is_Some (find_node n (nodes g)).
Proof.
  unfold node_names. induction (nodes g) as [|[m fm] l IH]; cbn.
  - by intros ?%elem_of_nil.
  - destruct (decide (m = n)) as [->|Hne]; [by eexists|].
    intros [?|?]%elem_of_cons; [done|by apply IH].
Qed.

(** The action that [execute] chooses is one that the algorithm allows. *)
Lemma next_action_enabled c a :
  next_action g c = Some a → is_Some (sched_step g a c).
Proof.
  unfold next_action. destruct (existsb is_failure (trace c)); [done|].
  destruct (filter _ (node_names g)) as [|n ready] eqn:Hready.
  - destruct (pending c) as [|[n p] rest] eqn:Hpend; [done|].
    intros [= <-]. cbn [sched_step]. rewrite Hpend. cbn.
    by rewrite decide_True.
  - intros [= <-]. cbn [sched_step].
    assert (n ∈ filter (λ n, eligible g n (trace c) = true) (node_names g)) as Hn.
    { rewrite Hready. by left. }
    apply list_elem_of_filter in Hn as [Hel Hn].
    destruct (find_node_names n Hn) as [fn ->]. rewrite Hel.
    by destruct (fn (env c)) as [[p|e] w'].
Qed.

(** Nothing to choose: the execution has failed or is complete. *)
Lemma next_action_None c :
  next_action g c = None → existsb is_failure (trace c) = true ∨ complete g c.
Proof.
  unfold next_action. destruct (existsb is_failure (trace c)); [by left|].
  destruct (filter _ (node_names g)) as [|n ready] eqn:Hready; [|done].
  destruct (pending c) as [|[n p] rest] eqn:Hpend; [|done].
  intros _. right. intros [n|n]; cbn [sched_step].
  - destruct (find_node n (nodes g)) as [fn|] eqn:Hfn; [|done].
    destruct (eligible g n (trace c)) eqn:Hel; [|done].
    assert (n ∈ filter (λ n, eligible g n (trace c) = true) (node_names g)) as Hn.
    { apply list_elem_of_filter. split; [done|by eapply find_node_Some]. }
    rewrite Hready in Hn. by apply elem_of_nil in Hn.
  - by rewrite Hpend.
Qed.

(** The nodes that are not invoked yet. *)
Definition todo (tr : list event) : list string :=
  filter (λ n, Invoked n ∉ tr) (node_names g).

(** A bound on the actions left: two for a node to invoke, one for a patch
    to merge. *)
Definition work (c : config) : nat := 2 * length (todo (trace c)) + length (pending c).

Lemma filter_shrinks (P Q : string → Prop) `{!∀ x, Decision (P x)} `{!∀ x, Decision (Q x)}
    (l : list string) :
  (∀ x, Q x → P x) → (length (filter Q l) ≤ length (filter P l))%nat.
Proof.
  intros HQP. induction l as [|x l IH]; [done|].
  rewrite !filter_cons.
  destruct (decide (Q x)) as [HQ|_], (decide (P x)) as [HP|HP]; cbn; try lia.
  destruct HP. by apply HQP.
Qed.

Lemma filter_shrinks_strictly (P Q : string → Prop) `{!∀ x, Decision (P x)}
    `{!∀ x, Decision (Q x)} (l : list string) n :
  (∀ x, Q x → P x) → n ∈ l → P n → ¬ Q n →
  length (filter Q l) < length (filter P l).
Proof.
  intros HQP Hn HPn HQn. induction l as [|x l IH]; [by apply elem_of_nil in Hn|].
  rewrite !filter_cons. pose proof (filter_shrinks P Q l HQP) as Hle.
  apply elem_of_cons in Hn as [<-|Hn].
  - rewrite decide_False, decide_True by done. cbn. lia.
  - specialize (IH Hn).
    destruct (decide (Q x)) as [HQ|_], (decide (P x)) as [HP|HP]; cbn; try lia.
    destruct HP. by apply HQP.
Qed.

Lemma sched_step_work a c c' : sched_step g a c = Some c' → work c' < work c.
Proof.
  intros Hstep. unfold work, todo.
  apply sched_step_cases in Hstep
    as [(n & fn & _ & Hfn & Hel & Hcases)|(n & p & l1 & l2 & _ & Hl & Hl' & _ & Htr)].
  - apply find_node_Some in Hfn.
    apply eligible_spec in Hel as (_ & Hnew & _).
    assert (length (filter (λ m, Invoked m ∉ trace c') (node_names g))
              < length (filter (λ m, Invoked m ∉ trace c) (node_names g))) as Hlt.
    { apply (filter_shrinks_strictly _ _ _ n); [|done..|].
      - intros m Hm Hin. apply Hm.
        destruct Hcases as [(? & _ & _ & ->)|(? & _ & _ & ->)]; apply elem_of_app; by left.
      - intros Hnot. apply Hnot.
        destruct Hcases as [(? & _ & _ & ->)|(? & _ & _ & ->)];
          apply elem_of_app; right; by left. }
    destruct Hcases as [(? & _ & -> & _)|(? & _ & -> & _)];
      rewrite ?length_app; cbn; lia.
  - assert (length (filter (λ m, Invoked m ∉ trace c') (node_names g))
              ≤ length (filter (λ m, Invoked m ∉ trace c) (node_names g)))%nat as Hle.
    { apply filter_shrinks. intros m Hm Hin. apply Hm. rewrite Htr.
      apply elem_of_app. by left. }
    rewrite Hl, Hl', !length_app. cbn. lia.
Qed.

Lemma execute_from_final fuel c :
  (work c ≤ fuel)%nat → next_action g (execute_from g fuel c) = None.
Proof.
  revert c. induction fuel as [|fuel IH]; intros c Hwork; cbn [execute_from].
  - destruct (next_action g c) as [a|] eqn:Ha; [|done].
    destruct (next_action_enabled c a Ha) as [c' Hstep].
    apply sched_step_work in Hstep. lia.
  - destruct (next_action g c) as [a|] eqn:Ha; [|done].
    destruct (next_action_enabled c a Ha) as [c' Hstep]. rewrite Hstep.
    apply IH. apply sched_step_work in Hstep. lia.
Qed.

(** [execute] stops on a failure or when nothing is left to do. *)
Lemma execute_config_final w :
  existsb is_failure (trace (execute_config g w)) = true ∨ complete g (execute_config g w).
Proof.
  apply next_action_None, execute_from_final.
  unfold work, todo, initial, node_names. cbn [trace pending length].
  pose proof (length_filter (λ n, Invoked n ∉ []) (fst <$> nodes g)) as Hle.
  rewrite length_fmap in Hle. lia.
Qed.

Lemma first_failure_None tr : first_failure tr = None → ∀ n e, Failed n e ∉ tr.
Proof.
  unfold first_failure. intros Hnone n e Hin.
  assert (Failed n e ∈ filter (λ x, is_failure x = true) tr) as Hf.
  { by apply list_elem_of_filter. }
  destruct (filter _ tr) as [|x rest] eqn:Hfilter; [by apply elem_of_nil in Hf|].
  assert (x ∈ filter (λ x, is_failure x = true) tr) as Hx by (rewrite Hfilter; by left).
  apply list_elem_of_filter in Hx as [Hx _]. by destruct x.
Qed.

(** When [execute] returns a state, the execution is complete and free of
    failures. *)
Lemma execute_Returns w s :
  execute g w = Returns s →
  complete g (execute_config g w) ∧ (∀ n e, Failed n e ∉ trace (execute_config g w)) ∧
  s = state_obj (env (execute_config g w)).
Proof.
  unfold execute. destruct (first_failure _) eqn:Hff; [done|]. intros [= <-].
  pose proof (first_failure_None _ Hff) as Hnofail.
  split_and!; [|done..].
  destruct (execute_config_final w) as [Hfail|?]; [|done].
  apply no_failure_spec in Hnofail. congruence.
Qed.

End execute_total.

(** ** The workflow *)

Section workflow_facts.
Context `{Externals}.

Lemma workflow_nodes :
  nodes workflow =
    [ ("flight_search", flight_agent); ("hotel_search", hotel_agent);
      ("events_search", events_agent); ("restaurant_search", restaurant_agent);
      ("attractions_search", attractions_agent);
      ("social_places_search", social_places_agent);
      ("consolidate", consolidate_plan); ("human_approval", human_approval_agent) ].
Proof. reflexivity. Qed.

Lemma find_gather_node gn : find_node (gather_node gn) (nodes workflow) = Some (gather_agent gn).
Proof. rewrite workflow_nodes. by destruct gn. Qed.

Lemma find_consolidate : find_node "consolidate" (nodes workflow) = Some consolidate_plan.
Proof. by rewrite workflow_nodes. Qed.

Lemma find_human_approval :
  find_node "human_approval" (nodes workflow) = Some human_approval_agent.
Proof. by rewrite workflow_nodes. Qed.

Lemma gather_node_entry gn :
  gather_node gn ∈ entry_points workflow ∧ predecessors workflow (gather_node gn) = [].
Proof. destruct gn; (split; [|reflexivity]); cbn; set_unfold; tauto. Qed.

Lemma consolidate_predecessors :
  predecessors workflow "consolidate" = gather_node <$> [Flight; Hotel; Events; Restaurant; Attractions; SocialPlaces].
Proof. reflexivity. Qed.

Lemma human_approval_predecessors :
  predecessors workflow "human_approval" = ["consolidate"].
Proof. reflexivity. Qed.

Lemma all_gathers (P : gather → Prop) :
  Forall P [Flight; Hotel; Events; Restaurant; Attractions; SocialPlaces] ↔ ∀ gn, P gn.
Proof.
  rewrite Forall_forall. split; intros HP gn; [|by intros _].
  apply HP. destruct gn; set_unfold; tauto.
Qed.

Lemma consolidate_invoked_after_gathers tr pre post :
  trace_ok workflow tr → tr = pre ++ Invoked "consolidate" :: post →
  (∀ gn, Merged (gather_node gn) ∈ pre) ∧
  (Invoked "consolidate" ∉ pre) ∧ (Invoked "consolidate" ∉ post).
Proof.
  intros Htr Heq.
  destruct (invoked_after_predecessors workflow _ _ _ _ Htr Heq) as [Hpreds _].
  rewrite consolidate_predecessors, Forall_fmap in Hpreds.
  split; [exact (proj1 (all_gathers _) Hpreds)|].
  by eapply invoked_once.
Qed.

Lemma human_approval_invoked_after_consolidate tr pre post :
  trace_ok workflow tr → tr = pre ++ Invoked "human_approval" :: post →
  Invoked "consolidate" ∈ pre ∧ Merged "consolidate" ∈ pre.
Proof.
  intros Htr Heq.
  destruct (invoked_after_predecessors workflow _ _ _ _ Htr Heq) as [Hpreds _].
  rewrite human_approval_predecessors, Forall_singleton in Hpreds.
  split; [|done].
  eapply merged_was_invoked; [|done].
  rewrite Heq in Htr. by eapply trace_ok_prefix.
Qed.

(** A complete execution without failure has invoked [consolidate], and
    merged the patch of [human_approval] after that. *)
Lemma complete_workflow_trace c :
  sched_inv workflow c → complete workflow c → (∀ n e, Failed n e ∉ trace c) →
  ∃ pre post, trace c = pre ++ Invoked "consolidate" :: post ∧
              Merged "human_approval" ∈ post.
Proof.
  intros Hinv Hdone Hnofail. pose proof (inv_trace _ _ Hinv) as Htr.
  assert (∀ gn, Merged (gather_node gn) ∈ trace c) as Hgather.
  { intros gn. destruct (gather_node_entry gn) as [Hentry Hnone].
    apply (complete_merged workflow c _ _ Hinv Hdone Hnofail (find_gather_node gn));
      [by left|]. rewrite Hnone. constructor. }
  assert (Merged "consolidate" ∈ trace c) as Hcons.
  { apply (complete_merged workflow c _ _ Hinv Hdone Hnofail find_consolidate).
    - right. by rewrite consolidate_predecessors.
    - rewrite consolidate_predecessors, Forall_fmap.
      apply all_gathers. intros gn. apply Hgather. }
  assert (Merged "human_approval" ∈ trace c) as Happ.
  { apply (complete_merged workflow c _ _ Hinv Hdone Hnofail find_human_approval).
    - right. by rewrite human_approval_predecessors.
    - rewrite human_approval_predecessors. by apply Forall_singleton. }
  apply (merged_was_invoked workflow) in Hcons; [|done].
  apply list_elem_of_split in Hcons as (pre & post & Heq).
  exists pre, post. split; [done|].
  rewrite Heq in Happ. apply elem_of_app in Happ as [Happ|Happ];
    [|by apply elem_of_cons in Happ as [[=]|?]].
  (* [human_approval] merged before [consolidate] was invoked: impossible *)
  assert (trace_ok workflow pre) as Hpre.
  { rewrite Heq in Htr. by eapply trace_ok_prefix. }
  apply (merged_was_invoked workflow) in Happ; [|done].
  apply list_elem_of_split in Happ as (pre1 & pre2 & Heq1).
  destruct (human_approval_invoked_after_consolidate _ _ _ Hpre Heq1) as [Hin _].
  destruct (invoked_once workflow _ _ _ _ Htr Heq) as [Hnot _].
  destruct Hnot. rewrite Heq1. apply elem_of_app. by left.
Qed.

(** When [execute] returns a state, [consolidate] was invoked exactly once,
    after the six gather patches were merged, and [human_approval] ran after
    it. *)
Lemma execute_invokes_consolidate_once w s :
  execute workflow w = Returns s →
  ∃ pre post,
    trace (execute_config workflow w) = pre ++ Invoked "consolidate" :: post ∧
    (∀ gn, Merged (gather_node gn) ∈ pre) ∧
    (Invoked "consolidate" ∉ pre) ∧ (Invoked "consolidate" ∉ post) ∧
    Merged "human_approval" ∈ post.
Proof.
  intros (Hdone & Hnofail & _)%execute_Returns.
  destruct (execute_from_run workflow (2 * length (nodes workflow)) (initial w))
    as [schedule Hrun].
  apply run_inv in Hrun. fold (execute_config workflow w) in Hrun.
  destruct (complete_workflow_trace _ Hrun Hdone Hnofail) as (pre & post & Heq & Happ).
  exists pre, post.
  destruct (consolidate_invoked_after_gathers _ _ _ (inv_trace _ _ Hrun) Heq)
    as (? & ? & ?).
  by split_and!.
Qed.

(** C3: in every execution of the workflow, [consolidate] is invoked
    only after the patches of all six gather nodes are merged, and at most
    once; [human_approval] is invoked only after [consolidate] has run and
    its patch is merged; and in an execution that has run to completion
    without failure [consolidate] has been invoked, so exactly once. *)
Theorem consolidate_after_all_gathers (w : world) (schedule : list action) (c : config) :
  run workflow schedule (initial w) = Some c →
  (∀ pre post, trace c = pre ++ Invoked "consolidate" :: post →
     (∀ gn, Merged (gather_node gn) ∈ pre) ∧
     (Invoked "consolidate" ∉ pre) ∧ (Invoked "consolidate" ∉ post)) ∧
  (∀ pre post, trace c = pre ++ Invoked "human_approval" :: post →
     Invoked "consolidate" ∈ pre ∧ Merged "consolidate" ∈ pre) ∧
  (complete workflow c → (∀ n e, Failed n e ∉ trace c) →
     ∃ pre post, trace c = pre ++ Invoked "consolidate" :: post ∧
                 Merged "human_approval" ∈ post).
Proof.
  intros Hrun. pose proof (run_inv _ _ _ _ Hrun) as Hinv.
  pose proof (inv_trace _ _ Hinv) as Htr.
  split_and!.
  - intros pre post. by apply consolidate_invoked_after_gathers.
  - intros pre post. by apply human_approval_invoked_after_consolidate.
  - by apply complete_workflow_trace.
Qed.

End workflow_facts.

Definition interleaved_schedule : list action :=
  [ Invoke "hotel_search"; Invoke "flight_search"; Merge "hotel_search";
    Invoke "events_search"; Invoke "social_places_search";
    Invoke "restaurant_search"; Merge "social_places_search";
    Invoke "attractions_search"; Merge "flight_search"; Merge "attractions_search";
    Merge "events_search"; Merge "restaurant_search";
    Invoke "consolidate"; Merge "consolidate";
    Invoke "human_approval"; Merge "human_approval" ].

Definition interleaved_run : config :=
  let E := stub_chain (inl "Mock result") in
  let w := world_of sample_travel_state ["yes"] [] in
  default (initial w) (run (@workflow E) interleaved_schedule (initial w)).

Lemma consolidate_after_all_gathers_witness :
  let E := stub_chain (inl "Mock result") in
  let c := interleaved_run in
  (∀ pre post, trace c = pre ++ Invoked "consolidate" :: post →
     (∀ gn, Merged (gather_node gn) ∈ pre) ∧
     (Invoked "consolidate" ∉ pre) ∧ (Invoked "consolidate" ∉ post)) ∧
  (∀ pre post, trace c = pre ++ Invoked "human_approval" :: post →
     Invoked "consolidate" ∈ pre ∧ Merged "consolidate" ∈ pre) ∧
  (complete (@workflow E) c → (∀ n e, Failed n e ∉ trace c) →
     ∃ pre post, trace c = pre ++ Invoked "consolidate" :: post ∧
                 Merged "human_approval" ∈ post).
Proof.
  intros E c.
  apply (@consolidate_after_all_gathers E (world_of sample_travel_state ["yes"] [])
           interleaved_schedule c).
  vm_compute. reflexivity.
Defined.

Section failures.
Context `{Externals}.

(** C6: when the call of the chain fails, a gather node raises the
    failure as it is, after that single call and without a patch; the
    scheduler records the failure, and in every continuation of that
    execution the failure is the one reported, no patch of the node is
    merged or pending, and neither [consolidate] nor [human_approval] is
    ever invoked. *)
Theorem gather_failure_propagates (gn : gather) (w0 : world)
    (schedule0 : list action) (c : config) (d t b : pyval) (msg : string) :
  run workflow schedule0 (initial w0) = Some c →
  state_obj (env c) !! "destination" = Some d →
  state_obj (env c) !! "dates" = Some t →
  state_obj (env c) !! "budget" = Some b →
  (∀ prompt vars, chain_invoke (length (llm_log (env c))) prompt vars = inr msg) →
  ∃ call,
    gather_agent gn (env c) = (Raises (GenerationError msg), logged call (env c)) ∧
    ∀ schedule c',
      run workflow (Invoke (gather_node gn) :: schedule) c = Some c' →
      first_failure (trace c') = Some (GenerationError msg) ∧
      Failed (gather_node gn) (GenerationError msg) ∈ trace c' ∧
      (Merged (gather_node gn) ∉ trace c') ∧
      (gather_node gn ∉ (pending c').*1) ∧
      (Invoked "consolidate" ∉ trace c') ∧
      (Invoked "human_approval" ∉ trace c').
Proof.
  intros Hrun0 Hd Ht Hb Hfail.
  destruct (gather_agent_run gn (env c) d t b Hd Ht Hb) as (call & data & Hagent).
  rewrite Hfail in Hagent. exists call. split; [done|].
  intros schedule c' Hrun.
  assert (sched_inv workflow c') as Hinv.
  { apply (run_inv workflow (schedule0 ++ Invoke (gather_node gn) :: schedule) w0).
    by rewrite run_app, Hrun0. }
  pose proof (inv_trace _ _ Hinv) as Htr.
  apply run_cons in Hrun as (c1 & Hstep & Hrun).
  apply run_trace_prefix in Hrun as [more Hmore].
  apply sched_step_cases in Hstep
    as [(n & fn & [= <-] & Hfn & _ & Hcases)|(n & ? & ? & ? & [=] & _)].
  rewrite find_gather_node in Hfn. injection Hfn as <-.
  rewrite Hagent in Hcases.
  destruct Hcases as [(p & [=] & _)|(e & [= <- _] & _ & Htrace)].
  rewrite Htrace, <- app_assoc in Hmore. cbn [app] in Hmore.
  assert (trace c' = (trace c ++ [Invoked (gather_node gn)])
                       ++ Failed (gather_node gn) (GenerationError msg) :: more) as Hsplit.
  { by rewrite <- app_assoc. }
  assert (Failed (gather_node gn) (GenerationError msg) ∈ trace c') as Hfailed.
  { rewrite Hsplit. apply elem_of_app. right. by left. }
  assert (Merged (gather_node gn) ∉ trace c') as Hnomerge.
  { by eapply failed_never_merged. }
  assert (Invoked "consolidate" ∉ trace c') as Hnocons.
  { intros (pre & post & Heq)%list_elem_of_split.
    destruct (invoked_after_predecessors workflow _ _ _ _ Htr Heq) as [Hpreds _].
    rewrite consolidate_predecessors, Forall_fmap in Hpreds.
    pose proof (proj1 (all_gathers _) Hpreds gn) as Hmerged. cbn in Hmerged.
    apply Hnomerge. rewrite Heq. apply elem_of_app. by left. }
  split_and!; [by eapply first_failure_unique|done|done| |done|].
  - intros Hpend. destruct (inv_pending _ _ Hinv _ Hpend) as (_ & _ & Hnf).
    by eapply Hnf.
  - intros (pre & post & Heq)%list_elem_of_split.
    destruct (invoked_after_predecessors workflow _ _ _ _ Htr Heq) as [Hpreds _].
    rewrite human_approval_predecessors, Forall_singleton in Hpreds.
    apply Hnocons. apply (merged_was_invoked workflow); [done|].
    rewrite Heq. apply elem_of_app. by left.
Qed.

End failures.

Lemma gather_failure_propagates_witness :
  let E := stub_chain (inr "provider unavailable") in
  let c := initial (world_of sample_travel_state ["yes"] []) in
  ∃ call,
    @gather_agent E Flight (env c)
      = (Raises (GenerationError "provider unavailable"), logged call (env c)) ∧
    ∀ schedule c',
      run (@workflow E) (Invoke "flight_search" :: schedule) c = Some c' →
      first_failure (trace c') = Some (GenerationError "provider unavailable") ∧
      Failed "flight_search" (GenerationError "provider unavailable") ∈ trace c' ∧
      (Merged "flight_search" ∉ trace c') ∧
      ("flight_search" ∉ (pending c').*1) ∧
      (Invoked "consolidate" ∉ trace c') ∧
      (Invoked "human_approval" ∉ trace c').
Proof.
  intros E c.
  apply (@gather_failure_propagates E Flight (world_of sample_travel_state ["yes"] []) [] c
           (VStr "Barcelona") (VStr "March 15-20, 2024") (VStr "$2000")
           "provider unavailable");
    [vm_compute; reflexivity..|intros prompt vars; reflexivity].
Defined.

(** ** The request fields are only read *)

(** A patch that leaves the request fields alone. *)
Definition keeps_request (p : gmap string pyval) : Prop :=
  ∀ k, k ∈ request_fields → p !! k = None.

Lemma frame_weaken {A} (R R' : A → Prop) (m : M A) :
  (∀ a, R a → R' a) → frame_ok R m → frame_ok R' m.
Proof. intros HR Hm w. destruct (Hm w) as [Hs Ha]. split; [done|]. eauto. Qed.

Lemma writes_only_keeps_request keys p :
  (∀ k, k ∈ request_fields → k ∉ keys) → writes_only keys p → keeps_request p.
Proof.
  intros Hkeys Hp k Hk. apply not_elem_of_dom. intros Hin. by apply (Hkeys k Hk), Hp.
Qed.

Lemma find_node_elem n fn l : find_node n l = Some fn → (n, fn) ∈ l.
Proof.
  induction l as [|[m fm] l IH]; cbn; [done|].
  destruct (decide (m = n)) as [->|_].
  - intros [= ->]. by left.
  - intros Hfind. right. by apply IH.
Qed.

Section request_invariant.
Variable g : graph.
Hypothesis nodes_keep :
  ∀ n fn, find_node n (nodes g) = Some fn → frame_ok keeps_request fn.

(** What every configuration of an execution from [w] satisfies. *)
Definition request_inv (w : world) (c : config) : Prop :=
  (∀ k, k ∈ request_fields → state_obj (env c) !! k = state_obj w !! k) ∧
  (∀ n p, (n, p) ∈ pending c → keeps_request p).

Lemma request_inv_step w a c c' :
  request_inv w c → sched_step g a c = Some c' → request_inv w c'.
Proof.
  intros [Hstate Hpend] Hstep.
  apply sched_step_cases in Hstep
    as [(n & fn & _ & Hfn & _ & Hcases)|(n & p & l1 & l2 & _ & Hl & Hl' & Henv & _)].
  - destruct (nodes_keep n fn Hfn (env c)) as [Hs Hp].
    destruct Hcases as [(p & Hrun & Hl' & _)|(e & Hrun & Hl' & _)];
      rewrite Hrun in Hs, Hp; cbn [fst snd] in Hs, Hp;
      (split; [intros k Hk; rewrite Hs; by apply Hstate|]); rewrite Hl'; [|done].
    intros m q [?|[= -> ->]%list_elem_of_singleton]%elem_of_app; eauto.
  - rewrite Hl in Hpend. split.
    + intros k Hk. rewrite Henv. cbn [state_obj with_state]. rewrite merge_lookup.
      assert (p !! k = None) as ->.
      { apply (Hpend n p); [|done]. apply elem_of_app. right. by left. }
      by apply Hstate.
    + rewrite Hl'. intros m q Hin. apply (Hpend m q).
      apply elem_of_app in Hin as [?|?]; apply elem_of_app; [by left|].
      right. by right.
Qed.

End request_invariant.

Section request.
Context `{Externals}.

Lemma gather_agent_keeps gn : frame_ok keeps_request (gather_agent gn).
Proof.
  eapply frame_weaken; [|apply gather_agent_frame].
  intros p. apply writes_only_keeps_request. intros k Hk. unfold request_fields in Hk.
  destruct gn; set_unfold; cbn [gather_field]; intuition congruence.
Qed.

Lemma consolidate_plan_keeps : frame_ok keeps_request consolidate_plan.
Proof.
  eapply frame_weaken; [|apply consolidate_plan_frame].
  intros p. apply writes_only_keeps_request. intros k Hk. unfold request_fields in Hk.
  set_unfold; intuition congruence.
Qed.

Lemma human_approval_agent_keeps : frame_ok keeps_request human_approval_agent.
Proof.
  eapply frame_weaken; [|apply human_approval_agent_frame].
  intros p. apply writes_only_keeps_request. intros k Hk. unfold request_fields in Hk.
  set_unfold; intuition congruence.
Qed.

Lemma workflow_node_frame name fn :
  (name, fn) ∈ nodes workflow → frame_ok keeps_request fn.
Proof.
  rewrite workflow_nodes. intros Hin.
  repeat (apply elem_of_cons in Hin as [[= _ ->]|Hin]);
    [apply (gather_agent_keeps Flight) | apply (gather_agent_keeps Hotel)
    |apply (gather_agent_keeps Events) | apply (gather_agent_keeps Restaurant)
    |apply (gather_agent_keeps Attractions) | apply (gather_agent_keeps SocialPlaces)
    |apply consolidate_plan_keeps | apply human_approval_agent_keeps
    |by apply elem_of_nil in Hin].
Qed.

Lemma workflow_find_frame n fn :
  find_node n (nodes workflow) = Some fn → frame_ok keeps_request fn.
Proof. intros Hfn. by eapply workflow_node_frame, find_node_elem. Qed.

(** C9: every node of the workflow leaves the state object it is handed
    as it was and returns a patch without the keys [destination], [dates]
    and [budget]; so after any execution of the workflow, complete or not,
    and in the state that [execute] returns, these three fields are those
    of the initial state. *)
Theorem request_fields_preserved (name : string) (fn : M (gmap string pyval))
    (w : world) (k : string) :
  (name, fn) ∈ nodes workflow →
  k ∈ ["destination"; "dates"; "budget"] →
  state_obj (fn w).2 = state_obj w ∧
  (∀ p, (fn w).1 = Returns p → p !! k = None) ∧
  (∀ schedule c, run workflow schedule (initial w) = Some c →
                 state_obj (env c) !! k = state_obj w !! k) ∧
  (∀ s, execute workflow w = Returns s → s !! k = state_obj w !! k).
Proof.
  intros Hnode Hk.
  destruct (workflow_node_frame name fn Hnode w) as [Hs Hp].
  assert (∀ schedule c, run workflow schedule (initial w) = Some c →
                        state_obj (env c) !! k = state_obj w !! k) as Hrun.
  { intros schedule c Hrun.
    assert (request_inv w c) as [Hstate _]; [|by apply Hstate].
    eapply (run_invariant workflow (request_inv w));
      [apply (request_inv_step workflow workflow_find_frame)| |done].
    split; [done|]. intros n p Hin. by apply elem_of_nil in Hin. }
  split_and!; [done| |done|].
  - intros p Hret. by apply (Hp p Hret).
  - intros s. unfold execute.
    destruct (first_failure _); [done|]. intros [= <-].
    destruct (execute_from_run workflow (2 * length (nodes workflow)) (initial w))
      as [schedule Hsched].
    by apply (Hrun schedule).
Qed.

End request.

Lemma request_fields_preserved_witness :
  let E := stub_chain (inl "Mock result") in
  let w := world_of reviewed_travel_state ["modify"; "cheaper hotels"] [false] in
  state_obj (@human_approval_agent E w).2 = state_obj w ∧
  (∀ p, (@human_approval_agent E w).1 = Returns p → p !! "budget" = None) ∧
  (∀ schedule c, run (@workflow E) schedule (initial w) = Some c →
                 state_obj (env c) !! "budget" = state_obj w !! "budget") ∧
  (∀ s, execute (@workflow E) w = Returns s → s !! "budget" = state_obj w !! "budget").
Proof.
  intros E w.
  apply (@request_fields_preserved E "human_approval" (@human_approval_agent E) w "budget").
  - do 7 apply list_elem_of_further. apply list_elem_of_here.
  - do 2 apply list_elem_of_further. apply list_elem_of_here.
Defined.

(** ** The mock search providers *)

(** C10: the mock flight and hotel searches do not depend on the budget
    they are given, and the mock restaurant search, which takes the
    destination alone, returns the same restaurants for every destination
    and echoes the destination. *)
Theorem mock_search_ignores_budget (destination dates b1 b2 destination' : pyval) :
  mock_flight_search destination dates b1 = mock_flight_search destination dates b2 ∧
  mock_hotel_search destination dates b1 = mock_hotel_search destination dates b2 ∧
  subscript (mock_restaurant_search destination) "restaurants"
    = subscript (mock_restaurant_search destination') "restaurants" ∧
  subscript (mock_restaurant_search destination) "destination" = Returns destination.
Proof. by split_and!. Qed.

(** ** The scenarios of the test suite *)

Example approval_yes :
  (@human_approval_agent (stub_chain (inl "unused"))
     (world_of reviewed_travel_state ["yes"] [])).1
  = Returns {[ "human_approved" := VBool true ]}.
Proof. vm_compute. reflexivity. Qed.

Example approval_no :
  (@human_approval_agent (stub_chain (inl "unused"))
     (world_of reviewed_travel_state ["no"] [])).1
  = Returns {[ "human_approved" := VBool false ]}.
Proof. vm_compute. reflexivity. Qed.

Example approval_modify_and_approve :
  (@human_approval_agent (stub_chain (inl "Revised plan with more restaurants"))
     (world_of reviewed_travel_state ["modify"; "add more restaurants"] [true])).1
  = Returns (<[ "final_plan" := VStr "Revised plan with more restaurants" ]>
             {[ "human_approved" := VBool true ]}).
Proof. vm_compute. reflexivity. Qed.

Example approval_modify_and_decline :
  (@human_approval_agent (stub_chain (inl "Revised plan with more restaurants"))
     (world_of reviewed_travel_state ["modify"; "add more restaurants"] [false])).1
  = Returns (<[ "final_plan" := VStr "Revised plan with more restaurants" ]>
             {[ "human_approved" := VBool false ]}).
Proof. vm_compute. reflexivity. Qed.

Example approval_reprompts_then_short_form :
  (@human_approval_agent (stub_chain (inl "unused"))
     (world_of reviewed_travel_state ["maybe"; ""; " Y "] [])).1
  = Returns {[ "human_approved" := VBool true ]}.
Proof. vm_compute. reflexivity. Qed.

Example workflow_compiles :
  match @create_parallelization_workflow (stub_chain (inl "Mock result")) with
  | Some _ => true
  | None => false
  end = true.
Proof. vm_compute. reflexivity. Qed.

Example workflow_trace :
  trace (execute_config (@workflow (stub_chain (inl "Mock result")))
           (world_of sample_travel_state ["yes"] []))
  = [ Invoked "flight_search"; Invoked "hotel_search"; Invoked "events_search";
      Invoked "restaurant_search"; Invoked "attractions_search";
      Invoked "social_places_search";
      Merged "flight_search"; Merged "hotel_search"; Merged "events_search";
      Merged "restaurant_search"; Merged "attractions_search";
      Merged "social_places_search";
      Invoked "consolidate"; Merged "consolidate";
      Invoked "human_approval"; Merged "human_approval" ].
Proof. vm_compute. reflexivity. Qed.

(** What a final state shows: the approval flag, the final plan, the
    destination and the analysis of each result field. *)
Definition summary (r : result (gmap string pyval))
    : option (option pyval * option pyval * option pyval * list (option pyval)) :=
  match r with
  | Returns s =>
      Some (s !! "human_approved", s !! "final_plan", s !! "destination",
            (λ gn, s !! gather_field gn ≫= λ v,
                     match subscript v "analysis" with
                     | Returns a => Some a
                     | Raises _ => None
                     end)
              <$> [Flight; Hotel; Events; Restaurant; Attractions; SocialPlaces])
  | Raises _ => None
  end.

Example workflow_end_to_end_yes :
  summary (execute (@workflow (stub_chain (inl "Mock result")))
             (world_of sample_travel_state ["yes"] []))
  = Some (Some (VBool true), Some (VStr "Mock result"), Some (VStr "Barcelona"),
          [ Some (VStr "Mock result"); Some (VStr "Mock result");
            Some (VStr "Mock result"); Some (VStr "Mock result");
            Some (VStr "Mock result"); Some (VStr "Mock result") ]).
Proof. vm_compute. reflexivity. Qed.

Example workflow_end_to_end_no :
  summary (execute (@workflow (stub_chain (inl "Mock result")))
             (world_of sample_travel_state ["no"] []))
  = Some (Some (VBool false), Some (VStr "Mock result"), Some (VStr "Barcelona"),
          [ Some (VStr "Mock result"); Some (VStr "Mock result");
            Some (VStr "Mock result"); Some (VStr "Mock result");
            Some (VStr "Mock result"); Some (VStr "Mock result") ]).
Proof. vm_compute. reflexivity. Qed.

Example workflow_generation_failure :
  execute (@workflow (stub_chain (inr "provider unavailable")))
    (world_of sample_travel_state ["yes"] [])
  = Raises (GenerationError "provider unavailable") ∧
  trace (execute_config (@workflow (stub_chain (inr "provider unavailable")))
           (world_of sample_travel_state ["yes"] []))
  = [ Invoked "flight_search";
      Failed "flight_search" (GenerationError "provider unavailable") ].
Proof. split; vm_compute; reflexivity. Qed.

Example interleaved_run_trace :
  trace interleaved_run
  = [ Invoked "hotel_search"; Invoked "flight_search"; Merged "hotel_search";
      Invoked "events_search"; Invoked "social_places_search";
      Invoked "restaurant_search"; Merged "social_places_search";
      Invoked "attractions_search"; Merged "flight_search";
      Merged "attractions_search"; Merged "events_search";
      Merged "restaurant_search";
      Invoked "consolidate"; Merged "consolidate";
      Invoked "human_approval"; Merged "human_approval" ].
Proof. vm_compute. reflexivity. Qed.

Example consolidate_too_early :
  run (@workflow (stub_chain (inl "Mock result")))
      [Invoke "flight_search"; Merge "flight_search"; Invoke "consolidate"]
      (initial (world_of sample_travel_state ["yes"] []))
  = None.
Proof. vm_compute. reflexivity. Qed.

(** * More of the code *)

(** ** What a gather node reads, and what it shows the model *)

(** The first key of [keys] that the state does not hold. *)
Fixpoint first_missing (s : gmap string pyval) (keys : list string) : option string :=
  match keys with
  | [] => None
  | k :: rest =>
      match s !! k with
      | None => Some k
      | Some _ => first_missing s rest
      end
  end.

(** The request keys that a gather node looks up, in the order of its first
    lookups: [events_agent] never looks up [budget] and [restaurant_agent]
    never looks up [dates]. *)
Definition gather_reads (g : gather) : list string :=
  match g with
  | Events => ["destination"; "dates"]
  | Restaurant => ["destination"; "budget"]
  | _ => ["destination"; "dates"; "budget"]
  end.

Section gather_calls.
Context `{Externals}.

(** The search result that a gather node stores under [data], for the
    values of the request keys. *)
Definition gather_data (g : gather) (d t b : pyval) : pyval :=
  match g with
  | Flight => mock_flight_search d t b
  | Hotel => mock_hotel_search d t b
  | Events => mock_events_search d t
  | Restaurant => mock_restaurant_search d
  | Attractions | SocialPlaces => VDict [("llm_generated", VBool true)]
  end.

(** The call of the chain that a gather node makes, for the values of the
    request keys. *)
Definition gather_call (g : gather) (d t b : pyval) : llm_call :=
  match g with
  | Flight =>
      LlmCall flight_prompt
        [("destination", d); ("dates", t); ("budget", b);
         ("results", VStr (json_dumps (gather_data Flight d t b)))]
  | Hotel =>
      LlmCall hotel_prompt
        [("destination", d); ("dates", t); ("budget", b);
         ("results", VStr (json_dumps (gather_data Hotel d t b)))]
  | Events =>
      LlmCall events_prompt
        [("destination", d); ("dates", t);
         ("results", VStr (json_dumps (gather_data Events d t b)))]
  | Restaurant =>
      LlmCall restaurant_prompt
        [("destination", d); ("budget", b);
         ("results", VStr (json_dumps (gather_data Restaurant d t b)))]
  | Attractions =>
      LlmCall attractions_prompt [("destination", d); ("dates", t); ("budget", b)]
  | SocialPlaces =>
      LlmCall social_places_prompt [("destination", d); ("dates", t); ("budget", b)]
  end.

(** The value under a request key, for a key that the node does not read
    any value will do. *)
Definition request_value (s : gmap string pyval) (k : string) : pyval :=
  default (VStr "") (s !! k).

Lemma state_get_request_value w k :
  is_Some (state_obj w !! k) →
  state_get k w = (Returns (request_value (state_obj w) k), w).
Proof. intros [v Hk]. unfold request_value. rewrite Hk. by apply state_get_Some. Qed.

Ltac run_request_reads :=
  repeat (erewrite bind_Returns by (apply state_get_request_value; assumption)).

(** A gather node that finds the keys it reads makes the call [gather_call]
    and returns the patch of [gather_data] with the answer. *)
Lemma gather_agent_call g w :
  (∀ k, k ∈ gather_reads g → is_Some (state_obj w !! k)) →
  let d := request_value (state_obj w) "destination" in
  let t := request_value (state_obj w) "dates" in
  let b := request_value (state_obj w) "budget" in
  gather_agent g w =
    (match chain_invoke (length (llm_log w)) (call_prompt (gather_call g d t b))
             (call_vars (gather_call g d t b)) with
     | inl a => Returns (gather_patch g (gather_data g d t b) a)
     | inr msg => Raises (GenerationError msg)
     end, logged (gather_call g d t b) w).
Proof.
  intros Hreads d t b.
  assert (∀ k, k ∈ gather_reads g → state_get k w
            = (Returns (request_value (state_obj w) k), w)) as Hget.
  { intros k Hk. by apply state_get_request_value, Hreads. }
  destruct g; cbn [gather_reads] in Hget;
    pose proof (Hget "destination" ltac:(set_unfold; tauto)) as Hd;
    try pose proof (Hget "dates" ltac:(set_unfold; tauto)) as Ht;
    try pose proof (Hget "budget" ltac:(set_unfold; tauto)) as Hb;
    cbn [gather_agent gather_call gather_data call_prompt call_vars];
    unfold flight_agent, hotel_agent, events_agent, restaurant_agent,
      attractions_agent, social_places_agent;
    repeat (erewrite bind_Returns by eassumption);
    unfold mbind, M_bind, bind; rewrite invoke_eq;
    by destruct (chain_invoke _ _ _).
Qed.

Lemma first_missing_None s keys :
  first_missing s keys = None ↔ ∀ k, k ∈ keys → is_Some (s !! k).
Proof.
  induction keys as [|k keys IH]; cbn.
  - split; [|done]. intros _ k Hk. by apply elem_of_nil in Hk.
  - destruct (s !! k) as [v|] eqn:Hk.
    + rewrite IH. split.
      * intros Hall k' [->|Hin]%elem_of_cons; [by rewrite Hk|by apply Hall].
      * intros Hall k' Hin. apply Hall. by right.
    + split; [done|]. intros Hall. destruct (Hall k) as [v Hv]; [by left|congruence].
Qed.

(** A gather node raises the [KeyError] of the first key that it reads and
    does not find, or makes its call. *)
Lemma gather_agent_reads_cases (g : gather) (w : world) :
  match first_missing (state_obj w) (gather_reads g) with
  | Some k => gather_agent g w = (Raises (KeyError k), w)
  | None =>
      (gather_agent g w).2
        = logged (gather_call g (request_value (state_obj w) "destination")
                    (request_value (state_obj w) "dates")
                    (request_value (state_obj w) "budget")) w
  end.
Proof.
  destruct (first_missing (state_obj w) (gather_reads g)) as [k|] eqn:Hmiss.
  - destruct g; cbn [gather_reads first_missing] in Hmiss;
      cbn [gather_agent];
      unfold flight_agent, hotel_agent, events_agent, restaurant_agent,
        attractions_agent, social_places_agent;
      repeat match type of Hmiss with
             | context [state_obj w !! ?key] =>
                 let Hk := fresh "Hk" in
                 destruct (state_obj w !! key) as [?|] eqn:Hk;
                 [repeat (erewrite bind_Returns by (apply state_get_Some; eassumption))
                 |injection Hmiss as <-;
                  by erewrite bind_Raises by (by apply state_get_None)]
             end; done.
  - pose proof (proj1 (first_missing_None _ _) Hmiss) as Hall.
    by rewrite (gather_agent_call g w Hall).
Qed.

(** X1: a gather node fails with the [KeyError] of the first request key
    that it reads and the state does not hold, before any call of the chain
    and leaving everything as it was; when the state holds every key that
    the node reads, the node makes its call.  [events_agent] does not need
    [budget] and [restaurant_agent] does not need [dates]. *)
Theorem gather_agent_missing_key (g : gather) (w : world) :
  match first_missing (state_obj w) (gather_reads g) with
  | Some k => gather_agent g w = (Raises (KeyError k), w)
  | None =>
      (gather_agent g w).2
        = logged (gather_call g (request_value (state_obj w) "destination")
                    (request_value (state_obj w) "dates")
                    (request_value (state_obj w) "budget")) w
  end.
Proof. apply gather_agent_reads_cases. Qed.

Lemma first_missing_agree s s' keys :
  (∀ k, k ∈ keys → s !! k = s' !! k) →
  first_missing s keys = first_missing s' keys ∧
  ∀ k, k ∈ keys → request_value s k = request_value s' k.
Proof.
  intros Hagree. split.
  - induction keys as [|k keys IH]; [done|]. cbn.
    rewrite <- (Hagree k) by (by left). destruct (s !! k); [|done].
    apply IH. intros k' Hk'. apply Hagree. by right.
  - intros k Hk. unfold request_value. by rewrite Hagree.
Qed.

Lemma gather_call_reads g d t b d' t' b' :
  ("destination" ∈ gather_reads g → d = d') →
  ("dates" ∈ gather_reads g → t = t') →
  ("budget" ∈ gather_reads g → b = b') →
  gather_call g d t b = gather_call g d' t' b' ∧
  gather_data g d t b = gather_data g d' t' b'.
Proof.
  intros Hd Ht Hb.
  destruct g; cbn [gather_reads] in *;
    rewrite ?Hd, ?Ht, ?Hb by (set_unfold; tauto); done.
Qed.

(** X2: a gather node depends on the state through the request keys that
    it reads only: on two states that agree on these keys (whatever the
    other fields hold, the results of the other nodes among them) it
    returns the same patch or raises the same exception, and makes the same
    call of the chain. *)
Theorem gather_agent_reads_only (g : gather) (w w' : world) :
  (∀ k, k ∈ gather_reads g → state_obj w !! k = state_obj w' !! k) →
  length (llm_log w) = length (llm_log w') →
  (gather_agent g w).1 = (gather_agent g w').1 ∧
  drop (length (llm_log w)) (llm_log (gather_agent g w).2)
    = drop (length (llm_log w')) (llm_log (gather_agent g w').2).
Proof.
  intros Hagree Hlen.
  destruct (first_missing_agree _ _ _ Hagree) as [Hmiss Hvalues].
  pose proof (gather_agent_reads_cases g w) as Hw.
  pose proof (gather_agent_reads_cases g w') as Hw'.
  rewrite <- Hmiss in Hw'.
  destruct (first_missing (state_obj w) (gather_reads g)) as [k|] eqn:Hfirst.
  - rewrite Hw, Hw'. cbn [fst snd]. by rewrite !drop_all.
  - pose proof (proj1 (first_missing_None _ _) Hfirst) as Hall.
    assert (∀ k, k ∈ gather_reads g → is_Some (state_obj w' !! k)) as Hall'.
    { intros k Hk. rewrite <- Hagree by done. by apply Hall. }
    rewrite (gather_agent_call g w Hall), (gather_agent_call g w' Hall').
    destruct (gather_call_reads g
                (request_value (state_obj w) "destination")
                (request_value (state_obj w) "dates")
                (request_value (state_obj w) "budget")
                (request_value (state_obj w') "destination")
                (request_value (state_obj w') "dates")
                (request_value (state_obj w') "budget")) as [-> ->];
      [by apply Hvalues..|].
    cbn [fst snd logged llm_log]. rewrite Hlen. split; [done|].
    by rewrite <- Hlen at 1; rewrite !drop_app_length.
Qed.

(** X3: when a gather node returns its patch it has made one call of the
    chain; every request variable of that call is the value that the state
    holds under that key; a node with a search provider stores under [data]
    the search result for the destination of the state and has shown the
    chain exactly its serialization as [results]; the two nodes without a
    provider store the marker [{llm_generated: True}] and send no
    [results]. *)
Theorem gather_agent_shows_what_it_stores (g : gather) (w : world)
    (p : gmap string pyval) :
  (gather_agent g w).1 = Returns p →
  ∃ call data a,
    llm_log (gather_agent g w).2 = llm_log w ++ [call] ∧
    p = gather_patch g data a ∧
    (∀ k v, dict_get k (call_vars call) = Some v →
            k = "results" ∨ state_obj w !! k = Some v) ∧
    match g with
    | Attractions | SocialPlaces =>
        data = VDict [("llm_generated", VBool true)] ∧
        dict_get "results" (call_vars call) = None
    | _ =>
        dict_get "results" (call_vars call) = Some (VStr (json_dumps data)) ∧
        ∃ d, state_obj w !! "destination" = Some d ∧
             subscript data "destination" = Returns d
    end.
Proof.
  intros Hret. pose proof (gather_agent_reads_cases g w) as Hw.
  destruct (first_missing (state_obj w) (gather_reads g)) as [k|] eqn:Hfirst;
    [by rewrite Hw in Hret|].
  pose proof (proj1 (first_missing_None _ _) Hfirst) as Hall.
  rewrite (gather_agent_call g w Hall) in Hret |- *. cbn [fst snd] in Hret |- *.
  destruct (chain_invoke _ _ _) as [a|msg]; [|done]. injection Hret as <-.
  set (d := request_value (state_obj w) "destination").
  set (t := request_value (state_obj w) "dates").
  set (b := request_value (state_obj w) "budget").
  exists (gather_call g d t b), (gather_data g d t b), a.
  assert (∀ k, k ∈ gather_reads g → state_obj w !! k = Some (request_value (state_obj w) k))
    as Hvalue.
  { intros k [v Hv]%Hall. unfold request_value. by rewrite Hv. }
  split_and!; [done..| |].
  - intros k v.
    destruct g; cbn [gather_call call_vars dict_get gather_reads] in *;
      repeat case_decide; subst; try done;
      intros [= <-]; first [by left | right; apply Hvalue; set_unfold; tauto].
  - destruct g; cbn [gather_call gather_data call_vars gather_reads] in *;
      try (split; [reflexivity|exists d; split; [apply Hvalue; set_unfold; tauto|reflexivity]]);
      by split.
Qed.

End gather_calls.

Lemma gather_agent_reads_only_witness :
  let E := stub_chain (inl "Events analysis") in
  let w := world_of sample_travel_state [] [] in
  let w' := world_of (<[ "budget" := VStr "$1" ]> complete_travel_state) [] [] in
  (@gather_agent E Events w).1 = (@gather_agent E Events w').1 ∧
  drop (length (llm_log w)) (llm_log (@gather_agent E Events w).2)
    = drop (length (llm_log w')) (llm_log (@gather_agent E Events w').2).
Proof.
  intros E w w'. apply (@gather_agent_reads_only E Events w w'); [|reflexivity].
  intros k Hk. cbn [gather_reads] in Hk.
  apply elem_of_cons in Hk as [->|Hk]; [vm_compute; reflexivity|].
  apply elem_of_cons in Hk as [->|Hk]; [vm_compute; reflexivity|].
  by apply elem_of_nil in Hk.
Defined.

Lemma gather_agent_shows_what_it_stores_witness :
  let E := stub_chain (inl "Restaurant analysis") in
  let w := world_of (delete "dates" sample_travel_state) [] [] in
  ∃ call data a,
    llm_log (@gather_agent E Restaurant w).2 = llm_log w ++ [call] ∧
    gather_patch Restaurant (mock_restaurant_search (VStr "Barcelona")) "Restaurant analysis"
      = gather_patch Restaurant data a ∧
    (∀ k v, dict_get k (call_vars call) = Some v →
            k = "results" ∨ state_obj w !! k = Some v) ∧
    dict_get "results" (call_vars call) = Some (VStr (@json_dumps E data)) ∧
    ∃ d, state_obj w !! "destination" = Some d ∧
         subscript data "destination" = Returns d.
Proof.
  intros E w.
  apply (@gather_agent_shows_what_it_stores E Restaurant w
           (gather_patch Restaurant (mock_restaurant_search (VStr "Barcelona"))
              "Restaurant analysis")).
  vm_compute. reflexivity.
Defined.

(** ** What the consolidation node reads *)

(** [state[k]] as a value or the [KeyError]. *)
Definition state_lookup (s : gmap string pyval) (k : string) : result pyval :=
  match s !! k with
  | Some v => Returns v
  | None => Raises (KeyError k)
  end.

(** [state[field]["analysis"]] as a value or the exception of the lookup
    that fails. *)
Definition analysis_entry (s : gmap string pyval) (field : string) : result pyval :=
  match s !! field with
  | Some r => subscript r "analysis"
  | None => Raises (KeyError field)
  end.

(** The nine lookups of [consolidate_plan], in the order in which the dict
    display evaluates them, each under the name of its variable. *)
Definition consolidation_reads (s : gmap string pyval) : list (string * result pyval) :=
  [ ("destination", state_lookup s "destination");
    ("dates", state_lookup s "dates");
    ("budget", state_lookup s "budget");
    ("flights", analysis_entry s "flight_results");
    ("hotels", analysis_entry s "hotel_results");
    ("events", analysis_entry s "events_results");
    ("restaurants", analysis_entry s "restaurant_results");
    ("attractions", analysis_entry s "attractions_results");
    ("social_places", analysis_entry s "social_places_results") ].

(** The values of lookups that all succeed, or the first exception. *)
Fixpoint collect_reads (reads : list (string * result pyval))
    : result (list (string * pyval)) :=
  match reads with
  | [] => Returns []
  | (k, Returns v) :: rest =>
      match collect_reads rest with
      | Returns vars => Returns ((k, v) :: vars)
      | Raises e => Raises e
      end
  | (_, Raises e) :: _ => Raises e
  end.

Lemma state_get_lookup w k : state_get k w = (state_lookup (state_obj w) k, w).
Proof. unfold state_get, state_lookup. by destruct (state_obj w !! k). Qed.

Lemma state_get_analysis_entry w field :
  state_get_analysis field w = (analysis_entry (state_obj w) field, w).
Proof.
  unfold state_get_analysis, analysis_entry, mbind, M_bind, bind, state_get, lift.
  by destruct (state_obj w !! field).
Qed.

Lemma bind_result {A B} (m : M A) (f : A → M B) w r :
  m w = (r, w) →
  (m ≫= f) w = match r with Returns a => f a w | Raises e => (Raises e, w) end.
Proof. intros Hm. unfold mbind, M_bind, bind. rewrite Hm. by destruct r. Qed.

Lemma collect_reads_first_error pre k e post :
  Forall (λ r, ∃ v, r.2 = Returns v) pre →
  collect_reads (pre ++ (k, Raises e) :: post) = Raises e.
Proof.
  induction 1 as [|[k' r] pre [v Hv] _ IH]; [done|].
  cbn in Hv. subst r. cbn. by rewrite IH.
Qed.

Section consolidation_reads.
Context `{Externals}.

(** [consolidate_plan] raises the first exception of its lookups, or calls
    the chain with their values. *)
Lemma consolidate_plan_reads w :
  consolidate_plan w =
    match collect_reads (consolidation_reads (state_obj w)) with
    | Raises e => (Raises e, w)
    | Returns vars =>
        (match chain_invoke (length (llm_log w)) consolidation_prompt vars with
         | inl plan => Returns {[ "final_plan" := VStr plan ]}
         | inr msg => Raises (GenerationError msg)
         end, logged (LlmCall consolidation_prompt vars) w)
    end.
Proof.
  unfold consolidate_plan, consolidation_reads. cbn [collect_reads].
  do 3 (erewrite bind_result by apply state_get_lookup;
        match goal with
        | |- context [state_lookup ?s ?k] => destruct (state_lookup s k); [|done]
        end).
  do 6 (erewrite bind_result by apply state_get_analysis_entry;
        match goal with
        | |- context [analysis_entry ?s ?k] => destruct (analysis_entry s k); [|done]
        end).
  unfold mbind, M_bind, bind. rewrite invoke_eq. by destruct (chain_invoke _ _ _).
Qed.

(** X4: [consolidate_plan] fails with the exception of the first of its
    nine lookups that fails, in the order [destination], [dates], [budget],
    then the [analysis] of the flight, hotel, events, restaurant,
    attractions and social places results; it does so before any call of
    the chain and leaves everything as it was.  A missing key or entry is a
    [KeyError], a result field that is not a dict is a [TypeError]. *)
Theorem consolidate_plan_first_error (w : world) (pre post : list (string * result pyval))
    (k : string) (e : exn) :
  consolidation_reads (state_obj w) = pre ++ (k, Raises e) :: post →
  Forall (λ r, ∃ v, r.2 = Returns v) pre →
  consolidate_plan w = (Raises e, w).
Proof.
  intros Hreads Hpre.
  by rewrite consolidate_plan_reads, Hreads, collect_reads_first_error.
Qed.

(** X5: [consolidate_plan] depends on the state through the three request
    fields and the six [analysis] entries only: on two states that agree on
    them (whatever the [data] entries, [final_plan] and [human_approved]
    are) it returns the same patch or raises the same exception, and makes
    the same call of the chain. *)
Theorem consolidate_plan_reads_only (w w' : world) :
  (∀ k, k ∈ request_fields → state_obj w !! k = state_obj w' !! k) →
  (∀ g, analysis_entry (state_obj w) (gather_field g)
        = analysis_entry (state_obj w') (gather_field g)) →
  length (llm_log w) = length (llm_log w') →
  (consolidate_plan w).1 = (consolidate_plan w').1 ∧
  drop (length (llm_log w)) (llm_log (consolidate_plan w).2)
    = drop (length (llm_log w')) (llm_log (consolidate_plan w').2).
Proof.
  intros Hreq Hres Hlen.
  assert (consolidation_reads (state_obj w) = consolidation_reads (state_obj w')) as Hreads.
  { unfold consolidation_reads, state_lookup.
    rewrite !Hreq by (unfold request_fields; set_unfold; tauto).
    pose proof (Hres Flight) as H1. pose proof (Hres Hotel) as H2.
    pose proof (Hres Events) as H3. pose proof (Hres Restaurant) as H4.
    pose proof (Hres Attractions) as H5. pose proof (Hres SocialPlaces) as H6.
    cbn [gather_field] in *. by rewrite H1, H2, H3, H4, H5, H6. }
  rewrite !consolidate_plan_reads, Hreads.
  destruct (collect_reads _) as [vars|e]; cbn [fst snd logged llm_log].
  - rewrite Hlen. split; [done|].
    by rewrite <- Hlen at 1; rewrite !drop_app_length.
  - by rewrite !drop_all.
Qed.

(** X6: when all nine lookups succeed and the call of the chain fails,
    [consolidate_plan] raises the failure as it is, after that single call:
    there is no second attempt and no [final_plan]. *)
Theorem consolidate_plan_generation_failure (w : world) (vars : list (string * pyval))
    (msg : string) :
  collect_reads (consolidation_reads (state_obj w)) = Returns vars →
  chain_invoke (length (llm_log w)) consolidation_prompt vars = inr msg →
  consolidate_plan w
    = (Raises (GenerationError msg), logged (LlmCall consolidation_prompt vars) w).
Proof. intros Hreads Hfail. by rewrite consolidate_plan_reads, Hreads, Hfail. Qed.

End consolidation_reads.

Lemma consolidate_plan_first_error_witness :
  let E := stub_chain (inl "Final plan") in
  let w := world_of (<[ "hotel_results" := VList [] ]> complete_travel_state) [] [] in
  @consolidate_plan E w = (Raises TypeError, w).
Proof.
  intros E w.
  apply (@consolidate_plan_first_error E w
           [ ("destination", Returns (VStr "Barcelona"));
             ("dates", Returns (VStr "March 15-20, 2024"));
             ("budget", Returns (VStr "$2000"));
             ("flights", Returns (VStr "Flight analysis")) ]
           [ ("events", Returns (VStr "Events analysis"));
             ("restaurants", Returns (VStr "Restaurant analysis"));
             ("attractions", Returns (VStr "Attractions analysis"));
             ("social_places", Returns (VStr "Social places analysis")) ]
           "hotels" TypeError).
  - vm_compute. reflexivity.
  - repeat (apply Forall_cons_2; [by eexists|]). apply Forall_nil_2.
Defined.

Lemma consolidate_plan_reads_only_witness :
  let E := stub_chain (inl "Final plan") in
  let w := world_of complete_travel_state [] [] in
  let w' := world_of
    (<[ "flight_results" := VDict [("analysis", VStr "Flight analysis")] ]>
       (<[ "final_plan" := VStr "an older plan" ]> complete_travel_state)) [] [] in
  (@consolidate_plan E w).1 = (@consolidate_plan E w').1 ∧
  drop (length (llm_log w)) (llm_log (@consolidate_plan E w).2)
    = drop (length (llm_log w')) (llm_log (@consolidate_plan E w').2).
Proof.
  intros E w w'. apply (@consolidate_plan_reads_only E w w'); [| |reflexivity].
  - intros k Hk. unfold request_fields in Hk.
    repeat (apply elem_of_cons in Hk as [->|Hk]; [vm_compute; reflexivity|]).
    by apply elem_of_nil in Hk.
  - intros g. destruct g; vm_compute; reflexivity.
Defined.

Lemma consolidate_plan_generation_failure_witness :
  let E := stub_chain (inr "rate limit") in
  let w := world_of complete_travel_state [] [] in
  @consolidate_plan E w
    = (Raises (GenerationError "rate limit"),
       logged (LlmCall consolidation_prompt
                 (consolidation_vars "Barcelona" "March 15-20, 2024" "$2000"
                    complete_analysis)) w).
Proof.
  intros E w.
  apply (@consolidate_plan_generation_failure E w
           (consolidation_vars "Barcelona" "March 15-20, 2024" "$2000" complete_analysis)
           "rate limit"); vm_compute; reflexivity.
Defined.

(** ** The outcomes of the approval node *)

Section approval_outcomes.
Context `{Externals}.

(** What a round of the approval loop can return: the flag alone, with no
    call of the chain and no confirmation asked, or the plan that the chain
    has revised from the plan of the state and the stripped feedback,
    together with the flag that was confirmed. *)
Definition approval_outcome (w : world) (p : gmap string pyval) (w' : world) : Prop :=
  (∃ flag : bool,
     p = {[ "human_approved" := VBool flag ]} ∧
     llm_log w' = llm_log w ∧ confirm_answers w' = confirm_answers w) ∨
  (∃ plan fb revised ok,
     p = <[ "final_plan" := VStr revised ]> {[ "human_approved" := VBool ok ]} ∧
     state_obj w !! "final_plan" = Some plan ∧
     fb ∈ prompt_answers w ∧
     chain_invoke (length (llm_log w)) modification_prompt (modification_vars plan fb)
       = inl revised ∧
     llm_log w' = llm_log w ++ [LlmCall modification_prompt (modification_vars plan fb)] ∧
     confirm_answers w = ok :: confirm_answers w').

Lemma approval_loop_outcome fuel w p w' :
  approval_loop fuel w = (Returns p, w') → approval_outcome w p w'.
Proof.
  revert w. induction fuel as [|fuel IH]; intros w Hrun; [done|].
  destruct (prompt_answers w) as [|a rest] eqn:Hw.
  { cbn [approval_loop] in Hrun.
    by erewrite bind_Raises in Hrun by (by apply prompt_ask_nil). }
  destruct (decide (decision a ∈ ["yes"; "y"])) as [Hyes|Hnyes].
  { erewrite approval_loop_yes in Hrun by done. injection Hrun as <- <-.
    left. by exists true. }
  destruct (decide (decision a ∈ ["no"; "n"])) as [Hno|Hnno].
  { erewrite approval_loop_no in Hrun by done. injection Hrun as <- <-.
    left. by exists false. }
  destruct (decide (decision a ∈ ["modify"; "m"])) as [Hmod|Hnmod].
  2:{ erewrite approval_loop_invalid in Hrun
        by (done || unfold valid_decision; set_unfold; tauto).
      destruct (IH _ Hrun) as [(flag & ? & ? & ?)|(plan & fb & revised & ok & Hp & ? & Hfb & ? & ? & ?)].
      - left. by exists flag.
      - right. exists plan, fb, revised, ok. split_and!; try done.
        rewrite Hw. by right. }
  right.
  destruct rest as [|fb rest].
  { cbn [approval_loop] in Hrun.
    erewrite bind_Returns in Hrun by (by apply prompt_ask_cons).
    fold (decision a) in Hrun.
    rewrite (bool_decide_eq_false_2 (decision a ∈ ["yes"; "y"])) in Hrun by done.
    rewrite (bool_decide_eq_false_2 (decision a ∈ ["no"; "n"])) in Hrun by done.
    rewrite bool_decide_eq_true_2 in Hrun by done.
    erewrite bind_Returns in Hrun by constant_renders.
    by erewrite bind_Raises in Hrun by (by apply prompt_ask_nil). }
  destruct (state_obj w !! "final_plan") as [plan|] eqn:Hplan.
  2:{ cbn [approval_loop] in Hrun.
      erewrite bind_Returns in Hrun by (by apply prompt_ask_cons).
      fold (decision a) in Hrun.
      rewrite (bool_decide_eq_false_2 (decision a ∈ ["yes"; "y"])) in Hrun by done.
      rewrite (bool_decide_eq_false_2 (decision a ∈ ["no"; "n"])) in Hrun by done.
      rewrite bool_decide_eq_true_2 in Hrun by done.
      erewrite bind_Returns in Hrun by constant_renders.
      erewrite bind_Returns in Hrun by (by apply prompt_ask_cons).
      by erewrite bind_Raises in Hrun by (by apply state_get_None). }
  destruct (chain_invoke (length (llm_log w)) modification_prompt (modification_vars plan fb))
    as [revised|msg] eqn:Hgen.
  2:{ cbn [approval_loop] in Hrun.
      erewrite bind_Returns in Hrun by (by apply prompt_ask_cons).
      fold (decision a) in Hrun.
      rewrite (bool_decide_eq_false_2 (decision a ∈ ["yes"; "y"])) in Hrun by done.
      rewrite (bool_decide_eq_false_2 (decision a ∈ ["no"; "n"])) in Hrun by done.
      rewrite bool_decide_eq_true_2 in Hrun by done.
      erewrite bind_Returns in Hrun by constant_renders.
      erewrite bind_Returns in Hrun by (by apply prompt_ask_cons).
      erewrite bind_Returns in Hrun by (by apply state_get_Some).
      erewrite bind_Raises in Hrun; [done|].
      rewrite invoke_eq. cbn [printed with_answers llm_log].
      fold (modification_vars plan fb). by rewrite Hgen. }
  destruct (confirm_answers w) as [|ok oks] eqn:Hok.
  { cbn [approval_loop] in Hrun.
    erewrite bind_Returns in Hrun by (by apply prompt_ask_cons).
    fold (decision a) in Hrun.
    rewrite (bool_decide_eq_false_2 (decision a ∈ ["yes"; "y"])) in Hrun by done.
    rewrite (bool_decide_eq_false_2 (decision a ∈ ["no"; "n"])) in Hrun by done.
    rewrite bool_decide_eq_true_2 in Hrun by done.
    erewrite bind_Returns in Hrun by constant_renders.
    erewrite bind_Returns in Hrun by (by apply prompt_ask_cons).
    erewrite bind_Returns in Hrun by (by apply state_get_Some).
    erewrite bind_Returns in Hrun.
    2:{ rewrite invoke_eq. cbn [printed with_answers llm_log].
        fold (modification_vars plan fb). by rewrite Hgen. }
    do 2 (erewrite bind_Returns in Hrun by constant_renders).
    erewrite bind_Returns in Hrun by reflexivity.
    erewrite bind_Returns in Hrun by constant_renders.
    erewrite bind_Raises in Hrun; [done|].
    unfold confirm_ask. cbn [printed logged with_answers confirm_answers]. by rewrite Hok. }
  erewrite approval_loop_modify in Hrun by done. clear IH.
  injection Hrun as <- <-.
  exists plan, fb, revised, ok. cbn [llm_log confirm_answers]. rewrite ?Hw, ?Hok.
  split_and!; try done. right. by left.
Qed.

(** X7: every patch that [human_approval_agent] returns is of one of two
    kinds.  Either it is [{human_approved: flag}] alone, and then the chain
    was not called and no confirmation was asked; or it is
    [{final_plan: revised, human_approved: ok}], and then [revised] is what
    the chain answered, in a single call, to the modification prompt with
    the [final_plan] of the state and a stripped answer of the user, and
    [ok] is the confirmation that was read.  The node never writes a
    [final_plan] that the chain did not produce. *)
Theorem human_approval_outcomes (w : world) (p : gmap string pyval) :
  (human_approval_agent w).1 = Returns p →
  approval_outcome w p (human_approval_agent w).2.
Proof.
  rewrite human_approval_agent_review.
  destruct (review_outcome (state_obj w)) as [[e items]|[[[d t] b] plan]]; [done|].
  intros Hret.
  destruct (approval_loop _ _) as [r w'] eqn:Hrun. cbn [fst snd] in Hret |- *.
  subst r. by apply approval_loop_outcome in Hrun.
Qed.


End approval_outcomes.

Lemma human_approval_outcomes_witness :
  let E := stub_chain (inl "Revised plan") in
  let w := world_of reviewed_travel_state ["?"; "m"; " fewer museums "] [false] in
  @approval_outcome E w
    (<[ "final_plan" := VStr "Revised plan" ]> {[ "human_approved" := VBool false ]})
    (@human_approval_agent E w).2.
Proof.
  intros E w. apply (@human_approval_outcomes E w). vm_compute. reflexivity.
Defined.


Section approval_failures.
Context `{Externals}.

(** X9: how the modification path of [human_approval_agent] fails, once
    the review is on the console (the request fields being strings that the
    console takes as markup, and the plan a string).  With no answer left
    for the feedback the node raises [EOFError] and the chain is not called;
    when the call of the chain fails the node raises the failure and never
    asks for the confirmation; when the revised plan is generated and no
    confirmation can be read the node raises [EOFError] after the call, and
    the revised plan is in no patch. *)
Theorem human_approval_modify_failures (w : world) (d t b plan : string)
    (a : string) (rest : list string) :
  state_obj w !! "destination" = Some (VStr d) →
  state_obj w !! "dates" = Some (VStr t) →
  state_obj w !! "budget" = Some (VStr b) →
  state_obj w !! "final_plan" = Some (VStr plan) →
  markup_raises d = false →
  markup_raises t = false →
  markup_raises b = false →
  prompt_answers w = a :: rest →
  decision a ∈ ["modify"; "m"] →
  (rest = [] →
     (human_approval_agent w).1 = Raises EOFError ∧
     llm_log (human_approval_agent w).2 = llm_log w) ∧
  (∀ fb rest' msg,
     rest = fb :: rest' →
     chain_invoke (length (llm_log w)) modification_prompt
       (modification_vars (VStr plan) fb) = inr msg →
     (human_approval_agent w).1 = Raises (GenerationError msg) ∧
     confirm_answers (human_approval_agent w).2 = confirm_answers w ∧
     llm_log (human_approval_agent w).2
       = llm_log w ++ [LlmCall modification_prompt (modification_vars (VStr plan) fb)]) ∧
  (∀ fb rest' revised,
     rest = fb :: rest' →
     chain_invoke (length (llm_log w)) modification_prompt
       (modification_vars (VStr plan) fb) = inl revised →
     confirm_answers w = [] →
     (human_approval_agent w).1 = Raises EOFError ∧
     llm_log (human_approval_agent w).2
       = llm_log w ++ [LlmCall modification_prompt (modification_vars (VStr plan) fb)]).
Proof.
  intros Hd Ht Hb Hp Hmd Hmt Hmb Hw Hmod.
  rewrite (human_approval_agent_reviewed w d t b plan Hd Ht Hb Hp Hmd Hmt Hmb).
  assert (∀ k : () → M (gmap string pyval),
    approval_loop (S (length (prompt_answers w))) (reviewed d t b plan w)
    = (console_print (Markup "[cyan]Please provide feedback for modifications:[/cyan]");;
       answer2 ← prompt_ask;
       let feedback := str_strip answer2 in
       original_plan ← state_get "final_plan";
       revised_plan ← invoke modification_prompt [
         ("original_plan", original_plan);
         ("feedback", VStr feedback)
       ];
       console_print (Markup nl);;
       console_print (PanelFit "[bold green]REVISED TRAVEL PLAN[/bold green]");;
       revised ← Markdown (VStr revised_plan);
       console_print (PanelMarkdown revised);;
       final_approval ← confirm_ask;
       if final_approval : bool then
         console_print (Markup "[bold green]✅ Revised travel plan approved![/bold green]");;
         mret (<[ "final_plan" := VStr revised_plan ]>
               {[ "human_approved" := VBool true ]})
       else
         console_print (Markup "[bold red]❌ Revised travel plan rejected.[/bold red]");;
         mret (<[ "final_plan" := VStr revised_plan ]>
               {[ "human_approved" := VBool false ]}))
      (with_answers rest (reviewed d t b plan w))) as Hround.
  { intros _. cbn [approval_loop].
    erewrite bind_Returns by (by apply prompt_ask_cons).
    fold (decision a).
    rewrite (bool_decide_eq_false_2 (decision a ∈ ["yes"; "y"]))
      by (set_unfold; intuition congruence).
    rewrite (bool_decide_eq_false_2 (decision a ∈ ["no"; "n"]))
      by (set_unfold; intuition congruence).
    by rewrite bool_decide_eq_true_2 by done. }
  rewrite (Hround (λ _, mret ∅)). clear Hround.
  erewrite bind_Returns by constant_renders.
  split_and!.
  - intros ->. by erewrite bind_Raises by (by apply prompt_ask_nil).
  - intros fb rest' msg -> Hgen.
    erewrite bind_Returns by (by apply prompt_ask_cons).
    erewrite bind_Returns by (by apply state_get_Some).
    erewrite bind_Raises
      by (rewrite invoke_eq; cbn [printed with_answers reviewed llm_log];
          fold (modification_vars (VStr plan) fb); by rewrite Hgen).
    by split_and!.
  - intros fb rest' revised -> Hgen Hok.
    erewrite bind_Returns by (by apply prompt_ask_cons).
    erewrite bind_Returns by (by apply state_get_Some).
    erewrite bind_Returns.
    2:{ rewrite invoke_eq. cbn [printed with_answers reviewed llm_log].
        fold (modification_vars (VStr plan) fb). by rewrite Hgen. }
    do 2 (erewrite bind_Returns by constant_renders).
    erewrite bind_Returns by reflexivity.
    erewrite bind_Returns by constant_renders.
    erewrite bind_Raises
      by (unfold confirm_ask;
          cbn [printed logged with_answers reviewed confirm_answers]; by rewrite Hok).
    by split_and!.
Qed.

End approval_failures.

Lemma human_approval_modify_failures_witness :
  let E := stub_chain (inr "timeout") in
  let w := world_of reviewed_travel_state ["Modify"; "more beaches"] [true] in
  (["more beaches"] = [] →
     (@human_approval_agent E w).1 = Raises EOFError ∧
     llm_log (@human_approval_agent E w).2 = llm_log w) ∧
  (∀ fb rest' msg,
     ["more beaches"] = fb :: rest' →
     @chain_invoke E (length (llm_log w)) modification_prompt
       (@modification_vars E (VStr "Original plan") fb) = inr msg →
     (@human_approval_agent E w).1 = Raises (GenerationError msg) ∧
     confirm_answers (@human_approval_agent E w).2 = confirm_answers w ∧
     llm_log (@human_approval_agent E w).2
       = llm_log w ++ [LlmCall modification_prompt
                         (@modification_vars E (VStr "Original plan") fb)]) ∧
  (∀ fb rest' revised,
     ["more beaches"] = fb :: rest' →
     @chain_invoke E (length (llm_log w)) modification_prompt
       (@modification_vars E (VStr "Original plan") fb) = inl revised →
     confirm_answers w = [] →
     (@human_approval_agent E w).1 = Raises EOFError ∧
     llm_log (@human_approval_agent E w).2
       = llm_log w ++ [LlmCall modification_prompt
                         (@modification_vars E (VStr "Original plan") fb)]).
Proof.
  intros E w.
  apply (@human_approval_modify_failures E w "Barcelona" "March 15-20, 2024"
           "$2000" "Original plan" "Modify" ["more beaches"]);
    vm_compute; try reflexivity.
  apply list_elem_of_here.
Defined.

Example approval_modify_generation_failure :
  (@human_approval_agent (stub_chain (inr "timeout"))
     (world_of reviewed_travel_state ["Modify"; "more beaches"] [true])).1
  = Raises (GenerationError "timeout").
Proof. vm_compute. reflexivity. Qed.

(** The review is refused: each of the three request fields is parsed as
    markup when the table is printed, and a field that is not a string is
    refused when its row is added. *)
Example approval_refuses_closing_tag :
  let E := stub_chain (inl "Revised plan") in
  (@human_approval_agent E
     (world_of (<[ "dates" := VStr "next week [/b]" ]> reviewed_travel_state) ["yes"] [])).1
    = Raises MarkupError ∧
  (@human_approval_agent E
     (world_of (<[ "destination" := VList [] ]> (delete "dates" reviewed_travel_state))
               ["yes"] [])).1
    = Raises NotRenderableError ∧
  (@human_approval_agent E
     (world_of (<[ "final_plan" := VBool true ]> reviewed_travel_state) ["yes"] [])).1
    = Raises TypeError.
Proof. intros E. split_and!; vm_compute; reflexivity. Qed.

(** ** main.py: the request typed in by the user *)

Section collect.
Context `{Externals}.

(** [while not current.strip(): current = Prompt.ask(...)]: a round asks
    once, so [fuel] rounds are enough when [fuel] is the number of answers
    that are left. *)
Fixpoint ask_until_filled (fuel : nat) (current : string) : M string :=
  if decide (str_strip current = "") then
    match fuel with
    | O => raise EOFError
    | S fuel' =>
        answer ← prompt_ask;
        ask_until_filled fuel' answer
    end
  else mret current.

Definition collect_user_travel_request : M (gmap string string) :=
  console_print (PanelFit "[bold blue]TRAVEL PLANNING REQUEST[/bold blue]");;
  console_print (Markup ("[cyan]Please provide your travel details:[/cyan]" +:+ nl));;
  first_destination ← prompt_ask;
  left_destination ← answers_left;
  destination ← ask_until_filled left_destination first_destination;
  first_dates ← prompt_ask;
  left_dates ← answers_left;
  dates ← ask_until_filled left_dates first_dates;
  first_budget ← prompt_ask;
  left_budget ← answers_left;
  budget ← ask_until_filled left_budget first_budget;
  mret (<[ "destination" := str_strip destination ]>
        (<[ "dates" := str_strip dates ]>
         {[ "budget" := str_strip budget ]})).

(** An answer that is not blank. *)
Definition filled (answer : string) : Prop := str_strip answer ≠ "".

#[global] Instance filled_dec `{Externals} answer : Decision (filled answer).
Proof. unfold filled. apply _. Defined.

(** The first answer that is not blank, with the answers after it. *)
Fixpoint first_filled (answers : list string) : option (string * list string) :=
  match answers with
  | [] => None
  | a :: rest => if decide (str_strip a = "") then first_filled rest else Some (a, rest)
  end.

Lemma first_filled_Some answers a rest :
  first_filled answers = Some (a, rest) →
  ∃ blanks, answers = blanks ++ a :: rest ∧
            Forall (λ x, ¬ filled x) blanks ∧ filled a.
Proof.
  induction answers as [|x answers IH]; [done|]. cbn.
  destruct (decide (str_strip x = "")) as [Hx|Hx].
  - intros (blanks & -> & Hblanks & Ha)%IH. exists (x :: blanks).
    split_and!; [done| |done]. constructor; [|done]. unfold filled. by intros [].
  - intros [= <- <-]. by exists [].
Qed.

Lemma first_filled_None answers :
  first_filled answers = None → Forall (λ x, ¬ filled x) answers.
Proof.
  induction answers as [|x answers IH]; [done|]. cbn.
  destruct (decide (str_strip x = "")) as [Hx|Hx]; [|done].
  intros Hnone. constructor; [|by apply IH]. unfold filled. by intros [].
Qed.

Lemma filter_filled_blanks blanks rest :
  Forall (λ x, ¬ filled x) blanks → filter filled (blanks ++ rest) = filter filled rest.
Proof.
  induction 1 as [|x blanks Hx _ IH]; [done|].
  by rewrite <- app_comm_cons, filter_cons, decide_False.
Qed.

Lemma with_answers_same w answers :
  prompt_answers w = answers → with_answers answers w = w.
Proof. intros <-. by destruct w. Qed.

Lemma ask_until_filled_run fuel current w :
  (length (prompt_answers w) ≤ fuel)%nat →
  ask_until_filled fuel current w =
    match first_filled (current :: prompt_answers w) with
    | Some (a, rest) => (Returns a, with_answers rest w)
    | None => (Raises EOFError, with_answers [] w)
    end.
Proof.
  revert current w. induction fuel as [|fuel IH]; intros current w Hfuel.
  - destruct (prompt_answers w) as [|] eqn:Hw; [|cbn in Hfuel; lia].
    cbn [ask_until_filled first_filled].
    destruct (decide (str_strip current = ""));
      by rewrite (with_answers_same w []).
  - cbn [ask_until_filled first_filled].
    destruct (decide (str_strip current = ""));
      [|by rewrite (with_answers_same w (prompt_answers w))].
    destruct (prompt_answers w) as [|a rest] eqn:Hw.
    + erewrite bind_Raises by (by apply prompt_ask_nil).
      by rewrite (with_answers_same w []).
    + erewrite bind_Returns by (by apply prompt_ask_cons).
      rewrite IH by (cbn in *; lia). cbn [with_answers prompt_answers].
      by destruct (first_filled (a :: rest)) as [[a' rest']|].
Qed.

(** One question of [collect_user_travel_request]: the first ask and the
    loop that repeats it. *)
Lemma ask_filled_run {B} (k : string → M B) w :
  (prompt_ask ≫= λ first, answers_left ≫= λ left, ask_until_filled left first ≫= k) w =
    match first_filled (prompt_answers w) with
    | Some (a, rest) => k a (with_answers rest w)
    | None => (Raises EOFError, with_answers [] w)
    end.
Proof.
  destruct (prompt_answers w) as [|a rest] eqn:Hw.
  - erewrite bind_Raises by (by apply prompt_ask_nil).
    by rewrite (with_answers_same w []).
  - erewrite bind_Returns by (by apply prompt_ask_cons).
    erewrite bind_Returns by (unfold answers_left; reflexivity).
    unfold mbind, M_bind, bind.
    rewrite ask_until_filled_run by done.
    cbn [with_answers prompt_answers].
    by destruct (first_filled (a :: rest)) as [[a' rest']|].
Qed.

(** The request for the three answers that are kept. *)
Definition travel_request_of (d t b : string) : gmap string string :=
  <[ "destination" := str_strip d ]>
  (<[ "dates" := str_strip t ]> {[ "budget" := str_strip b ]}).

Definition collect_banner : list rich :=
  [ PanelFit "[bold blue]TRAVEL PLANNING REQUEST[/bold blue]";
    Markup ("[cyan]Please provide your travel details:[/cyan]" +:+ nl) ].

(** [collect_user_travel_request] keeps the first answer that is not blank,
    three times over. *)
Lemma collect_user_travel_request_run w :
  collect_user_travel_request w =
    match first_filled (prompt_answers w) with
    | None => (Raises EOFError, with_answers [] (printed collect_banner w))
    | Some (d, rest_d) =>
        match first_filled rest_d with
        | None => (Raises EOFError, with_answers [] (printed collect_banner w))
        | Some (t, rest_t) =>
            match first_filled rest_t with
            | None => (Raises EOFError, with_answers [] (printed collect_banner w))
            | Some (b, rest_b) =>
                (Returns (travel_request_of d t b),
                 with_answers rest_b (printed collect_banner w))
            end
        end
    end.
Proof.
  unfold collect_user_travel_request.
  do 2 (erewrite bind_Returns by constant_renders). rewrite printed_printed.
  change ([PanelFit _] ++ [_]) with collect_banner.
  rewrite ask_filled_run. cbn [printed prompt_answers].
  destruct (first_filled (prompt_answers w)) as [[d rest_d]|]; [|done].
  rewrite ask_filled_run. cbn [with_answers prompt_answers].
  destruct (first_filled rest_d) as [[t rest_t]|]; [|done].
  rewrite ask_filled_run. cbn [with_answers prompt_answers].
  by destruct (first_filled rest_t) as [[b rest_b]|].
Qed.

Lemma filter_filled_first answers :
  match first_filled answers with
  | Some (a, rest) =>
      filter filled answers = a :: filter filled rest ∧
      ∃ blanks, answers = blanks ++ a :: rest ∧ filter filled blanks = [] ∧ filled a
  | None => filter filled answers = []
  end.
Proof.
  destruct (first_filled answers) as [[a rest]|] eqn:Hfirst.
  - apply first_filled_Some in Hfirst as (blanks & -> & Hblanks & Ha).
    rewrite filter_filled_blanks, filter_cons, decide_True by done.
    split; [done|]. exists blanks. split_and!; [done| |done].
    rewrite <- (app_nil_r blanks). by rewrite filter_filled_blanks.
  - apply first_filled_None in Hfirst.
    rewrite <- (app_nil_r answers). by rewrite filter_filled_blanks.
Qed.

(** X10: [collect_user_travel_request] returns the first three answers that
    are not blank, stripped, as [destination], [dates] and [budget]: blank
    answers are asked again and dropped, and nothing is read past the
    budget.  With fewer than three answers that are not blank it reads
    every answer and raises the [EOFError] of the console. *)
Theorem collect_user_travel_request_answers (w : world) :
  match filter filled (prompt_answers w) with
  | d :: t :: b :: _ =>
      (collect_user_travel_request w).1 = Returns (travel_request_of d t b) ∧
      ∃ consumed,
        prompt_answers w = consumed ++ prompt_answers (collect_user_travel_request w).2 ∧
        filter filled consumed = [d; t; b] ∧
        last consumed = Some b
  | _ =>
      (collect_user_travel_request w).1 = Raises EOFError ∧
      prompt_answers (collect_user_travel_request w).2 = []
  end.
Proof.
  rewrite collect_user_travel_request_run.
  pose proof (filter_filled_first (prompt_answers w)) as Hd.
  destruct (first_filled (prompt_answers w)) as [[d rest_d]|]; [|by rewrite Hd].
  destruct Hd as [-> (blanks_d & Hw & Hblanks_d & Hfd)].
  pose proof (filter_filled_first rest_d) as Ht.
  destruct (first_filled rest_d) as [[t rest_t]|]; [|by rewrite Ht].
  destruct Ht as [-> (blanks_t & -> & Hblanks_t & Hft)].
  pose proof (filter_filled_first rest_t) as Hb.
  destruct (first_filled rest_t) as [[b rest_b]|]; [|by rewrite Hb].
  destruct Hb as [-> (blanks_b & -> & Hblanks_b & Hfb)].
  split; [done|]. cbn [snd with_answers prompt_answers].
  exists (blanks_d ++ d :: blanks_t ++ t :: blanks_b ++ [b]). split_and!.
  - rewrite Hw. repeat first [rewrite <- app_assoc | rewrite <- app_comm_cons]. done.
  - rewrite filter_app, filter_cons, decide_True by done.
    rewrite filter_app, filter_cons, decide_True by done.
    rewrite filter_app, filter_cons, decide_True by done.
    by rewrite Hblanks_d, Hblanks_t, Hblanks_b.
  - by rewrite last_app, last_cons, last_app, last_cons, last_snoc.
Qed.

(** X11: a request that [collect_user_travel_request] returns has exactly
    the keys [destination], [dates] and [budget], and each of its values is
    a non-empty string, the stripped form of an answer that the user gave. *)
Theorem collect_user_travel_request_filled (w : world) (p : gmap string string) :
  (collect_user_travel_request w).1 = Returns p →
  dom p = {[ "destination"; "dates"; "budget" ]} ∧
  ∀ k v, p !! k = Some v →
         v ≠ "" ∧ ∃ a, a ∈ prompt_answers w ∧ v = str_strip a.
Proof.
  rewrite collect_user_travel_request_run.
  destruct (first_filled (prompt_answers w)) as [[d rest_d]|] eqn:Hd; [|done].
  destruct (first_filled rest_d) as [[t rest_t]|] eqn:Ht; [|done].
  destruct (first_filled rest_t) as [[b rest_b]|] eqn:Hb; [|done].
  intros [= <-].
  apply first_filled_Some in Hd as (blanks_d & Hw & _ & Hfd).
  apply first_filled_Some in Ht as (blanks_t & -> & _ & Hft).
  apply first_filled_Some in Hb as (blanks_b & -> & _ & Hfb).
  assert (d ∈ prompt_answers w ∧ t ∈ prompt_answers w ∧ b ∈ prompt_answers w)
    as (Hind & Hint & Hinb).
  { rewrite Hw. rewrite !elem_of_app, !elem_of_cons, !elem_of_app, !elem_of_cons,
      !elem_of_app, !elem_of_cons. tauto. }
  unfold travel_request_of. split.
  - rewrite !dom_insert_L, dom_singleton_L. set_solver.
  - intros k v. rewrite !lookup_insert. repeat case_decide.
    + intros [= <-]. eauto.
    + intros [= <-]. eauto.
    + rewrite lookup_singleton. case_decide; [|done]. intros [= <-]. eauto.
Qed.

End collect.

(** A chain that answers from a script, call after call, as a mock with
    side effects does; it fails when the script is over. *)
Definition scripted_chain (answers : list (string + string)) : Externals := {|
  json_dumps := λ _, "{}";
  str_lower := ascii_lower;
  str_strip := ascii_strip;
  chain_invoke := λ n _ _, default (inr "no answer left") (answers !! n);
  markup_error := λ _, false
|}.

Lemma collect_user_travel_request_filled_witness :
  let E := stub_chain (inl "unused") in
  let w := world_of ∅ [""; " Barcelona "; "  "; "March 15-20"; ""; "$2000"; "next"] [] in
  let p := (<[ "destination" := "Barcelona" ]>
            (<[ "dates" := "March 15-20" ]> {[ "budget" := "$2000" ]})
            : gmap string string) in
  dom p = {[ "destination"; "dates"; "budget" ]} ∧
  ∀ k v, p !! k = Some v →
         v ≠ "" ∧ ∃ a, a ∈ prompt_answers w ∧ v = @str_strip E a.
Proof.
  intros E w p. apply (@collect_user_travel_request_filled E w p).
  vm_compute. reflexivity.
Defined.

Example collect_reprompts_on_empty_input :
  let E := stub_chain (inl "unused") in
  let w := world_of ∅ [""; "Barcelona"; ""; "March 15-20"; ""; "$2000"] [] in
  (@collect_user_travel_request E w).1
    = Returns (<[ "destination" := "Barcelona" ]>
               (<[ "dates" := "March 15-20" ]> {[ "budget" := "$2000" ]})) ∧
  prompt_answers (@collect_user_travel_request E w).2 = [].
Proof. split; vm_compute; reflexivity. Qed.

(** ** The agents run one after the other

    The callers of the test suite run the six gather agents and then the
    consolidation on one state, each patch being written into the state by
    [state.update(...)] before the next agent runs. *)

(** [state.update(patch)]: the keys of the patch overwrite those of the
    state object, in place. *)
Definition state_update (patch : gmap string pyval) : M unit :=
  λ w, (Returns (), with_state (patch ∪ state_obj w) w).

Section sequential.
Context `{Externals}.

Definition run_agents_then_consolidate : M unit :=
  p_flight ← flight_agent; state_update p_flight;;
  p_hotel ← hotel_agent; state_update p_hotel;;
  p_events ← events_agent; state_update p_events;;
  p_restaurant ← restaurant_agent; state_update p_restaurant;;
  p_attractions ← attractions_agent; state_update p_attractions;;
  p_social_places ← social_places_agent; state_update p_social_places;;
  p_plan ← consolidate_plan; state_update p_plan.

(** The place of a gather agent in that order. *)
Definition gather_index (g : gather) : nat :=
  match g with
  | Flight => 0 | Hotel => 1 | Events => 2
  | Restaurant => 3 | Attractions => 4 | SocialPlaces => 5
  end.

(** One agent and the update of the state with its patch, when the agent
    finds the request fields and the chain answers. *)
Lemma gather_then_update g w d t b a (k : () → M ()) :
  state_obj w !! "destination" = Some d →
  state_obj w !! "dates" = Some t →
  state_obj w !! "budget" = Some b →
  (∀ prompt vars, chain_invoke (length (llm_log w)) prompt vars = inl a) →
  (gather_agent g ≫= λ p, state_update p ≫= k) w
    = k () (World (<[ gather_field g := VDict [("data", gather_data g d t b);
                                               ("analysis", VStr a)] ]> (state_obj w))
                  (prompt_answers w) (confirm_answers w)
                  (llm_log w ++ [gather_call g d t b]) (console_log w)).
Proof.
  intros Hd Ht Hb Hgen.
  assert (∀ k, k ∈ gather_reads g → is_Some (state_obj w !! k)) as Hreads.
  { apply first_missing_None. destruct g; cbn; by rewrite ?Hd, ?Ht, ?Hb. }
  unfold mbind, M_bind, bind. rewrite (gather_agent_call g w Hreads), Hgen.
  unfold request_value. rewrite Hd, Ht, Hb. cbn [default].
  unfold state_update, gather_patch, logged, with_state.
  cbn [state_obj prompt_answers confirm_answers llm_log console_log].
  by rewrite insert_union_singleton_l.
Qed.

(** The state after the six gather agents have written their patches. *)
Definition gathered (d t b : pyval) (a : gather → string) (s : gmap string pyval)
    : gmap string pyval :=
  foldl (λ s g, <[ gather_field g := VDict [("data", gather_data g d t b);
                                               ("analysis", VStr (a g))] ]> s)
    s [Flight; Hotel; Events; Restaurant; Attractions; SocialPlaces].

(** The variables of the consolidation call after the six gather agents. *)
Definition gathered_vars (d t b : pyval) (a : gather → string) : list (string * pyval) :=
  [ ("destination", d); ("dates", t); ("budget", b);
    ("flights", VStr (a Flight));
    ("hotels", VStr (a Hotel));
    ("events", VStr (a Events));
    ("restaurants", VStr (a Restaurant));
    ("attractions", VStr (a Attractions));
    ("social_places", VStr (a SocialPlaces)) ].

Lemma gathered_reads d t b a s :
  s !! "destination" = Some d →
  s !! "dates" = Some t →
  s !! "budget" = Some b →
  collect_reads (consolidation_reads (gathered d t b a s)) = Returns (gathered_vars d t b a).
Proof.
  intros Hd Ht Hb.
  unfold consolidation_reads, state_lookup, analysis_entry, gathered.
  cbn [foldl gather_field].
  by simplify_map_eq.
Qed.

(** X12: run one after the other on a state that holds the three request
    fields, each patch being written into the state before the next agent
    runs, with a chain that answers every call, the six gather agents and
    [consolidate_plan] make seven calls, in this order; the consolidation is
    shown the three request values and the six answers that the gather agents
    were given; and the state ends as the initial one with the six result
    fields and [final_plan] written over it. *)
Theorem run_agents_then_consolidate_feeds_plan w d t b (a : gather → string) plan :
  state_obj w !! "destination" = Some d →
  state_obj w !! "dates" = Some t →
  state_obj w !! "budget" = Some b →
  (∀ g prompt vars,
     chain_invoke (length (llm_log w) + gather_index g) prompt vars = inl (a g)) →
  (∀ prompt vars, chain_invoke (length (llm_log w) + 6) prompt vars = inl plan) →
  run_agents_then_consolidate w =
    (Returns (),
     World (<[ "final_plan" := VStr plan ]> (gathered d t b a (state_obj w)))
           (prompt_answers w) (confirm_answers w)
           (llm_log w
              ++ ((λ g, gather_call g d t b)
                    <$> [Flight; Hotel; Events; Restaurant; Attractions; SocialPlaces])
              ++ [LlmCall consolidation_prompt (gathered_vars d t b a)])
           (console_log w)).
Proof.
  intros Hd Ht Hb Hgather Hplan. unfold run_agents_then_consolidate.
  change flight_agent with (gather_agent Flight).
  change hotel_agent with (gather_agent Hotel).
  change events_agent with (gather_agent Events).
  change restaurant_agent with (gather_agent Restaurant).
  change attractions_agent with (gather_agent Attractions).
  change social_places_agent with (gather_agent SocialPlaces).
  do 6 (match goal with
        | |- context [gather_agent ?g ≫= _] =>
            rewrite (gather_then_update g _ d t b (a g));
              [ | cbn [state_obj gather_field]; by simplify_map_eq ..
                | intros prompt vars; rewrite <- (Hgather g prompt vars); f_equal;
                  cbn [llm_log gather_index]; rewrite ?length_app; cbn [length]; lia ]
        end).
  unfold mbind, M_bind, bind. rewrite consolidate_plan_reads.
  cbn [state_obj llm_log prompt_answers confirm_answers console_log].
  match goal with
  | |- context [consolidation_reads ?s] =>
      change s with (gathered d t b a (state_obj w))
  end.
  rewrite (gathered_reads d t b a _ Hd Ht Hb).
  unfold logged, state_update, with_state.
  cbn [state_obj llm_log prompt_answers confirm_answers console_log].
  repeat (rewrite length_app; cbn [length]).
  replace (length (llm_log w) + 1 + 1 + 1 + 1 + 1 + 1)%nat
    with (length (llm_log w) + 6)%nat by lia.
  rewrite Hplan. rewrite insert_union_singleton_l.
  cbn [fmap list_fmap]. repeat rewrite <- app_assoc. reflexivity.
Qed.

End sequential.

Lemma run_agents_then_consolidate_feeds_plan_witness :
  let E := scripted_chain [inl "flights"; inl "hotels"; inl "events"; inl "restaurants";
                           inl "attractions"; inl "social places"; inl "the plan"] in
  let w := world_of sample_travel_state [] [] in
  let a := λ g, match g with
                | Flight => "flights" | Hotel => "hotels" | Events => "events"
                | Restaurant => "restaurants" | Attractions => "attractions"
                | SocialPlaces => "social places"
                end in
  let d := VStr "Barcelona" in
  let t := VStr "March 15-20, 2024" in
  let b := VStr "$2000" in
  @run_agents_then_consolidate E w =
    (Returns (),
     World (<[ "final_plan" := VStr "the plan" ]> (gathered d t b a (state_obj w)))
           (prompt_answers w) (confirm_answers w)
           (llm_log w
              ++ ((λ g, @gather_call E g d t b)
                    <$> [Flight; Hotel; Events; Restaurant; Attractions; SocialPlaces])
              ++ [LlmCall consolidation_prompt (gathered_vars d t b a)])
           (console_log w)).
Proof.
  intros E w a d t b.
  apply (@run_agents_then_consolidate_feeds_plan E w d t b a "the plan").
  - vm_compute; reflexivity.
  - vm_compute; reflexivity.
  - vm_compute; reflexivity.
  - intros g prompt vars. destruct g; reflexivity.
  - intros prompt vars. reflexivity.
Defined.

(** ** models.py: the six search providers *)

(** The two providers that [parallel_agents.py] imports and no agent
    calls. *)
Definition mock_attractions_search (destination : pyval) : pyval :=
  VDict [
    ("attractions", VList [
      VDict [
        ("name", VStr "Historic City Center");
        ("type", VStr "Historical Site");
        ("description", VStr "Beautiful medieval architecture and cobblestone streets");
        ("rating", VStr "4.8/5");
        ("admission", VStr "Free");
        ("recommended_duration", VStr "2-3 hours")
      ];
      VDict [
        ("name", VStr "National Art Museum");
        ("type", VStr "Museum");
        ("description", VStr "World-class collection of contemporary and classical art");
        ("rating", VStr "4.6/5");
        ("admission", VStr "$15");
        ("recommended_duration", VStr "3-4 hours")
      ];
      VDict [
        ("name", VStr "Botanical Gardens");
        ("type", VStr "Nature");
        ("description", VStr "Stunning gardens with rare plants and peaceful walking paths");
        ("rating", VStr "4.5/5");
        ("admission", VStr "$10");
        ("recommended_duration", VStr "1-2 hours")
      ]
    ]);
    ("destination", destination)
  ].

Definition mock_social_places_search (destination : pyval) : pyval :=
  VDict [
    ("social_places", VList [
      VDict [
        ("name", VStr "Central Market Square");
        ("type", VStr "Public Space");
        ("description", VStr "Bustling marketplace where locals gather, perfect for meeting people");
        ("atmosphere", VStr "Lively and welcoming");
        ("best_time", VStr "Morning and evening");
        ("activities", VList [VStr "Shopping"; VStr "People watching"; VStr "Local food"])
      ];
      VDict [
        ("name", VStr "Community Sports Center");
        ("type", VStr "Recreation");
        ("description", VStr "Local sports clubs and fitness classes open to visitors");
        ("atmosphere", VStr "Friendly and active");
        ("best_time", VStr "Weekday evenings");
        ("activities", VList [VStr "Group fitness"; VStr "Tennis"; VStr "Swimming"])
      ];
      VDict [
        ("name", VStr "Language Exchange Café");
        ("type", VStr "Café/Social");
        ("description", VStr "Popular spot for language exchanges and meeting international travelers");
        ("atmosphere", VStr "Relaxed and international");
        ("best_time", VStr "Tuesday and Thursday evenings");
        ("activities", VList [VStr "Language practice"; VStr "Cultural exchange"; VStr "Board games"])
      ];
      VDict [
        ("name", VStr "Riverside Walking Path");
        ("type", VStr "Outdoor");
        ("description", VStr "Scenic walking path where locals jog and walk their dogs");
        ("atmosphere", VStr "Peaceful and community-oriented");
        ("best_time", VStr "Early morning and sunset");
        ("activities", VList [VStr "Walking"; VStr "Jogging"; VStr "Dog watching"])
      ]
    ]);
    ("destination", destination)
  ].

(** The provider of each domain, called as the module defines it: the
    flight and hotel searches take the three request values, the events
    search the destination and the dates, the others the destination. *)
Definition provider (g : gather) (destination dates budget : pyval) : pyval :=
  match g with
  | Flight => mock_flight_search destination dates budget
  | Hotel => mock_hotel_search destination dates budget
  | Events => mock_events_search destination dates
  | Restaurant => mock_restaurant_search destination
  | Attractions => mock_attractions_search destination
  | SocialPlaces => mock_social_places_search destination
  end.

(** The key under which a provider lists its options, and the fields of an
    option. *)
Definition options_key (g : gather) : string :=
  match g with
  | Flight => "flights"
  | Hotel => "hotels"
  | Events => "events"
  | Restaurant => "restaurants"
  | Attractions => "attractions"
  | SocialPlaces => "social_places"
  end.

Definition option_fields (g : gather) : list string :=
  match g with
  | Flight => ["airline"; "price"; "departure"; "arrival"; "duration"]
  | Hotel => ["name"; "price"; "rating"; "amenities"]
  | Events => ["name"; "date"; "price"; "category"]
  | Restaurant => ["name"; "cuisine"; "rating"; "price_range"]
  | Attractions => ["name"; "type"; "description"; "rating"; "admission";
                    "recommended_duration"]
  | SocialPlaces => ["name"; "type"; "description"; "atmosphere"; "best_time";
                     "activities"]
  end.

#[global] Instance gather_eq_dec : EqDecision gather.
Proof. solve_decision. Defined.

(** The keys of a dict display, in order. *)
Definition dict_keys (v : pyval) : option (list string) :=
  match v with
  | VDict items => Some (fst <$> items)
  | _ => None
  end.

(** X13: whatever it is asked, a search provider answers a dict of its
    options, the destination it was given under [destination] and, for the
    flight and hotel searches only, the dates under [search_dates] (the
    events search takes the dates and drops them).  The options are a
    non-empty list that does not depend on the arguments, and every option,
    not the first one alone, is a dict with the fields of its domain. *)
Theorem provider_answer_shape (g : gather) (destination dates budget : pyval) :
  dict_keys (provider g destination dates budget)
    = Some (options_key g
              :: "destination"
              :: (if bool_decide (g ∈ [Flight; Hotel]) then ["search_dates"] else [])) ∧
  subscript (provider g destination dates budget) "destination" = Returns destination ∧
  subscript (provider g destination dates budget) "search_dates"
    = (if bool_decide (g ∈ [Flight; Hotel]) then Returns dates
       else Raises (KeyError "search_dates")) ∧
  ∃ options,
    options ≠ [] ∧
    Forall (λ o, dict_keys o = Some (option_fields g)) options ∧
    ∀ destination' dates' budget',
      subscript (provider g destination' dates' budget') (options_key g)
        = Returns (VList options).
Proof.
  split_and!; [by destruct g..|].
  exists (match subscript (provider g destination dates budget) (options_key g) with
          | Returns (VList options) => options
          | _ => []
          end).
  destruct g; (split_and!; [done|by repeat constructor|done]).
Qed.

(** X14: the attractions and social places agents never store an answer of
    their search provider: what they return under [data] differs from every
    answer of [mock_attractions_search] and [mock_social_places_search], which
    are imported and not called. *)
Theorem llm_native_agents_skip_provider `{Externals} (g : gather) (w : world)
    (p : gmap string pyval) (r : pyval) :
  g ∈ [Attractions; SocialPlaces] →
  (gather_agent g w).1 = Returns p →
  p !! gather_field g = Some r →
  ∀ destination dates budget other,
    subscript r "data" ≠ Returns (provider other destination dates budget).
Proof.
  intros Hg Hret Hr destination dates budget other.
  pose proof (gather_agent_reads_cases g w) as Hcases.
  destruct (first_missing (state_obj w) (gather_reads g)) as [k|] eqn:Hmiss.
  { rewrite Hcases in Hret. done. }
  pose proof (proj1 (first_missing_None _ _) Hmiss) as Hreads.
  rewrite (gather_agent_call g w Hreads) in Hret. cbn [fst] in Hret.
  destruct (chain_invoke _ _ _) as [a|msg]; [|done].
  injection Hret as <-. unfold gather_patch in Hr.
  rewrite lookup_singleton_eq in Hr. injection Hr as <-.
  set_unfold. destruct Hg as [->|[->|[]]]; destruct other; done.
Qed.

Lemma llm_native_agents_skip_provider_witness :
  let E := stub_chain (inl "Mock result") in
  let w := world_of sample_travel_state [] [] in
  let r := VDict [("data", VDict [("llm_generated", VBool true)]);
                  ("analysis", VStr "Mock result")] in
  (@gather_agent E Attractions w).1 = Returns {[ "attractions_results" := r ]} ∧
  ∀ destination dates budget other,
    subscript r "data" ≠ Returns (provider other destination dates budget).
Proof.
  intros E w r. split; [vm_compute; reflexivity|].
  apply (@llm_native_agents_skip_provider E Attractions w
           {[ "attractions_results" := r ]} r).
  - set_unfold. by left.
  - vm_compute. reflexivity.
  - vm_compute. reflexivity.
Defined.

(** ** main.py: the request collected in a conversation *)

(** The double quote, for the templates that hold one. *)
Definition dq : string := String (Ascii.ascii_of_nat 34) "".

Definition initial_prompt : string :=
  "You are a helpful travel planning assistant. Help the user create a travel request.

        Start a friendly conversation to collect:
        - Destination (city, country)
        - Travel dates
        - Budget constraints

        Begin by asking: " +:+ dq +:+
  "I'd be happy to help you plan your trip! Where would you like to go?" +:+ dq +:+
  "
        ".

Definition context_prompt : string :=
  "You are a travel planning assistant. Based on the conversation history, help collect travel information.

            CONVERSATION HISTORY:
            {conversation_history}

            CURRENTLY COLLECTED INFO:
            Destination: {destination}
            Dates: {dates}
            Budget: {budget}

            Latest user input: " +:+ dq +:+
  "{user_input}" +:+ dq +:+
  "

            Instructions:
            1. If the user provided new information, acknowledge it and update what you know
            2. If you have ALL required info (destination, dates, budget), respond with:
               " +:+ dq +:+
  "Perfect! I have all the information I need.

               DESTINATION: [destination]
               DATES: [travel dates]
               BUDGET: [budget amount]
               COMPLETE: YES" +:+ dq +:+
  "

            3. If information is still missing, ask for the next missing piece specifically
            4. Be conversational and helpful, not repetitive
            5. Don't ask for information already provided
            ".

Definition extraction_prompt : string :=
  "Extract travel information from: " +:+ dq +:+
  "{user_input}" +:+ dq +:+
  "

            Current info: Destination=" +:+ dq +:+
  "{destination}" +:+ dq +:+
  ", Dates=" +:+ dq +:+
  "{dates}" +:+ dq +:+
  ", Budget=" +:+ dq +:+
  "{budget}" +:+ dq +:+
  "

            Return JSON with any new information found:
            {{" +:+ dq +:+
  "destination" +:+ dq +:+
  ": " +:+ dq +:+
  "value or empty" +:+ dq +:+
  ", " +:+ dq +:+
  "dates" +:+ dq +:+
  ": " +:+ dq +:+
  "value or empty" +:+ dq +:+
  ", " +:+ dq +:+
  "budget" +:+ dq +:+
  ": " +:+ dq +:+
  "value or empty" +:+ dq +:+
  "}}

            Only include fields that were mentioned in the user input. Use empty string for fields not mentioned.
            ".

(** *** The string operations of the conversation *)

Definition newline : Ascii.ascii := Ascii.ascii_of_nat 10.
Definition open_brace : Ascii.ascii := Ascii.ascii_of_nat 123.
Definition close_brace : Ascii.ascii := Ascii.ascii_of_nat 125.
Definition colon : Ascii.ascii := Ascii.ascii_of_nat 58.

(** The longest prefix of the first line of [s] that ends with a closing
    brace: what [.*\}] matches at the start of [s], the dot matching every
    character but the newline and the star being greedy. *)
Fixpoint upto_last_close (s : string) : option string :=
  match s with
  | EmptyString => None
  | String c rest =>
      if decide (c = newline) then None
      else match upto_last_close rest with
           | Some m => Some (String c m)
           | None => if decide (c = close_brace) then Some (String c EmptyString) else None
           end
  end.

(** [re.search(r'\{.*\}', s)]: the match at the leftmost position where
    there is one, [None] when there is none.  [json_match.group()] is the
    matched text. *)
Fixpoint re_search_braces (s : string) : option string :=
  match s with
  | EmptyString => None
  | String c rest =>
      if decide (c = open_brace) then
        match upto_last_close rest with
        | Some m => Some (String c m)
        | None => re_search_braces rest
        end
      else re_search_braces rest
  end.

(** [needle in hay]. *)
Fixpoint contains (needle hay : string) : bool :=
  String.prefix needle hay
  || match hay with
     | EmptyString => false
     | String _ rest => contains needle rest
     end.

(** [s.split(sep)] for a separator of one character. *)
Fixpoint split_on (sep : Ascii.ascii) (s : string) : list string :=
  match s with
  | EmptyString => [EmptyString]
  | String c rest =>
      if decide (c = sep) then EmptyString :: split_on sep rest
      else match split_on sep rest with
           | piece :: pieces => String c piece :: pieces
           | [] => [String c EmptyString]
           end
  end.

(** [s.split(sep, 1)]: split at the first separator, if any. *)
Fixpoint split_once (sep : Ascii.ascii) (s : string) : list string :=
  match s with
  | EmptyString => [EmptyString]
  | String c rest =>
      if decide (c = sep) then [EmptyString; rest]
      else match split_once sep rest with
           | piece :: pieces => String c piece :: pieces
           | [] => [String c EmptyString]
           end
  end.

(** [sep.join(pieces)]. *)
Fixpoint join (sep : string) (pieces : list string) : string :=
  match pieces with
  | [] => ""
  | [piece] => piece
  | piece :: rest => piece +:+ sep +:+ join sep rest
  end.

(** [l[-n:]] for a positive [n]. *)
Definition last_n {A} (n : nat) (l : list A) : list A := drop (length l - n) l.

(** [x or y] on strings. *)
Definition str_or (x y : string) : string := if decide (x = "") then y else x.

(** *** The JSON reader

    [json.loads] is not part of the repository.  Of the object that it
    reads the function uses the items in order; of a value, whether it is a
    string and whether it is true. *)
Inductive loaded : Type :=
  | LStr (s : string)           (* a string *)
  | LOther (truthy : bool).     (* null, a number, a boolean, a list or an object *)

(** [json_loads_items text] is [json.loads(text).items()], [None] when
    [json.loads] raises. *)
Class Loads : Type := {
  json_loads_items : string → option (list (string * loaded))
}.

Section conversation.
Context `{Externals} `{Loads}.

(** [collected_info[k]]. *)
Definition info_item (info : gmap string string) (k : string) : M string :=
  lift (match info !! k with
        | Some v => Returns v
        | None => Raises (KeyError k)
        end).

(** The loop over [extracted.items()].  A value that is false, or blank
    once stripped, is passed over; a true value that is not a string has no
    [strip]: the [AttributeError] ends the loop, with the updates made so far
    in place. *)
Fixpoint apply_extracted (items : list (string * loaded)) (info : gmap string string)
    : gmap string string :=
  match items with
  | [] => info
  | (key, LStr value) :: rest =>
      if decide (value = "") then apply_extracted rest info
      else if decide (str_strip value = "") then apply_extracted rest info
      else apply_extracted rest (<[ key := str_strip value ]> info)
  | (key, LOther false) :: rest => apply_extracted rest info
  | (key, LOther true) :: _ => info
  end.

(** What the [try] block makes of the answer of the extraction chain. *)
Definition parse_extracted (extraction_result : string) (info : gmap string string)
    : gmap string string :=
  match re_search_braces extraction_result with
  | Some matched =>
      match json_loads_items matched with
      | Some items => apply_extracted items info
      | None => info
      end
  | None => info
  end.

(** The [try] block with its [except Exception: pass]: whatever is raised
    inside is dropped and [collected_info] is left as it is then. *)
Definition extract_info (user_input : string) (info : gmap string string)
    : M (gmap string string) :=
  λ w, match (v_destination ← info_item info "destination";
              v_dates ← info_item info "dates";
              v_budget ← info_item info "budget";
              invoke extraction_prompt [
                ("user_input", VStr user_input);
                ("destination", VStr v_destination);
                ("dates", VStr v_dates);
                ("budget", VStr v_budget)
              ]) w with
       | (Returns extraction_result, w') =>
           (Returns (parse_extracted extraction_result info), w')
       | (Raises _, w') => (Returns info, w')
       end.

(** The body of [for line in lines]. *)
Definition read_field_line (info : gmap string string) (line : string)
    : gmap string string :=
  let line := str_strip line in
  if String.prefix "DESTINATION:" line then
    <[ "destination" := str_strip (default "" (split_once colon line !! 1%nat)) ]> info
  else if String.prefix "DATES:" line then
    <[ "dates" := str_strip (default "" (split_once colon line !! 1%nat)) ]> info
  else if String.prefix "BUDGET:" line then
    <[ "budget" := str_strip (default "" (split_once colon line !! 1%nat)) ]> info
  else info.

Definition max_turns : nat := 10.

(** [while turn_count < max_turns:].  Every round reads one answer of
    [Prompt.ask], so [fuel] rounds are enough as soon as [fuel] exceeds the
    number of answers that are left. *)
Fixpoint conversation_loop (fuel turn_count : nat) (conversation_history : list string)
    (collected_info : gmap string string) : M (gmap string string) :=
  if decide (turn_count < max_turns)%nat then
    match fuel with
    | O => raise EOFError
    | S fuel' =>
        answer ← prompt_ask;
        let user_input := str_strip answer in
        if decide (user_input = "") then
          conversation_loop fuel' turn_count conversation_history collected_info
        else
          let conversation_history := conversation_history ++ ["User: " +:+ user_input] in
          collected_info ← extract_info user_input collected_info;
          v_destination ← info_item collected_info "destination";
          v_dates ← info_item collected_info "dates";
          v_budget ← info_item collected_info "budget";
          ai_response ← invoke context_prompt [
            ("conversation_history", VStr (join nl (last_n 6 conversation_history)));
            ("user_input", VStr user_input);
            ("destination", VStr (str_or v_destination "Not provided"));
            ("dates", VStr (str_or v_dates "Not provided"));
            ("budget", VStr (str_or v_budget "Not provided"))
          ];
          console_print (Markup ("[bold green]AI Assistant:[/bold green] " +:+ ai_response));;
          let conversation_history := conversation_history ++ ["AI: " +:+ ai_response] in
          if contains "COMPLETE: YES" ai_response then
            mret (foldl read_field_line collected_info (split_on newline ai_response))
          else
            conversation_loop fuel' (S turn_count) conversation_history collected_info
    end
  else mret collected_info.

(** [all(collected_info.values())]. *)
Definition all_values (info : gmap string string) : bool :=
  bool_decide (map_Forall (λ _ v, v ≠ "") info).

Definition missing_warning : string :=
  "[yellow]Warning: Some information may be missing. Using what was collected.[/yellow]".

Definition generate_travel_request_with_ai : M (gmap string string) :=
  console_print (PanelFit "[bold green]AI-ASSISTED TRAVEL PLANNING[/bold green]");;
  let conversation_history := [] in
  let collected_info : gmap string string :=
    <[ "destination" := "" ]> (<[ "dates" := "" ]> {[ "budget" := "" ]}) in
  ai_response ← invoke initial_prompt [];
  console_print (Markup ("[bold green]AI Assistant:[/bold green] " +:+ ai_response));;
  let conversation_history := conversation_history ++ ["AI: " +:+ ai_response] in
  remaining ← answers_left;
  collected_info ← conversation_loop (S remaining) 0 conversation_history collected_info;
  (if all_values collected_info then mret ()
   else console_print (Markup missing_warning));;
  mret collected_info.

End conversation.

(** *** Test doubles for the conversation *)

(** A reader that finds the same items in whatever it is given, or fails. *)
Definition stub_loads (items : option (list (string * loaded))) : Loads := {|
  json_loads_items := λ _, items
|}.

(** *** One turn of the conversation *)

Section conversation_facts.
Context `{Externals} `{Loads}.

(** [collected_info[k]] when the key is there. *)
Definition item (info : gmap string string) (k : string) : string :=
  default "" (info !! k).

(** The three keys that [collected_info] starts with. *)
Definition has_request (info : gmap string string) : Prop :=
  is_Some (info !! "destination") ∧ is_Some (info !! "dates") ∧ is_Some (info !! "budget").

(** A key besides these three holds a value that is not empty. *)
Definition others_filled (info : gmap string string) : Prop :=
  ∀ k v, info !! k = Some v → k ∈ request_fields ∨ v ≠ "".

Definition extraction_call (user_input : string) (info : gmap string string) : llm_call :=
  LlmCall extraction_prompt [
    ("user_input", VStr user_input);
    ("destination", VStr (item info "destination"));
    ("dates", VStr (item info "dates"));
    ("budget", VStr (item info "budget"))
  ].

Definition context_call (history : list string) (user_input : string)
    (info : gmap string string) : llm_call :=
  LlmCall context_prompt [
    ("conversation_history", VStr (join nl (last_n 6 history)));
    ("user_input", VStr user_input);
    ("destination", VStr (str_or (item info "destination") "Not provided"));
    ("dates", VStr (str_or (item info "dates") "Not provided"));
    ("budget", VStr (str_or (item info "budget") "Not provided"))
  ].

(** What [collected_info] is after the [try] block, when [n] calls were
    made before it. *)
Definition extracted (n : nat) (user_input : string) (info : gmap string string)
    : gmap string string :=
  match chain_invoke n extraction_prompt (call_vars (extraction_call user_input info)) with
  | inl text => parse_extracted text info
  | inr _ => info
  end.

Lemma info_item_run info k w :
  is_Some (info !! k) → info_item info k w = (Returns (item info k), w).
Proof. intros [v Hk]. unfold info_item, item, lift. by rewrite Hk. Qed.

Lemma info_item_missing info k w :
  info !! k = None → info_item info k w = (Raises (KeyError k), w).
Proof. intros Hk. unfold info_item, lift. by rewrite Hk. Qed.

Lemma apply_extracted_keeps items info k :
  is_Some (info !! k) → is_Some (apply_extracted items info !! k).
Proof.
  revert info. induction items as [|[key [value|[|]]] items IH]; intros info Hk; cbn; [done| |done|by apply IH].
  repeat case_decide; try by apply IH.
  apply IH. destruct (decide (key = k)) as [->|Hne].
  - rewrite lookup_insert_eq. eauto.
  - by rewrite lookup_insert_ne.
Qed.

Lemma parse_extracted_keeps text info k :
  is_Some (info !! k) → is_Some (parse_extracted text info !! k).
Proof.
  intros Hk. unfold parse_extracted.
  destruct (re_search_braces text) as [matched|]; [|done].
  destruct (json_loads_items matched) as [items|]; [|done].
  by apply apply_extracted_keeps.
Qed.

Lemma extracted_keeps n user_input info k :
  is_Some (info !! k) → is_Some (extracted n user_input info !! k).
Proof.
  intros Hk. unfold extracted. destruct (chain_invoke _ _ _); [|done].
  by apply parse_extracted_keeps.
Qed.

Lemma extracted_has_request n user_input info :
  has_request info → has_request (extracted n user_input info).
Proof. intros (? & ? & ?). split_and!; by apply extracted_keeps. Qed.

(** The [try] block makes one call and returns, whatever the call does. *)
Lemma extract_info_run user_input info w :
  has_request info →
  extract_info user_input info w =
    (Returns (extracted (length (llm_log w)) user_input info),
     logged (extraction_call user_input info) w).
Proof.
  intros (Hd & Ht & Hb). unfold extract_info, extracted.
  do 3 (erewrite bind_Returns by (by apply info_item_run)).
  rewrite invoke_eq. cbn [extraction_call call_vars].
  by destruct (chain_invoke _ _ _).
Qed.

Definition assistant_says (ai_response : string) : rich :=
  Markup ("[bold green]AI Assistant:[/bold green] " +:+ ai_response).

Lemma conversation_loop_done fuel tc h info w :
  ¬ (tc < max_turns)%nat → conversation_loop fuel tc h info w = (Returns info, w).
Proof. intros Htc. destruct fuel; cbn [conversation_loop]; by rewrite decide_False. Qed.

Lemma conversation_loop_eof fuel tc h info w :
  (tc < max_turns)%nat → prompt_answers w = [] →
  conversation_loop fuel tc h info w = (Raises EOFError, w).
Proof.
  intros Htc Hw. destruct fuel; cbn [conversation_loop]; rewrite decide_True by done; [done|].
  by erewrite bind_Raises by (by apply prompt_ask_nil).
Qed.

Lemma conversation_loop_blank fuel tc h info w a rest :
  (tc < max_turns)%nat → prompt_answers w = a :: rest → str_strip a = "" →
  conversation_loop (S fuel) tc h info w
    = conversation_loop fuel tc h info (with_answers rest w).
Proof.
  intros Htc Hw Ha. cbn [conversation_loop]. rewrite decide_True by done.
  erewrite bind_Returns by (by apply prompt_ask_cons).
  by rewrite decide_True.
Qed.

(** A turn on an input that is not blank: the extraction call, whatever
    it gives, then the context call, which decides how the turn ends. *)
Lemma conversation_loop_turn fuel tc h info w a rest :
  (tc < max_turns)%nat → prompt_answers w = a :: rest → str_strip a ≠ "" →
  has_request info →
  let u := str_strip a in
  let info1 := extracted (length (llm_log w)) u info in
  let h1 := h ++ ["User: " +:+ u] in
  let w2 := logged (context_call h1 u info1)
              (logged (extraction_call u info) (with_answers rest w)) in
  conversation_loop (S fuel) tc h info w =
    match chain_invoke (S (length (llm_log w))) context_prompt
            (call_vars (context_call h1 u info1)) with
    | inr msg => (Raises (GenerationError msg), w2)
    | inl ai_response =>
        if refused (assistant_says ai_response) then (Raises MarkupError, w2)
        else if contains "COMPLETE: YES" ai_response then
          (Returns (foldl read_field_line info1 (split_on newline ai_response)),
           printed [assistant_says ai_response] w2)
        else
          conversation_loop fuel (S tc) (h1 ++ ["AI: " +:+ ai_response]) info1
            (printed [assistant_says ai_response] w2)
    end.
Proof.
  intros Htc Hw Ha Hinfo u info1 h1 w2. cbn [conversation_loop].
  rewrite decide_True by done.
  erewrite bind_Returns by (by apply prompt_ask_cons).
  rewrite decide_False by done.
  erewrite bind_Returns by (by apply extract_info_run).
  destruct (extracted_has_request (length (llm_log w)) u info Hinfo) as (Hd & Ht & Hb).
  do 3 (erewrite bind_Returns by (by apply info_item_run)).
  fold u h1 info1.
  unfold mbind, M_bind, bind. rewrite invoke_eq.
  replace (length (llm_log (logged (extraction_call u info) (with_answers rest w))))
    with (S (length (llm_log w)))
    by (cbn [logged with_answers llm_log]; rewrite length_app; cbn; lia).
  fold (context_call h1 u info1). cbn [call_vars context_call].
  destruct (chain_invoke _ _ _) as [ai_response|msg]; cbn [answer_of]; [|done].
  fold (assistant_says ai_response). unfold console_print.
  destruct (refused (assistant_says ai_response)); [done|].
  by destruct (contains _ _).
Qed.

(** The runs of the loop, turn by turn: from [turn_count], the history and
    [collected_info] in a world to a result in a world. *)
Inductive conversation
  : nat → list string → gmap string string → world
    → result (gmap string string) → world → Prop :=
  | conversation_over tc h info w :
      ¬ (tc < max_turns)%nat →
      conversation tc h info w (Returns info) w
  | conversation_eof tc h info w :
      (tc < max_turns)%nat → prompt_answers w = [] →
      conversation tc h info w (Raises EOFError) w
  | conversation_blank tc h info w a rest r w' :
      (tc < max_turns)%nat → prompt_answers w = a :: rest → str_strip a = "" →
      conversation tc h info (with_answers rest w) r w' →
      conversation tc h info w r w'
  | conversation_failed tc h info w a rest msg :
      (tc < max_turns)%nat → prompt_answers w = a :: rest → str_strip a ≠ "" →
      let u := str_strip a in
      let info1 := extracted (length (llm_log w)) u info in
      let h1 := h ++ ["User: " +:+ u] in
      chain_invoke (S (length (llm_log w))) context_prompt
        (call_vars (context_call h1 u info1)) = inr msg →
      conversation tc h info w (Raises (GenerationError msg))
        (logged (context_call h1 u info1)
           (logged (extraction_call u info) (with_answers rest w)))
  | conversation_refused tc h info w a rest ai_response :
      (tc < max_turns)%nat → prompt_answers w = a :: rest → str_strip a ≠ "" →
      let u := str_strip a in
      let info1 := extracted (length (llm_log w)) u info in
      let h1 := h ++ ["User: " +:+ u] in
      chain_invoke (S (length (llm_log w))) context_prompt
        (call_vars (context_call h1 u info1)) = inl ai_response →
      refused (assistant_says ai_response) = true →
      conversation tc h info w (Raises MarkupError)
        (logged (context_call h1 u info1)
           (logged (extraction_call u info) (with_answers rest w)))
  | conversation_complete tc h info w a rest ai_response :
      (tc < max_turns)%nat → prompt_answers w = a :: rest → str_strip a ≠ "" →
      let u := str_strip a in
      let info1 := extracted (length (llm_log w)) u info in
      let h1 := h ++ ["User: " +:+ u] in
      chain_invoke (S (length (llm_log w))) context_prompt
        (call_vars (context_call h1 u info1)) = inl ai_response →
      refused (assistant_says ai_response) = false →
      contains "COMPLETE: YES" ai_response = true →
      conversation tc h info w
        (Returns (foldl read_field_line info1 (split_on newline ai_response)))
        (printed [assistant_says ai_response]
           (logged (context_call h1 u info1)
              (logged (extraction_call u info) (with_answers rest w))))
  | conversation_goes_on tc h info w a rest ai_response r w' :
      (tc < max_turns)%nat → prompt_answers w = a :: rest → str_strip a ≠ "" →
      let u := str_strip a in
      let info1 := extracted (length (llm_log w)) u info in
      let h1 := h ++ ["User: " +:+ u] in
      chain_invoke (S (length (llm_log w))) context_prompt
        (call_vars (context_call h1 u info1)) = inl ai_response →
      refused (assistant_says ai_response) = false →
      contains "COMPLETE: YES" ai_response = false →
      conversation (S tc) (h1 ++ ["AI: " +:+ ai_response]) info1
        (printed [assistant_says ai_response]
           (logged (context_call h1 u info1)
              (logged (extraction_call u info) (with_answers rest w)))) r w' →
      conversation tc h info w r w'.

(** The loop makes one of these runs, with enough rounds for the answers
    that are left. *)
Lemma conversation_loop_run fuel tc h info w :
  has_request info → (length (prompt_answers w) < fuel)%nat →
  conversation tc h info w (conversation_loop fuel tc h info w).1
    (conversation_loop fuel tc h info w).2.
Proof.
  revert tc h info w. induction fuel as [|fuel IH]; intros tc h info w Hinfo Hfuel; [lia|].
  destruct (decide (tc < max_turns)%nat) as [Htc|Htc];
    [|rewrite conversation_loop_done by done; by constructor].
  destruct (prompt_answers w) as [|a rest] eqn:Hw;
    [rewrite conversation_loop_eof by done; by constructor|].
  cbn [length] in Hfuel.
  destruct (decide (str_strip a = "")) as [Ha|Ha].
  - rewrite (conversation_loop_blank fuel tc h info w a rest) by done.
    eapply conversation_blank; [done..|]. apply IH; [done|cbn; lia].
  - rewrite (conversation_loop_turn fuel tc h info w a rest) by done.
    destruct (chain_invoke _ _ _) as [ai_response|msg] eqn:Hcall.
    + destruct (refused _) eqn:Hsays; [by eapply conversation_refused|].
      destruct (contains _ _) eqn:Hyes.
      * by eapply conversation_complete.
      * eapply conversation_goes_on; [done..|].
        apply IH; [by apply extracted_has_request|cbn; lia].
    + by eapply conversation_failed.
Qed.

(** The number of rounds does not matter beyond the answers that are left. *)
Lemma conversation_loop_fuel fuel1 fuel2 tc h info w :
  has_request info →
  (length (prompt_answers w) < fuel1)%nat → (length (prompt_answers w) < fuel2)%nat →
  conversation_loop fuel1 tc h info w = conversation_loop fuel2 tc h info w.
Proof.
  revert fuel2 tc h info w.
  induction fuel1 as [|fuel1 IH]; intros fuel2 tc h info w Hinfo Hfuel1 Hfuel2; [lia|].
  destruct fuel2 as [|fuel2]; [lia|].
  destruct (decide (tc < max_turns)%nat) as [Htc|Htc];
    [|by rewrite !conversation_loop_done].
  destruct (prompt_answers w) as [|a rest] eqn:Hw;
    [by rewrite !conversation_loop_eof|].
  cbn [length] in Hfuel1, Hfuel2.
  destruct (decide (str_strip a = "")) as [Ha|Ha].
  - rewrite !(conversation_loop_blank _ tc h info w a rest) by done.
    apply IH; [done|cbn; lia..].
  - rewrite !(conversation_loop_turn _ tc h info w a rest) by done.
    destruct (chain_invoke _ _ _) as [ai_response|msg]; [|done].
    destruct (refused _); [done|].
    destruct (contains _ _); [done|].
    apply IH; [by apply extracted_has_request|cbn; lia..].
Qed.

(** *** What the updates of [collected_info] keep *)

Lemma insert_keeps (info : gmap string string) key value k :
  is_Some (info !! k) → is_Some (<[ key := value ]> info !! k).
Proof.
  intros Hk. destruct (decide (key = k)) as [->|Hne].
  - rewrite lookup_insert_eq. eauto.
  - by rewrite lookup_insert_ne.
Qed.

Lemma read_field_line_keeps info line k :
  is_Some (info !! k) → is_Some (read_field_line info line !! k).
Proof.
  intros Hk. unfold read_field_line.
  repeat (destruct (String.prefix _ _); [by apply insert_keeps|]). done.
Qed.

Lemma read_fields_keeps lines info k :
  is_Some (info !! k) → is_Some (foldl read_field_line info lines !! k).
Proof.
  revert info. induction lines as [|line lines IH]; intros info Hk; [done|].
  cbn [foldl]. by apply IH, read_field_line_keeps.
Qed.

Lemma read_fields_has_request lines info :
  has_request info → has_request (foldl read_field_line info lines).
Proof. intros (? & ? & ?). split_and!; by apply read_fields_keeps. Qed.

Lemma insert_request_others_filled info key value :
  key ∈ request_fields → others_filled info → others_filled (<[ key := value ]> info).
Proof.
  intros Hkey Hinfo k v. destruct (decide (key = k)) as [->|Hne].
  - by left.
  - rewrite lookup_insert_ne by done. apply Hinfo.
Qed.

Lemma insert_filled_others_filled info key value :
  value ≠ "" → others_filled info → others_filled (<[ key := value ]> info).
Proof.
  intros Hvalue Hinfo k v. destruct (decide (key = k)) as [->|Hne].
  - rewrite lookup_insert_eq. intros [= <-]. by right.
  - rewrite lookup_insert_ne by done. apply Hinfo.
Qed.

Lemma read_field_line_others_filled info line :
  others_filled info → others_filled (read_field_line info line).
Proof.
  intros Hinfo. unfold read_field_line, request_fields.
  repeat (destruct (String.prefix _ _);
          [apply insert_request_others_filled; [set_solver|done]|]).
  done.
Qed.

Lemma read_fields_others_filled lines info :
  others_filled info → others_filled (foldl read_field_line info lines).
Proof.
  revert info. induction lines as [|line lines IH]; intros info Hinfo; [done|].
  cbn [foldl]. by apply IH, read_field_line_others_filled.
Qed.

Lemma apply_extracted_others_filled items info :
  others_filled info → others_filled (apply_extracted items info).
Proof.
  revert info.
  induction items as [|[key [value|[|]]] items IH]; intros info Hinfo; cbn;
    [done| |done|by apply IH].
  repeat case_decide; try by apply IH.
  by apply IH, insert_filled_others_filled.
Qed.

Lemma extracted_others_filled n user_input info :
  others_filled info → others_filled (extracted n user_input info).
Proof.
  intros Hinfo. unfold extracted, parse_extracted.
  destruct (chain_invoke _ _ _) as [text|]; [|done].
  destruct (re_search_braces text) as [matched|]; [|done].
  destruct (json_loads_items matched) as [items|]; [|done].
  by apply apply_extracted_others_filled.
Qed.

(** *** What every run of the loop shows *)

(** How a run ends: with the three keys in place, out of answers, on the
    failure of the context call, which is the last call then, or on an
    answer of the context call that the console refuses to print. *)
Lemma conversation_result tc h info w r w' :
  conversation tc h info w r w' →
  has_request info → others_filled info →
  match r with
  | Returns info' => has_request info' ∧ others_filled info'
  | Raises e =>
      (e = EOFError ∧ prompt_answers w' = []) ∨
      (∃ msg vars, e = GenerationError msg ∧
         last (llm_log w') = Some (LlmCall context_prompt vars) ∧
         chain_invoke (length (llm_log w') - 1) context_prompt vars = inr msg) ∨
      (∃ ai_response vars, e = MarkupError ∧
         last (llm_log w') = Some (LlmCall context_prompt vars) ∧
         chain_invoke (length (llm_log w') - 1) context_prompt vars = inl ai_response ∧
         refused (assistant_says ai_response) = true)
  end.
Proof.
  induction 1 as [tc h info w Htc|tc h info w Htc Hw|tc h info w a rest r w' Htc Hw Ha _ IH
                 |tc h info w a rest msg Htc Hw Ha u info1 h1 Hcall
                 |tc h info w a rest resp Htc Hw Ha u info1 h1 Hcall Hsays
                 |tc h info w a rest resp Htc Hw Ha u info1 h1 Hcall Hsays Hyes
                 |tc h info w a rest resp r w' Htc Hw Ha u info1 h1 Hcall Hsays Hyes _ IH];
    intros Hinfo Hothers.
  - done.
  - left. done.
  - by apply IH.
  - right. left. exists msg, (call_vars (context_call h1 u info1)).
    split; [done|]. cbn [logged llm_log with_answers].
    rewrite last_snoc. split; [done|].
    rewrite !length_app. cbn [length].
    replace (length (llm_log w) + 1 + 1 - 1)%nat with (S (length (llm_log w))) by lia.
    done.
  - right. right. exists resp, (call_vars (context_call h1 u info1)).
    split; [done|]. cbn [logged llm_log with_answers].
    rewrite last_snoc. split; [done|].
    rewrite !length_app. cbn [length].
    replace (length (llm_log w) + 1 + 1 - 1)%nat with (S (length (llm_log w))) by lia.
    done.
  - split.
    + by apply read_fields_has_request, extracted_has_request.
    + by apply read_fields_others_filled, extracted_others_filled.
  - apply IH; [by apply extracted_has_request|by apply extracted_others_filled].
Qed.

(** What a run touches: it reads answers, of which at most the turns that
    are left are not blank, makes at most two calls for each of these, and
    prints the answers of the assistant; the rest of the world is as it
    was. *)
Lemma conversation_footprint tc h info w r w' :
  conversation tc h info w r w' →
  state_obj w' = state_obj w ∧ confirm_answers w' = confirm_answers w ∧
  (∃ consumed, prompt_answers w = consumed ++ prompt_answers w' ∧
     (length (filter filled consumed) ≤ max_turns - tc)%nat) ∧
  (∃ calls, llm_log w' = llm_log w ++ calls ∧
     (length calls ≤ 2 * (max_turns - tc))%nat ∧
     Forall (λ c, call_prompt c ∈ [extraction_prompt; context_prompt]) calls) ∧
  (∃ prints, console_log w' = console_log w ++ prints ∧
     Forall (λ p, ∃ ai_response, p = assistant_says ai_response) prints).
Proof.
  induction 1 as [tc h info w Htc|tc h info w Htc Hw|tc h info w a rest r w' Htc Hw Ha _ IH
                 |tc h info w a rest msg Htc Hw Ha u info1 h1 Hcall
                 |tc h info w a rest resp Htc Hw Ha u info1 h1 Hcall Hshown
                 |tc h info w a rest resp Htc Hw Ha u info1 h1 Hcall Hshown Hyes
                 |tc h info w a rest resp r w' Htc Hw Ha u info1 h1 Hcall Hshown Hyes _ IH].
  - split_and!; [done..| | |].
    + exists []. split; [done|cbn; lia].
    + exists []. rewrite app_nil_r. split_and!; [done|cbn; lia|done].
    + exists []. by rewrite app_nil_r.
  - split_and!; [done..| | |].
    + exists []. split; [done|cbn; lia].
    + exists []. rewrite app_nil_r. split_and!; [done|cbn; lia|done].
    + exists []. by rewrite app_nil_r.
  - destruct IH as (Hs & Hc & (consumed & Hcons & Hlen) & Hcalls & Hprints).
    split_and!; [done..| |done|done].
    exists (a :: consumed). cbn [with_answers prompt_answers] in Hcons.
    rewrite Hw, Hcons. split; [done|].
    rewrite filter_cons, decide_False by (unfold filled; tauto). done.
  - cbn [logged with_answers state_obj confirm_answers prompt_answers llm_log console_log].
    split_and!; [done..| | |].
    + exists [a]. rewrite Hw. split; [done|].
      rewrite filter_cons, decide_True by done. cbn. unfold max_turns in *. lia.
    + exists [extraction_call u info; context_call h1 u info1].
      rewrite <- app_assoc. split_and!; [done|cbn; unfold max_turns in *; lia|].
      repeat constructor; cbn; set_solver.
    + exists []. by rewrite app_nil_r.
  - cbn [logged with_answers state_obj confirm_answers prompt_answers llm_log console_log].
    split_and!; [done..| | |].
    + exists [a]. rewrite Hw. split; [done|].
      rewrite filter_cons, decide_True by done. cbn. unfold max_turns in *. lia.
    + exists [extraction_call u info; context_call h1 u info1].
      rewrite <- app_assoc. split_and!; [done|cbn; unfold max_turns in *; lia|].
      repeat constructor; cbn; set_solver.
    + exists []. by rewrite app_nil_r.
  - cbn [printed logged with_answers state_obj confirm_answers prompt_answers
          llm_log console_log].
    split_and!; [done..| | |].
    + exists [a]. rewrite Hw. split; [done|].
      rewrite filter_cons, decide_True by done. cbn. unfold max_turns in *. lia.
    + exists [extraction_call u info; context_call h1 u info1].
      rewrite <- app_assoc. split_and!; [done|cbn; unfold max_turns in *; lia|].
      repeat constructor; cbn; set_solver.
    + exists [assistant_says resp]. split; [done|]. repeat constructor. by exists resp.
  - destruct IH as (Hs & Hc & (consumed & Hcons & Hlen) & (calls & Hcalls & Hnum & Hall)
                    & (prints & Hprints & Hsays)).
    cbn [printed logged with_answers state_obj confirm_answers prompt_answers
          llm_log console_log] in *.
    split_and!; [done..| | |].
    + exists (a :: consumed). rewrite Hw, Hcons. split; [done|].
      rewrite filter_cons, decide_True by done. cbn. unfold max_turns in *. lia.
    + exists (extraction_call u info :: context_call h1 u info1 :: calls).
      rewrite Hcalls. repeat rewrite <- app_assoc. split_and!; [done|cbn; unfold max_turns in *; lia|].
      repeat constructor; [cbn; set_solver..|done].
    + exists (assistant_says resp :: prints). rewrite Hprints, <- app_assoc.
      split; [done|]. constructor; [by exists resp|done].
Qed.

(** *** The whole function *)

Definition start_info : gmap string string :=
  <[ "destination" := "" ]> (<[ "dates" := "" ]> {[ "budget" := "" ]}).

Definition ai_banner : rich := PanelFit "[bold green]AI-ASSISTED TRAVEL PLANNING[/bold green]".

(** The world when the loop starts, after the answer [first] of the initial
    call. *)
Definition greeted (first : string) (w : world) : world :=
  printed [assistant_says first] (logged (LlmCall initial_prompt []) (printed [ai_banner] w)).

(** The end of the function on what the loop gives. *)
Definition finish (run : result (gmap string string) * world)
    : result (gmap string string) * world :=
  match run with
  | (Returns info, w) =>
      (Returns info, if all_values info then w else printed [Markup missing_warning] w)
  | (Raises e, w) => (Raises e, w)
  end.

Lemma generate_travel_request_with_ai_run w :
  generate_travel_request_with_ai w =
    match chain_invoke (length (llm_log w)) initial_prompt [] with
    | inl first =>
        if refused (assistant_says first) then
          (Raises MarkupError, logged (LlmCall initial_prompt []) (printed [ai_banner] w))
        else
          finish (conversation_loop (S (length (prompt_answers w))) 0 ["AI: " +:+ first]
                    start_info (greeted first w))
    | inr msg =>
        (Raises (GenerationError msg), logged (LlmCall initial_prompt []) (printed [ai_banner] w))
    end.
Proof.
  unfold generate_travel_request_with_ai, mbind, M_bind, bind.
  rewrite console_print_eq by reflexivity. rewrite invoke_eq. fold ai_banner.
  cbn [printed llm_log].
  destruct (chain_invoke _ _ _) as [first|msg]; cbn [answer_of]; [|reflexivity].
  fold (assistant_says first).
  destruct (refused (assistant_says first)) eqn:Hsays;
    [by rewrite console_print_refused|].
  rewrite console_print_eq by done.
  unfold answers_left, greeted.
  cbn [printed logged state_obj prompt_answers confirm_answers llm_log console_log app].
  fold start_info.
  match goal with |- context [conversation_loop ?f ?tc ?h ?i ?w0] =>
    destruct (conversation_loop f tc h i w0) as [[info|e] w2] end; [|done].
  cbn [finish]. destruct (all_values info); [done|].
  by rewrite console_print_eq by reflexivity.
Qed.

Lemma start_info_has_request : has_request start_info.
Proof. unfold has_request, start_info. split_and!; by simplify_map_eq. Qed.

Lemma start_info_others_filled : others_filled start_info.
Proof.
  intros k v Hk. left. unfold start_info, request_fields in *.
  destruct (decide (k = "destination")) as [->|Hd]; [by left|].
  destruct (decide (k = "dates")) as [->|Ht]; [right; by left|].
  destruct (decide (k = "budget")) as [->|Hb]; [right; right; by left|].
  by rewrite !lookup_insert_ne, lookup_singleton_ne in Hk.
Qed.

Lemma all_values_incomplete info :
  has_request info → others_filled info →
  all_values info = false ↔
    info !! "destination" = Some "" ∨ info !! "dates" = Some "" ∨ info !! "budget" = Some "".
Proof.
  intros ([d Hd] & [t Ht] & [b Hb]) Hothers. unfold all_values. split.
  - intros Hall. apply bool_decide_eq_false_1 in Hall.
    destruct (decide (d = "")) as [->|Hdne]; [by left|].
    destruct (decide (t = "")) as [->|Htne]; [right; by left|].
    destruct (decide (b = "")) as [->|Hbne]; [right; by right|].
    destruct Hall. intros k v Hk.
    destruct (Hothers k v Hk) as [Hin|?]; [|done].
    unfold request_fields in Hin.
    apply elem_of_cons in Hin as [->|Hin]; [congruence|].
    apply elem_of_cons in Hin as [->|Hin]; [congruence|].
    apply list_elem_of_singleton in Hin as ->. congruence.
  - intros Hempty. apply bool_decide_eq_false_2. intros Hall.
    destruct Hempty as [Hk|[Hk|Hk]]; by apply Hall in Hk.
Qed.

Lemma assistant_says_not_warning ai_response :
  assistant_says ai_response ≠ Markup missing_warning.
Proof. unfold assistant_says, missing_warning. cbn. intros [=]. Qed.

(** The values that the loop over the extracted items leaves: those that
    were there, and stripped strings of the items that are not empty. *)
Lemma apply_extracted_values items info k v :
  apply_extracted items info !! k = Some v →
  info !! k = Some v ∨ (v ≠ "" ∧ ∃ raw, (k, LStr raw) ∈ items ∧ v = str_strip raw).
Proof.
  revert info. induction items as [|[key [value|[|]]] items IH]; intros info Hk; cbn in Hk.
  - by left.
  - repeat case_decide.
    + destruct (IH _ Hk) as [?|(? & raw & ? & ?)]; [by left|].
      right. split; [done|]. exists raw. split; [by right|done].
    + destruct (IH _ Hk) as [?|(? & raw & ? & ?)]; [by left|].
      right. split; [done|]. exists raw. split; [by right|done].
    + destruct (IH _ Hk) as [Hins|(? & raw & ? & ?)].
      * destruct (decide (key = k)) as [->|Hne].
        -- rewrite lookup_insert_eq in Hins. injection Hins as <-.
           right. split; [done|]. exists value. split; [by left|done].
        -- rewrite lookup_insert_ne in Hins by done. by left.
      * right. split; [done|]. exists raw. split; [by right|done].
  - by left.
  - destruct (IH _ Hk) as [?|(? & raw & ? & ?)]; [by left|].
    right. split; [done|]. exists raw. split; [by right|done].
Qed.

(** The [try] block without the assumption that the three keys are
    there. *)
Lemma extract_info_cases user_input info w :
  extract_info user_input info w =
    (Returns (extracted (length (llm_log w)) user_input info),
     logged (extraction_call user_input info) w)
  ∨ extract_info user_input info w = (Returns info, w).
Proof.
  destruct (info !! "destination") as [d|] eqn:Hd;
    [|right; unfold extract_info; by erewrite bind_Raises by (by apply info_item_missing)].
  destruct (info !! "dates") as [t|] eqn:Ht;
    [|right; unfold extract_info;
      erewrite bind_Returns by (apply info_item_run; by rewrite Hd);
      by erewrite bind_Raises by (by apply info_item_missing)].
  destruct (info !! "budget") as [b|] eqn:Hb;
    [|right; unfold extract_info;
      erewrite bind_Returns by (apply info_item_run; by rewrite Hd);
      erewrite bind_Returns by (apply info_item_run; by rewrite Ht);
      by erewrite bind_Raises by (by apply info_item_missing)].
  left. apply extract_info_run. unfold has_request. rewrite Hd, Ht, Hb. eauto.
Qed.

End conversation_facts.

Section conversation_properties.
Context `{Externals} `{Loads}.


(** X16: the conversation is bounded: whatever the user and the chain
    answer, [generate_travel_request_with_ai] reads at most ten answers that
    are not blank and makes at most twenty-one calls of the chain, the
    initial one and two for each of these answers; it leaves the state object
    and the confirmations alone. *)
Theorem generate_travel_request_with_ai_bounded (w : world) :
  let w' := (generate_travel_request_with_ai w).2 in
  state_obj w' = state_obj w ∧ confirm_answers w' = confirm_answers w ∧
  (∃ consumed, prompt_answers w = consumed ++ prompt_answers w' ∧
     (length (filter filled consumed) ≤ 10)%nat) ∧
  (∃ calls, llm_log w' = llm_log w ++ calls ∧ (length calls ≤ 21)%nat).
Proof.
  cbn zeta. rewrite generate_travel_request_with_ai_run.
  destruct (chain_invoke _ _ _) as [first|msg] eqn:Hfirst.
  - destruct (refused (assistant_says first)).
    { cbn [fst snd logged printed state_obj confirm_answers prompt_answers llm_log].
      split_and!; [done..| |].
      + exists []. split; [done|cbn; lia].
      + exists [LlmCall initial_prompt []]. split; [done|cbn; lia]. }
    pose proof (conversation_loop_run (S (length (prompt_answers w))) 0 ["AI: " +:+ first]
                  start_info (greeted first w) start_info_has_request) as Hrun.
    pose proof (conversation_footprint _ _ _ _ _ _ (Hrun ltac:(cbn; lia)))
      as (Hs & Hc & (consumed & Hcons & Hlen) & (calls & Hcalls & Hnum & _) & _).
    destruct (conversation_loop _ _ _ _ _) as [[info|e] w2]; cbn [finish fst snd] in *.
    + assert (∀ w3, (if all_values info then w2 else printed [Markup missing_warning] w2) = w3 →
                     state_obj w3 = state_obj w2 ∧ confirm_answers w3 = confirm_answers w2 ∧
                     prompt_answers w3 = prompt_answers w2 ∧ llm_log w3 = llm_log w2) as Hsame.
      { intros w3 <-. by destruct (all_values info). }
      destruct (Hsame _ eq_refl) as (-> & -> & -> & ->).
      split_and!; [done..| |].
      * exists consumed. split; [done|]. unfold max_turns in Hlen. lia.
      * exists (LlmCall initial_prompt [] :: calls). rewrite Hcalls.
        cbn [greeted printed logged llm_log]. rewrite <- app_assoc.
        split; [done|]. cbn [length]. unfold max_turns in Hnum. lia.
    + split_and!; [done..| |].
      * exists consumed. split; [done|]. unfold max_turns in Hlen. lia.
      * exists (LlmCall initial_prompt [] :: calls). rewrite Hcalls.
        cbn [greeted printed logged llm_log]. rewrite <- app_assoc.
        split; [done|]. cbn [length]. unfold max_turns in Hnum. lia.
  - cbn [fst snd logged printed state_obj confirm_answers prompt_answers llm_log].
    split_and!; [done..| |].
    + exists []. split; [done|cbn; lia].
    + exists [LlmCall initial_prompt []]. split; [done|cbn; lia].
Qed.


(** X18: the warning is printed exactly when the request that
    [generate_travel_request_with_ai] returns has an empty [destination],
    [dates] or [budget]; the request is returned all the same. *)
Theorem generate_travel_request_with_ai_warns (w : world) (info : gmap string string) :
  (generate_travel_request_with_ai w).1 = Returns info →
  Markup missing_warning
    ∈ drop (length (console_log w)) (console_log (generate_travel_request_with_ai w).2)
  ↔ info !! "destination" = Some "" ∨ info !! "dates" = Some "" ∨ info !! "budget" = Some "".
Proof.
  rewrite generate_travel_request_with_ai_run.
  destruct (chain_invoke _ _ _) as [first|msg] eqn:Hfirst; [|done].
  destruct (refused (assistant_says first)); [done|].
  pose proof (conversation_loop_run (S (length (prompt_answers w))) 0 ["AI: " +:+ first]
                start_info (greeted first w) start_info_has_request ltac:(cbn; lia)) as Hrun.
  pose proof (conversation_result _ _ _ _ _ _ Hrun
                start_info_has_request start_info_others_filled) as Hres.
  pose proof (conversation_footprint _ _ _ _ _ _ Hrun)
    as (_ & _ & _ & _ & (prints & Hprints & Hsays)).
  destruct (conversation_loop _ _ _ _ _) as [[info'|e] w2]; cbn [finish fst snd] in *; [|done].
  intros [= ->]. destruct Hres as [Hreq Hothers].
  rewrite <- (all_values_incomplete info Hreq Hothers).
  cbn [greeted printed logged console_log] in Hprints.
  assert (Markup missing_warning ∉ [ai_banner; assistant_says first] ++ prints) as Hnot.
  { intros [Hin|Hin]%elem_of_app.
    - apply elem_of_cons in Hin as [Hin|Hin]; [done|].
      apply list_elem_of_singleton in Hin. by destruct (assistant_says_not_warning first).
    - rewrite Forall_forall in Hsays. destruct (Hsays _ Hin) as [ai_response Heq].
      by destruct (assistant_says_not_warning ai_response). }
  destruct (all_values info).
  - rewrite Hprints. repeat rewrite <- app_assoc. rewrite drop_app_length.
    split; [intros Hin; by destruct Hnot|done].
  - cbn [printed console_log]. rewrite Hprints. repeat rewrite <- app_assoc.
    rewrite drop_app_length. split; [done|]. intros _.
    rewrite !elem_of_app. right. right. right. by left.
Qed.

(** X19: the extraction step never raises and never loses what was
    collected: whatever the chain and the JSON reader do, the [try] block of
    the conversation leaves a dict after at most one call of the chain, logged
    as it was made;
    every key that was there is still there; a value that has changed is a
    non-empty stripped string of the extracted items; and when the call fails
    the dict is the one it was given. *)
Theorem extract_info_swallows_failures (user_input : string) (info : gmap string string)
    (w : world) :
  ∃ info',
    (extract_info user_input info w).1 = Returns info' ∧
    ((extract_info user_input info w).2 = w ∨
     (extract_info user_input info w).2 = logged (extraction_call user_input info) w) ∧
    (∀ k, is_Some (info !! k) → is_Some (info' !! k)) ∧
    (∀ k v, info' !! k = Some v →
       info !! k = Some v ∨ (v ≠ "" ∧ ∃ raw, v = str_strip raw)) ∧
    (∀ msg, chain_invoke (length (llm_log w)) extraction_prompt
              (call_vars (extraction_call user_input info)) = inr msg →
            info' = info).
Proof.
  destruct (extract_info_cases user_input info w) as [->| ->]; cbn [fst snd].
  - exists (extracted (length (llm_log w)) user_input info).
    split_and!; [done|by right| | |].
    + intros k. apply extracted_keeps.
    + intros k v. unfold extracted, parse_extracted.
      destruct (chain_invoke _ _ _) as [text|]; [|by left].
      destruct (re_search_braces text) as [matched|]; [|by left].
      destruct (json_loads_items matched) as [items|]; [|by left].
      intros [?|(? & raw & _ & ?)]%apply_extracted_values; [by left|].
      right. split; [done|]. by exists raw.
    + intros msg Hfail. unfold extracted. by rewrite Hfail.
  - exists info. split_and!; [done|by left|done|by left|done].
Qed.

End conversation_properties.

(** *** The fields of the completion message *)

(** [s[n:]]. *)
Fixpoint string_skip (n : nat) (s : string) : string :=
  match n, s with
  | O, _ => s
  | S n', String _ rest => string_skip n' rest
  | S _, EmptyString => EmptyString
  end.

Lemma prefix_skip (p s : string) :
  String.prefix p s = true → s = p +:+ string_skip (String.length p) s.
Proof.
  revert s. induction p as [|c p IH]; intros s Hp; [done|].
  destruct s as [|c' s]; [done|]. cbn in Hp.
  destruct (Ascii.ascii_dec c c') as [->|]; [|done].
  change (String c' s = String c' (p +:+ string_skip (String.length p) s)).
  f_equal. by apply IH.
Qed.

(** After a label comes its only colon, and no line starts with two
    labels. *)
Lemma after_destination (rest : string) :
  split_once colon ("DESTINATION:" +:+ rest) !! 1%nat = Some rest ∧
  String.prefix "DATES:" ("DESTINATION:" +:+ rest) = false ∧
  String.prefix "BUDGET:" ("DESTINATION:" +:+ rest) = false.
Proof. by vm_compute. Qed.

Lemma after_dates (rest : string) :
  split_once colon ("DATES:" +:+ rest) !! 1%nat = Some rest ∧
  String.prefix "BUDGET:" ("DATES:" +:+ rest) = false.
Proof. by vm_compute. Qed.

Lemma after_budget (rest : string) :
  split_once colon ("BUDGET:" +:+ rest) !! 1%nat = Some rest.
Proof. by vm_compute. Qed.

Section completion.
Context `{Externals}.

(** The text after [label] on the last line that starts with it, both
    stripped. *)
Definition labelled (label : string) (lines : list string) : option string :=
  last (omap (λ line, if String.prefix label (str_strip line)
                      then Some (str_strip (string_skip (String.length label) (str_strip line)))
                      else None) lines).

(** What a line gives for [label], or what there was. *)
Definition line_field (label : string) (line : string) (before : option string)
    : option string :=
  if String.prefix label (str_strip line)
  then Some (str_strip (string_skip (String.length label) (str_strip line)))
  else before.

Lemma labelled_snoc label lines line before :
  from_option Some before (labelled label (lines ++ [line]))
    = line_field label line (from_option Some before (labelled label lines)).
Proof.
  unfold labelled, line_field. rewrite omap_app. cbn [omap list_omap].
  destruct (String.prefix label (str_strip line)).
  - by rewrite last_snoc.
  - by rewrite app_nil_r.
Qed.

Lemma read_field_line_lookup info line :
  read_field_line info line !! "destination"
    = line_field "DESTINATION:" line (info !! "destination") ∧
  read_field_line info line !! "dates" = line_field "DATES:" line (info !! "dates") ∧
  read_field_line info line !! "budget" = line_field "BUDGET:" line (info !! "budget") ∧
  ∀ k, k ∉ request_fields → read_field_line info line !! k = info !! k.
Proof.
  unfold read_field_line, line_field, request_fields.
  destruct (String.prefix "DESTINATION:" (str_strip line)) eqn:Hd.
  { pose proof (prefix_skip _ _ Hd) as Heq. cbn [String.length] in *.
    destruct (after_destination (string_skip 12 (str_strip line))) as (Hsplit & Ht & Hb).
    rewrite <- Heq in Hsplit, Ht, Hb. rewrite Hsplit, Ht, Hb. cbn [default from_option id].
    split_and!; [by rewrite lookup_insert_eq|by rewrite lookup_insert_ne..|].
    intros k Hk. rewrite lookup_insert_ne; [done|]. intros <-. apply Hk. by left. }
  destruct (String.prefix "DATES:" (str_strip line)) eqn:Ht.
  { pose proof (prefix_skip _ _ Ht) as Heq. cbn [String.length] in *.
    destruct (after_dates (string_skip 6 (str_strip line))) as (Hsplit & Hb).
    rewrite <- Heq in Hsplit, Hb. rewrite Hsplit, Hb. cbn [default from_option id].
    split_and!; [by rewrite lookup_insert_ne|by rewrite lookup_insert_eq
                |by rewrite lookup_insert_ne|].
    intros k Hk. rewrite lookup_insert_ne; [done|]. intros <-. apply Hk. right. by left. }
  destruct (String.prefix "BUDGET:" (str_strip line)) eqn:Hb.
  { pose proof (prefix_skip _ _ Hb) as Heq. cbn [String.length] in *.
    pose proof (after_budget (string_skip 7 (str_strip line))) as Hsplit.
    rewrite <- Heq in Hsplit. rewrite Hsplit. cbn [default from_option id].
    split_and!; [by rewrite lookup_insert_ne..|by rewrite lookup_insert_eq|].
    intros k Hk. rewrite lookup_insert_ne; [done|]. intros <-. apply Hk. right. right. by left. }
  done.
Qed.

(** X20: of a completion message the last line that starts with a label
    wins.  After the loop over the lines of the message, [destination] is the
    stripped text after [DESTINATION:] on the last line that, once stripped,
    starts with it, and likewise [dates] for [DATES:] and [budget] for
    [BUDGET:]; a field without such a line keeps what was collected, a label
    with nothing after it empties the field, and no other key changes. *)
Theorem completion_fields_last_line_wins (lines : list string) (info : gmap string string) :
  let final := foldl read_field_line info lines in
  final !! "destination"
    = from_option Some (info !! "destination") (labelled "DESTINATION:" lines) ∧
  final !! "dates" = from_option Some (info !! "dates") (labelled "DATES:" lines) ∧
  final !! "budget" = from_option Some (info !! "budget") (labelled "BUDGET:" lines) ∧
  ∀ k, k ∉ ["destination"; "dates"; "budget"] → final !! k = info !! k.
Proof.
  cbn zeta. induction lines as [|line lines IH] using rev_ind; [done|].
  rewrite foldl_app. cbn [foldl]. rewrite !labelled_snoc.
  destruct IH as (<- & <- & <- & Hother).
  destruct (read_field_line_lookup (foldl read_field_line info lines) line)
    as (-> & -> & -> & Hline).
  split_and!; [done..|]. intros k Hk. by rewrite Hline, Hother.
Qed.

End completion.

(** *** The search for the JSON object *)

(** [c] is a character of [s]. *)
Fixpoint occurs (c : Ascii.ascii) (s : string) : Prop :=
  match s with
  | EmptyString => False
  | String c' rest => c' = c ∨ occurs c rest
  end.

Lemma upto_last_close_Some (s m : string) :
  upto_last_close s = Some m →
  ∃ body post, s = body +:+ String close_brace post ∧
               m = body +:+ String close_brace "" ∧ ¬ occurs newline body.
Proof.
  revert m. induction s as [|c s IH]; intros m Hm; [done|].
  cbn [upto_last_close] in Hm. case_decide as Hnl; [done|].
  destruct (upto_last_close s) as [m'|].
  - injection Hm as <-. destruct (IH m' eq_refl) as (body & post & -> & -> & Hbody).
    exists (String c body), post. split_and!; [done..|]. intros [?|?]; done.
  - case_decide as Hclose; [|done]. injection Hm as <-. subst c.
    exists "", s. split_and!; [done..|]. intros [].
Qed.

Lemma upto_last_close_None (body post : string) :
  upto_last_close (body +:+ String close_brace post) = None → occurs newline body.
Proof.
  induction body as [|c body IH]; intros Hnone.
  - change ("" +:+ String close_brace post) with (String close_brace post) in Hnone.
    cbn [upto_last_close] in Hnone. rewrite decide_False in Hnone by done.
    destruct (upto_last_close post); [done|]. by rewrite decide_True in Hnone.
  - change (String c body +:+ String close_brace post)
      with (String c (body +:+ String close_brace post)) in Hnone.
    cbn [upto_last_close] in Hnone. case_decide as Hnl; [by left|].
    right. apply IH. destruct (upto_last_close _); [done|]. done.
Qed.

(** X21: what [re.search(r'\{.*\}', text)] finds is a span of one line:
    when there is a match, it goes from an opening brace to a closing brace
    of the text with no newline in between; and there is none exactly when
    every opening brace of the text is separated by a newline from every
    closing brace after it, as in an object that is written over several
    lines. *)
Theorem re_search_braces_one_line (text : string) :
  match re_search_braces text with
  | Some matched =>
      ∃ pre body post,
        text = pre +:+ String open_brace (body +:+ String close_brace post) ∧
        matched = String open_brace (body +:+ String close_brace "") ∧
        ¬ occurs newline body
  | None =>
      ∀ pre body post,
        text = pre +:+ String open_brace (body +:+ String close_brace post) →
        occurs newline body
  end.
Proof.
  induction text as [|c text IH].
  - cbn. intros [|] body post Heq; done.
  - cbn [re_search_braces]. case_decide as Hopen.
    + destruct (upto_last_close text) as [m|] eqn:Hm.
      * destruct (upto_last_close_Some _ _ Hm) as (body & post & -> & -> & Hbody).
        exists "", body, post. subst c. by split_and!.
      * destruct (re_search_braces text) as [matched|].
        -- destruct IH as (pre & body & post & -> & -> & Hbody).
           exists (String c pre), body, post. by split_and!.
        -- intros [|c' pre] body post Heq.
           ++ injection Heq as _ ->. by apply upto_last_close_None in Hm.
           ++ injection Heq as _ ->. by eapply IH.
    + destruct (re_search_braces text) as [matched|].
      * destruct IH as (pre & body & post & -> & -> & Hbody).
        exists (String c pre), body, post. by split_and!.
      * intros [|c' pre] body post Heq.
        -- injection Heq as -> _. done.
        -- injection Heq as _ ->. by eapply IH.
Qed.

(** *** The conversation of the test suite *)

Definition completion_message : string :=
  "Perfect! I have all the information I need.

DESTINATION: Barcelona
DATES: March 15-20
BUDGET: $2000
COMPLETE: YES".

Definition conversation_chain : Externals :=
  scripted_chain [ inl "Hello! Where would you like to go?";
                   inl "Great! When?";
                   inl completion_message ].

Definition barcelona_request : gmap string string :=
  <[ "destination" := "Barcelona" ]>
    (<[ "dates" := "March 15-20" ]> {[ "budget" := "$2000" ]}).

(** The extraction answer holds no object, the context answer completes
    the request in the first turn, and the second input is never read. *)
Example conversation_completes_in_first_turn :
  let w := world_of ∅ ["Barcelona"; "March 15-20"] [] in
  let run := @generate_travel_request_with_ai conversation_chain (stub_loads None) w in
  run.1 = Returns barcelona_request ∧
  prompt_answers run.2 = ["March 15-20"] ∧
  call_prompt <$> llm_log run.2 = [initial_prompt; extraction_prompt; context_prompt] ∧
  length (console_log run.2) = 3%nat.
Proof. vm_compute. by split_and!. Qed.

(** Without a completion the conversation stops for want of input. *)
Example conversation_runs_out_of_input :
  let w := world_of ∅ ["Barcelona"] [] in
  (@generate_travel_request_with_ai (stub_chain (inl "Tell me more")) (stub_loads None) w).1
    = Raises EOFError.
Proof. vm_compute. reflexivity. Qed.

(** An object on one line is read, a value that is not a string ends the
    reading, and a failure of the extraction call changes nothing. *)
Example extraction_reads_one_line_object :
  let E := stub_chain (inl "Found: {...} as asked") in
  let L := stub_loads (Some [ ("destination", LStr " Paris ");
                               ("dates", LStr "");
                               ("travelers", LStr "2");
                               ("budget", LOther true);
                               ("notes", LStr "unreachable") ]) in
  (@extract_info E L "Paris for two" start_info (world_of ∅ [] [])).1
    = Returns (<[ "travelers" := "2" ]> (<[ "destination" := "Paris" ]> start_info)).
Proof. vm_compute. reflexivity. Qed.

Example extraction_ignores_object_over_lines :
  re_search_braces "{
  'destination': 'Paris'
}" = None.
Proof. vm_compute. reflexivity. Qed.


Lemma generate_travel_request_with_ai_warns_witness :
  let E := stub_chain (inl "Anything else?") in
  let w := world_of ∅ ["Barcelona"; "soon"; "cheap"; "a"; "b"; "c"; "d"; "e"; "f"; "g"; "h"] [] in
  (@generate_travel_request_with_ai E (stub_loads None) w).1 = Returns start_info ∧
  (Markup missing_warning
     ∈ drop (length (console_log w))
         (console_log (@generate_travel_request_with_ai E (stub_loads None) w).2)
   ↔ start_info !! "destination" = Some "" ∨ start_info !! "dates" = Some "" ∨
     start_info !! "budget" = Some "").
Proof.
  intros E w. split; [vm_compute; reflexivity|].
  apply (@generate_travel_request_with_ai_warns E (stub_loads None) w start_info).
  vm_compute. reflexivity.
Defined.

(** ** The workflow settles its state

    Under the execution algorithm and the merge policy of the graph engine,
    and with a chain whose answer depends on the prompt and its variables
    only, every execution of the workflow that runs to completion ends in
    the same result fields and the same plan, however the nodes
    interleave. *)

Section workflow_data.
Context `{Externals}.
Variables d t b : pyval.

(** The answer of the chain to a call, whenever the call is made. *)
Definition answer_to (call : llm_call) : string + string :=
  chain_invoke 0 (call_prompt call) (call_vars call).

Definition text_of (r : string + string) : string :=
  match r with
  | inl text => text
  | inr _ => ""
  end.

(** What the state is bound to hold: the analysis of each gather node, the
    call of the consolidation on them and its plan. *)
Definition settled_analysis (g : gather) : string :=
  text_of (answer_to (gather_call g d t b)).

Definition settled_entry (g : gather) : pyval :=
  VDict [("data", gather_data g d t b); ("analysis", VStr (settled_analysis g))].

Definition consolidation_call : llm_call :=
  LlmCall consolidation_prompt (gathered_vars d t b settled_analysis).

Definition settled_plan : string := text_of (answer_to consolidation_call).

(** The plan of the consolidation, or a revision of it by the chain. *)
Definition final_plan_ok (s : gmap string pyval) : Prop :=
  s !! "final_plan" = Some (VStr settled_plan) ∨
  ∃ fb revised,
    answer_to (LlmCall modification_prompt (modification_vars (VStr settled_plan) fb))
      = inl revised ∧
    s !! "final_plan" = Some (VStr revised).

Definition settled (s : gmap string pyval) : Prop :=
  (s !! "destination" = Some d ∧ s !! "dates" = Some t ∧ s !! "budget" = Some b) ∧
  (∀ g, answer_to (gather_call g d t b) = inl (settled_analysis g) ∧
        s !! gather_field g = Some (settled_entry g)) ∧
  answer_to consolidation_call = inl settled_plan ∧
  final_plan_ok s ∧
  ∃ flag, s !! "human_approved" = Some (VBool flag).

(** The patch that a node of the workflow can have returned. *)
Definition approval_patch (p : gmap string pyval) : Prop :=
  (∃ flag, p = {[ "human_approved" := VBool flag ]}) ∨
  (∃ fb revised ok,
     answer_to (LlmCall modification_prompt (modification_vars (VStr settled_plan) fb))
       = inl revised ∧
     p = <[ "final_plan" := VStr revised ]> {[ "human_approved" := VBool ok ]}).

Definition patch_ok (n : string) (p : gmap string pyval) : Prop :=
  (∃ g, n = gather_node g ∧
        answer_to (gather_call g d t b) = inl (settled_analysis g) ∧
        p = gather_patch g (gather_data g d t b) (settled_analysis g)) ∨
  (n = "consolidate" ∧ answer_to consolidation_call = inl settled_plan ∧
   p = {[ "final_plan" := VStr settled_plan ]}) ∨
  (n = "human_approval" ∧ approval_patch p).

(** What every configuration of an execution satisfies. *)
Record flow_inv (c : config) : Prop := FlowInv {
  flow_request :
    state_obj (env c) !! "destination" = Some d ∧
    state_obj (env c) !! "dates" = Some t ∧
    state_obj (env c) !! "budget" = Some b;
  flow_pending : ∀ n p, (n, p) ∈ pending c → patch_ok n p;
  flow_gather : ∀ g, Merged (gather_node g) ∈ trace c →
    answer_to (gather_call g d t b) = inl (settled_analysis g) ∧
    state_obj (env c) !! gather_field g = Some (settled_entry g);
  flow_fresh_plan : Merged "consolidate" ∈ trace c → Merged "human_approval" ∉ trace c →
    state_obj (env c) !! "final_plan" = Some (VStr settled_plan);
  flow_plan : Merged "consolidate" ∈ trace c →
    answer_to consolidation_call = inl settled_plan ∧ final_plan_ok (state_obj (env c));
  flow_approved : Merged "human_approval" ∈ trace c →
    ∃ flag, state_obj (env c) !! "human_approved" = Some (VBool flag)
}.

Lemma merged_snoc_invoked tr n x : Merged x ∈ tr ++ [Invoked n] ↔ Merged x ∈ tr.
Proof. set_unfold. intuition congruence. Qed.

Lemma merged_snoc_failed tr n e x :
  Merged x ∈ tr ++ [Invoked n; Failed n e] ↔ Merged x ∈ tr.
Proof. set_unfold. intuition congruence. Qed.

Lemma merged_snoc tr n x : Merged x ∈ tr ++ [Merged n] ↔ Merged x ∈ tr ∨ x = n.
Proof. set_unfold. intuition congruence. Qed.

Lemma workflow_find_cases n fn :
  find_node n (nodes workflow) = Some fn →
  (∃ g, n = gather_node g ∧ fn = gather_agent g) ∨
  (n = "consolidate" ∧ fn = consolidate_plan) ∨
  (n = "human_approval" ∧ fn = human_approval_agent).
Proof.
  intros Hin%find_node_elem. rewrite workflow_nodes in Hin.
  repeat (apply elem_of_cons in Hin as [[= -> ->]|Hin]);
    [left; by exists Flight|left; by exists Hotel|left; by exists Events
    |left; by exists Restaurant|left; by exists Attractions|left; by exists SocialPlaces
    |right; by left|right; by right|by apply elem_of_nil in Hin].
Qed.

(** What the patches hold. *)
Lemma gather_patch_lookup (g' : gather) data a k :
  gather_patch g' data a !! k
    = if decide (k = gather_field g') then Some (VDict [("data", data); ("analysis", VStr a)])
      else None.
Proof.
  unfold gather_patch. case_decide as Hk.
  - subst k. by rewrite lookup_singleton_eq.
  - by rewrite lookup_singleton_ne.
Qed.

Lemma gather_field_inj g g' : gather_field g = gather_field g' → g = g'.
Proof. by destruct g, g'. Qed.

Lemma gather_node_inj g g' : gather_node g = gather_node g' → g = g'.
Proof. by destruct g, g'. Qed.

Lemma gather_field_other g :
  gather_field g ≠ "destination" ∧ gather_field g ≠ "dates" ∧ gather_field g ≠ "budget" ∧
  gather_field g ≠ "final_plan" ∧ gather_field g ≠ "human_approved".
Proof. by destruct g. Qed.

Lemma gather_node_other g :
  gather_node g ≠ "consolidate" ∧ gather_node g ≠ "human_approval".
Proof. by destruct g. Qed.

(** *** The patches that the nodes return *)

Hypothesis stateless :
  ∀ n m prompt vars, chain_invoke n prompt vars = chain_invoke m prompt vars.

Lemma gather_invoke_ok g w p w' :
  state_obj w !! "destination" = Some d →
  state_obj w !! "dates" = Some t →
  state_obj w !! "budget" = Some b →
  gather_agent g w = (Returns p, w') →
  patch_ok (gather_node g) p.
Proof.
  intros Hd Ht Hb Hrun.
  assert (∀ k, k ∈ gather_reads g → is_Some (state_obj w !! k)) as Hreads.
  { apply first_missing_None. destruct g; cbn; by rewrite ?Hd, ?Ht, ?Hb. }
  rewrite (gather_agent_call g w Hreads) in Hrun.
  unfold request_value in Hrun. rewrite Hd, Ht, Hb in Hrun. cbn [default] in Hrun.
  rewrite (stateless _ 0) in Hrun.
  left. exists g. unfold settled_analysis, answer_to.
  destruct (chain_invoke 0 _ _) as [a|msg]; [|done].
  injection Hrun as <- _. done.
Qed.

Lemma consolidation_reads_settled s :
  s !! "destination" = Some d → s !! "dates" = Some t → s !! "budget" = Some b →
  (∀ g, s !! gather_field g = Some (settled_entry g)) →
  collect_reads (consolidation_reads s) = Returns (gathered_vars d t b settled_analysis).
Proof.
  intros Hd Ht Hb Hg. unfold consolidation_reads, state_lookup, analysis_entry.
  pose proof (Hg Flight) as HF. pose proof (Hg Hotel) as HH.
  pose proof (Hg Events) as HE. pose proof (Hg Restaurant) as HR.
  pose proof (Hg Attractions) as HA. pose proof (Hg SocialPlaces) as HS.
  cbn [gather_field] in *.
  by rewrite Hd, Ht, Hb, HF, HH, HE, HR, HA, HS.
Qed.

Lemma consolidate_invoke_ok w p w' :
  state_obj w !! "destination" = Some d →
  state_obj w !! "dates" = Some t →
  state_obj w !! "budget" = Some b →
  (∀ g, state_obj w !! gather_field g = Some (settled_entry g)) →
  consolidate_plan w = (Returns p, w') →
  patch_ok "consolidate" p.
Proof.
  intros Hd Ht Hb Hg Hrun.
  rewrite consolidate_plan_reads, (consolidation_reads_settled _ Hd Ht Hb Hg) in Hrun.
  rewrite (stateless _ 0) in Hrun.
  right. left. unfold settled_plan, answer_to, consolidation_call. cbn [call_prompt call_vars].
  destruct (chain_invoke 0 _ _) as [plan|msg]; [|done].
  injection Hrun as <- _. done.
Qed.

Lemma approval_invoke_ok w p w' :
  state_obj w !! "destination" = Some d →
  state_obj w !! "dates" = Some t →
  state_obj w !! "budget" = Some b →
  state_obj w !! "final_plan" = Some (VStr settled_plan) →
  human_approval_agent w = (Returns p, w') →
  approval_patch p.
Proof.
  intros Hd Ht Hb Hplan Hrun.
  rewrite human_approval_agent_review in Hrun.
  destruct (review_outcome (state_obj w)) as [[e items]|[[[d' t'] b'] plan']]; [done|].
  apply approval_loop_outcome in Hrun
    as [(flag & -> & _)|(plan & fb & revised & ok & -> & Hstate & _ & Hcall & _)].
  - left. by exists flag.
  - right. exists fb, revised, ok. split; [|done].
    cbn [reviewed printed state_obj] in Hstate. rewrite Hplan in Hstate.
    injection Hstate as <-. unfold answer_to. cbn [call_prompt call_vars].
    by rewrite (stateless 0 (length (llm_log (reviewed d' t' b' plan' w)))).
Qed.

(** *** The invariant *)

Lemma final_plan_ok_same s s' :
  s' !! "final_plan" = s !! "final_plan" → final_plan_ok s → final_plan_ok s'.
Proof.
  intros Heq [Hs|(fb & revised & Hcall & Hs)].
  - left. by rewrite Heq.
  - right. exists fb, revised. by rewrite Heq.
Qed.

Lemma flow_inv_initial w :
  state_obj w !! "destination" = Some d →
  state_obj w !! "dates" = Some t →
  state_obj w !! "budget" = Some b →
  flow_inv (initial w).
Proof.
  intros Hd Ht Hb. split; cbn [initial env pending trace].
  - done.
  - intros n p Hin. by apply elem_of_nil in Hin.
  - intros g Hin. by apply elem_of_nil in Hin.
  - intros Hin. by apply elem_of_nil in Hin.
  - intros Hin. by apply elem_of_nil in Hin.
  - intros Hin. by apply elem_of_nil in Hin.
Qed.

(** A node that runs leaves the state alone; its patch, if it returns one,
    is the one that is bound to come. *)
Lemma flow_inv_invoke c c' n fn events (added : list (string * gmap string pyval)) r :
  sched_inv workflow c → flow_inv c →
  find_node n (nodes workflow) = Some fn →
  eligible workflow n (trace c) = true →
  fn (env c) = (r, env c') →
  pending c' = pending c ++ added →
  (∀ p, (n, p) ∈ added → r = Returns p) →
  (∀ m p, (m, p) ∈ added → m = n) →
  trace c' = trace c ++ events →
  (∀ x, Merged x ∈ trace c ++ events ↔ Merged x ∈ trace c) →
  flow_inv c'.
Proof.
  intros Hsched [(Hd & Ht & Hb) Hpend Hgather Hfresh Hplan Happ]
    Hfn Helig Hrun Hl Hret Hname Htr Hmerged.
  destruct (workflow_find_frame n fn Hfn (env c)) as [Hs _].
  rewrite Hrun in Hs. cbn [snd] in Hs.
  split; rewrite ?Hs, ?Htr.
  - done.
  - rewrite Hl. intros m p [Hin|Hin]%elem_of_app; [by apply Hpend|].
    pose proof (Hname m p Hin) as ->. pose proof (Hret p Hin) as ->.
    apply eligible_spec in Helig as (_ & Hnot & _ & Hpreds).
    destruct (workflow_find_cases n fn Hfn) as [(g & -> & ->)|[[-> ->]|[-> ->]]].
    + by eapply gather_invoke_ok.
    + rewrite consolidate_predecessors, Forall_fmap in Hpreds.
      pose proof (proj1 (all_gathers _) Hpreds) as Hall. cbn in Hall.
      eapply consolidate_invoke_ok; [done..| |done].
      intros g. by apply Hgather.
    + rewrite human_approval_predecessors, Forall_singleton in Hpreds.
      right. right. split; [done|].
      eapply approval_invoke_ok; [done..| |done].
      apply Hfresh; [done|]. intros Hin'. apply Hnot.
      by eapply merged_was_invoked; [apply (inv_trace _ _ Hsched)|].
  - intros g Hin%Hmerged. by apply Hgather.
  - intros Hin%Hmerged Hnot. apply Hfresh; [done|]. intros Hin'. by apply Hnot, Hmerged.
  - intros Hin%Hmerged. by apply Hplan.
  - intros Hin%Hmerged. by apply Happ.
Qed.

(** A merge writes the patch that was bound to come. *)
Lemma flow_inv_merge c c' n p l1 l2 :
  sched_inv workflow c → flow_inv c →
  pending c = l1 ++ (n, p) :: l2 → pending c' = l1 ++ l2 →
  env c' = with_state (merge (state_obj (env c)) p) (env c) →
  trace c' = trace c ++ [Merged n] →
  flow_inv c'.
Proof.
  intros Hsched [(Hd & Ht & Hb) Hpend Hgather Hfresh Hplan Happ] Hl Hl' Henv Htr.
  assert ((n, p) ∈ pending c) as Hin.
  { rewrite Hl. apply elem_of_app. right. by left. }
  assert (∀ m q, (m, q) ∈ pending c' → patch_ok m q) as Hpend'.
  { intros m q Hq. apply Hpend. rewrite Hl. rewrite Hl' in Hq.
    apply elem_of_app in Hq as [?|?]; apply elem_of_app; [by left|right; by right]. }
  assert (Invoked n ∈ trace c) as Hinvoked.
  { apply (inv_pending _ _ Hsched). apply list_elem_of_fmap. by exists (n, p). }
  pose proof (inv_trace _ _ Hsched) as Htrace.
  destruct (Hpend n p Hin) as [(g' & -> & Hanswer & ->)|[(-> & Hanswer & ->)|[-> Hp]]].
  - (* the patch of a gather node *)
    destruct (gather_field_other g') as (Hk1 & Hk2 & Hk3 & Hk4 & Hk5).
    destruct (gather_node_other g') as (Hn1 & Hn2).
    assert (∀ k, gather_field g' ≠ k →
                 state_obj (env c') !! k = state_obj (env c) !! k) as Hsame.
    { intros k Hk. rewrite Henv. cbn [with_state state_obj].
      rewrite merge_lookup, gather_patch_lookup, decide_False; [done|congruence]. }
    split; rewrite ?Htr.
    + by rewrite !Hsame.
    + done.
    + intros g [Hm| ->%gather_node_inj]%merged_snoc.
      * destruct (decide (gather_field g' = gather_field g)) as [->%gather_field_inj|Hne].
        -- split; [done|]. rewrite Henv. cbn [with_state state_obj].
           by rewrite merge_lookup, gather_patch_lookup, decide_True.
        -- rewrite Hsame by done. by apply Hgather.
      * split; [done|]. rewrite Henv. cbn [with_state state_obj].
        by rewrite merge_lookup, gather_patch_lookup, decide_True.
    + intros [Hm|Heq]%merged_snoc Hnot; [|congruence].
      rewrite Hsame by done.
      apply Hfresh; [done|]. intros Hm'. apply Hnot, merged_snoc. by left.
    + intros [Hm|Heq]%merged_snoc; [|congruence].
      destruct (Hplan Hm) as [? Hok]. split; [done|].
      eapply final_plan_ok_same; [|done]. by apply Hsame.
    + intros [Hm|Heq]%merged_snoc; [|congruence].
      rewrite Hsame by done. by apply Happ.
  - (* the patch of the consolidation *)
    assert (∀ k, k ≠ "final_plan" →
                 state_obj (env c') !! k = state_obj (env c) !! k) as Hsame.
    { intros k Hk. rewrite Henv. cbn [with_state state_obj].
      by rewrite merge_lookup, lookup_singleton_ne. }
    assert (state_obj (env c') !! "final_plan" = Some (VStr settled_plan)) as Hnew.
    { rewrite Henv. cbn [with_state state_obj].
      by rewrite merge_lookup, lookup_singleton_eq. }
    split; rewrite ?Htr.
    + by rewrite !Hsame.
    + done.
    + intros g. destruct (gather_field_other g) as (_ & _ & _ & Hk4 & _).
      destruct (gather_node_other g) as (Hn1 & _).
      intros [Hm|Heq]%merged_snoc; [|congruence].
      rewrite Hsame by done. by apply Hgather.
    + done.
    + intros _. split; [done|]. by left.
    + intros [Hm|Heq]%merged_snoc; [|done]. rewrite Hsame by done. by apply Happ.
  - (* the patch of the approval *)
    assert (Merged "consolidate" ∈ trace c) as Hcons.
    { apply list_elem_of_split in Hinvoked as (pre & post & Heq).
      destruct (human_approval_invoked_after_consolidate _ _ _ Htrace Heq) as [_ Hm].
      rewrite Heq. apply elem_of_app. by left. }
    destruct (Hplan Hcons) as [Hanswer Hok].
    assert (∀ k, k ≠ "final_plan" → k ≠ "human_approved" →
                 state_obj (env c') !! k = state_obj (env c) !! k) as Hsame.
    { intros k Hk1 Hk2. rewrite Henv. cbn [with_state state_obj]. rewrite merge_lookup.
      destruct Hp as [(flag & ->)|(fb & revised & ok & _ & ->)].
      - by rewrite lookup_singleton_ne.
      - by rewrite lookup_insert_ne, lookup_singleton_ne. }
    split; rewrite ?Htr.
    + by rewrite !Hsame.
    + done.
    + intros g. destruct (gather_field_other g) as (_ & _ & _ & Hk4 & Hk5).
      destruct (gather_node_other g) as (_ & Hn2).
      intros [Hm|Heq]%merged_snoc; [|congruence].
      rewrite Hsame by done. by apply Hgather.
    + intros _ Hnot. destruct Hnot. apply merged_snoc. by right.
    + intros _. split; [done|].
      destruct Hp as [(flag & ->)|(fb & revised & ok & Hcall & ->)].
      * eapply final_plan_ok_same; [|done]. rewrite Henv. cbn [with_state state_obj].
        by rewrite merge_lookup, lookup_singleton_ne.
      * right. exists fb, revised. split; [done|]. rewrite Henv. cbn [with_state state_obj].
        by rewrite merge_lookup, lookup_insert_eq.
    + intros _. rewrite Henv. cbn [with_state state_obj]. rewrite merge_lookup.
      destruct Hp as [(flag & ->)|(fb & revised & ok & _ & ->)].
      * exists flag. by rewrite lookup_singleton_eq.
      * exists ok. by rewrite lookup_insert_ne, lookup_singleton_eq.
Qed.

Lemma flow_inv_step a c c' :
  sched_inv workflow c ∧ flow_inv c → sched_step workflow a c = Some c' →
  sched_inv workflow c' ∧ flow_inv c'.
Proof.
  intros [Hsched Hflow] Hstep. split; [by eapply sched_step_inv|].
  destruct (sched_step_cases workflow a c c' Hstep)
    as [(n & fn & -> & Hfn & Helig & [(p & Hrun & Hl & Htr)|(e & Hrun & Hl & Htr)])
       |(n & p & l1 & l2 & -> & Hl & Hl' & Henv & Htr)].
  - eapply (flow_inv_invoke c c' n fn [Invoked n] [(n, p)]); [done..| | | |].
    + intros q Hq. apply list_elem_of_singleton in Hq. by injection Hq as <-.
    + intros m q Hq. apply list_elem_of_singleton in Hq. by injection Hq as ->.
    + done.
    + intros x. apply merged_snoc_invoked.
  - eapply (flow_inv_invoke c c' n fn [Invoked n; Failed n e] []); [done..| | | | |].
    + by rewrite app_nil_r.
    + intros q Hq. by apply elem_of_nil in Hq.
    + intros m q Hq. by apply elem_of_nil in Hq.
    + done.
    + intros x. apply merged_snoc_failed.
  - by eapply flow_inv_merge.
Qed.

Lemma flow_inv_run w schedule c :
  state_obj w !! "destination" = Some d →
  state_obj w !! "dates" = Some t →
  state_obj w !! "budget" = Some b →
  run workflow schedule (initial w) = Some c →
  sched_inv workflow c ∧ flow_inv c.
Proof.
  intros Hd Ht Hb.
  apply (run_invariant workflow (λ c, sched_inv workflow c ∧ flow_inv c)).
  - intros a c1 c2. apply flow_inv_step.
  - split; [apply sched_inv_initial|by apply flow_inv_initial].
Qed.

(** A complete execution without failure ends in the settled state. *)
Lemma complete_settled w schedule c :
  state_obj w !! "destination" = Some d →
  state_obj w !! "dates" = Some t →
  state_obj w !! "budget" = Some b →
  run workflow schedule (initial w) = Some c →
  complete workflow c → (∀ n e, Failed n e ∉ trace c) →
  settled (state_obj (env c)).
Proof.
  intros Hd Ht Hb Hrun Hdone Hnofail.
  destruct (flow_inv_run w schedule c Hd Ht Hb Hrun)
    as [Hsched [Hreq _ Hgather _ Hplan Happ]].
  pose proof (inv_trace _ _ Hsched) as Htrace.
  destruct (complete_workflow_trace c Hsched Hdone Hnofail) as (pre & post & Heq & Hfinal).
  assert (Merged "human_approval" ∈ trace c) as Hm.
  { rewrite Heq. apply elem_of_app. right. by right. }
  assert (Merged "consolidate" ∈ trace c) as Hcons.
  { pose proof (merged_was_invoked workflow _ _ Htrace Hm) as Hinvoked.
    apply list_elem_of_split in Hinvoked as (pre' & post' & Heq').
    destruct (human_approval_invoked_after_consolidate _ _ _ Htrace Heq') as [_ Hc].
    rewrite Heq'. apply elem_of_app. by left. }
  assert (∀ g, Merged (gather_node g) ∈ trace c) as Hall.
  { intros g. destruct (consolidate_invoked_after_gathers _ _ _ Htrace Heq) as (Hg & _).
    rewrite Heq. apply elem_of_app. left. apply Hg. }
  destruct (Hplan Hcons) as [Hanswer Hok].
  split; [done|]. split; [intros g; by apply Hgather|]. split_and!; [done..|by apply Happ].
Qed.

End workflow_data.

(** X22: with a chain whose answer depends on the prompt and its
    variables only, the order in which the nodes of the workflow run and
    merge does not show in the result.  Under the execution algorithm and
    the merge policy of the graph engine, every execution that runs to
    completion without failure, and so the state that [execute] returns,
    holds the three request fields as given, under each result field the
    data of that node with the answer of the chain to that node's call, as
    [final_plan] the answer of the chain to the consolidation of exactly
    these six analyses, or a revision of that plan by the chain, and a
    boolean [human_approved]. *)
Theorem workflow_settles `{Externals} (w : world) (d t b : pyval) :
  state_obj w !! "destination" = Some d →
  state_obj w !! "dates" = Some t →
  state_obj w !! "budget" = Some b →
  (∀ n m prompt vars, chain_invoke n prompt vars = chain_invoke m prompt vars) →
  (∀ schedule c,
     run workflow schedule (initial w) = Some c →
     complete workflow c → (∀ n e, Failed n e ∉ trace c) →
     settled d t b (state_obj (env c))) ∧
  (∀ s, execute workflow w = Returns s → settled d t b s).
Proof.
  intros Hd Ht Hb Hstateless. split.
  - intros schedule c. by apply complete_settled.
  - intros s Hs.
    destruct (execute_Returns workflow w s Hs) as (Hdone & Hnofail & ->).
    destruct (execute_from_run workflow (2 * length (nodes workflow)) (initial w))
      as [schedule Hrun].
    by apply (complete_settled d t b Hstateless w schedule).
Qed.

Lemma workflow_settles_witness :
  let E := stub_chain (inl "Mock result") in
  let w := world_of sample_travel_state ["modify"; "more museums"] [true] in
  ∃ s, execute (@workflow E) w = Returns s ∧
       @settled E (VStr "Barcelona") (VStr "March 15-20, 2024") (VStr "$2000") s.
Proof.
  intros E w.
  assert (match execute (@workflow E) w with Returns _ => true | Raises _ => false end = true)
    as Hreturns by (vm_compute; reflexivity).
  destruct (execute (@workflow E) w) as [s|e] eqn:Hs; [|discriminate Hreturns].
  exists s. split; [done|].
  apply (@workflow_settles E w (VStr "Barcelona") (VStr "March 15-20, 2024") (VStr "$2000"));
    [vm_compute; reflexivity..|done|done].
Defined.

(** ** The workflow returns

    When the chain answers every call and the user approves or rejects the
    plan at once, no node fails and [execute] returns. *)

Lemma invoked_snoc tr n x : Invoked x ∈ tr ++ [Invoked n] ↔ Invoked x ∈ tr ∨ x = n.
Proof. set_unfold. intuition congruence. Qed.

Lemma invoked_snoc_merged tr n x : Invoked x ∈ tr ++ [Merged n] ↔ Invoked x ∈ tr.
Proof. set_unfold. intuition congruence. Qed.

Lemma failed_snoc_invoked tr n m e : Failed m e ∈ tr ++ [Invoked n] ↔ Failed m e ∈ tr.
Proof. set_unfold. intuition congruence. Qed.

Lemma failed_snoc_merged tr n m e : Failed m e ∈ tr ++ [Merged n] ↔ Failed m e ∈ tr.
Proof. set_unfold. intuition congruence. Qed.

Section workflow_returns.
Context `{Externals}.
Variables (d t b : string) (answer : string) (rest : list string).

(** The flag that the answer of the user stands for. *)
Definition approved : bool := bool_decide (decision answer ∈ ["yes"; "y"]).

Definition result_entry (v : pyval) : Prop :=
  ∃ data a, v = VDict [("data", data); ("analysis", VStr a)].

(** The patches that the nodes return then. *)
Definition live_patch (n : string) (p : gmap string pyval) : Prop :=
  (∃ g data a, n = gather_node g ∧ p = gather_patch g data a) ∨
  (∃ plan, n = "consolidate" ∧ p = {[ "final_plan" := VStr plan ]}) ∨
  (n = "human_approval" ∧ p = {[ "human_approved" := VBool approved ]}).

(** What every configuration of an execution satisfies then. *)
Record live_inv (c : config) : Prop := LiveInv {
  live_request :
    state_obj (env c) !! "destination" = Some (VStr d) ∧
    state_obj (env c) !! "dates" = Some (VStr t) ∧
    state_obj (env c) !! "budget" = Some (VStr b);
  live_nofail : ∀ n e, Failed n e ∉ trace c;
  live_pending : ∀ n p, (n, p) ∈ pending c → live_patch n p;
  live_gather : ∀ g, Merged (gather_node g) ∈ trace c →
    ∃ v, state_obj (env c) !! gather_field g = Some v ∧ result_entry v;
  live_plan : Merged "consolidate" ∈ trace c →
    ∃ plan, state_obj (env c) !! "final_plan" = Some (VStr plan);
  live_answers : Invoked "human_approval" ∉ trace c →
    prompt_answers (env c) = answer :: rest;
  live_approved : Merged "human_approval" ∈ trace c →
    state_obj (env c) !! "human_approved" = Some (VBool approved)
}.

Hypothesis chain_answers : ∀ n prompt vars, ∃ text, chain_invoke n prompt vars = inl text.
Hypothesis decided : decision answer ∈ ["yes"; "y"; "no"; "n"].
Hypothesis request_renders :
  markup_raises d = false ∧ markup_raises t = false ∧ markup_raises b = false.

Lemma gather_agent_returns g w :
  state_obj w !! "destination" = Some (VStr d) →
  state_obj w !! "dates" = Some (VStr t) →
  state_obj w !! "budget" = Some (VStr b) →
  ∃ p w', gather_agent g w = (Returns p, w') ∧ live_patch (gather_node g) p ∧
          prompt_answers w' = prompt_answers w.
Proof.
  intros Hd Ht Hb.
  assert (∀ k, k ∈ gather_reads g → is_Some (state_obj w !! k)) as Hreads.
  { apply first_missing_None. destruct g; cbn; by rewrite ?Hd, ?Ht, ?Hb. }
  rewrite (gather_agent_call g w Hreads).
  destruct (chain_answers (length (llm_log w))
              (call_prompt (gather_call g (request_value (state_obj w) "destination")
                              (request_value (state_obj w) "dates")
                              (request_value (state_obj w) "budget")))
              (call_vars (gather_call g (request_value (state_obj w) "destination")
                            (request_value (state_obj w) "dates")
                            (request_value (state_obj w) "budget")))) as [a ->].
  eexists _, _. split_and!; [done| |done]. left. by eexists g, _, a.
Qed.

Lemma consolidate_plan_returns w :
  state_obj w !! "destination" = Some (VStr d) →
  state_obj w !! "dates" = Some (VStr t) →
  state_obj w !! "budget" = Some (VStr b) →
  (∀ g, ∃ v, state_obj w !! gather_field g = Some v ∧ result_entry v) →
  ∃ p w', consolidate_plan w = (Returns p, w') ∧ live_patch "consolidate" p ∧
          prompt_answers w' = prompt_answers w.
Proof.
  intros Hd Ht Hb Hg. rewrite consolidate_plan_reads.
  assert (∃ vars, collect_reads (consolidation_reads (state_obj w)) = Returns vars)
    as [vars ->].
  { unfold consolidation_reads, state_lookup, analysis_entry.
    destruct (Hg Flight) as (? & HF & ? & ? & ->).
    destruct (Hg Hotel) as (? & HH & ? & ? & ->).
    destruct (Hg Events) as (? & HE & ? & ? & ->).
    destruct (Hg Restaurant) as (? & HR & ? & ? & ->).
    destruct (Hg Attractions) as (? & HA & ? & ? & ->).
    destruct (Hg SocialPlaces) as (? & HS & ? & ? & ->).
    cbn [gather_field] in *. rewrite Hd, Ht, Hb, HF, HH, HE, HR, HA, HS.
    by eexists. }
  destruct (chain_answers (length (llm_log w)) consolidation_prompt vars) as [plan ->].
  eexists _, _. split_and!; [done| |done]. right. left. by exists plan.
Qed.

Lemma human_approval_agent_returns w plan :
  state_obj w !! "destination" = Some (VStr d) →
  state_obj w !! "dates" = Some (VStr t) →
  state_obj w !! "budget" = Some (VStr b) →
  state_obj w !! "final_plan" = Some (VStr plan) →
  prompt_answers w = answer :: rest →
  ∃ p w', human_approval_agent w = (Returns p, w') ∧ live_patch "human_approval" p.
Proof.
  intros Hd Ht Hb Hplan Hw. destruct request_renders as (Hmd & Hmt & Hmb).
  rewrite (human_approval_agent_reviewed w d t b plan) by done.
  unfold live_patch, approved. case_bool_decide as Hyes.
  - erewrite approval_loop_yes by done. eexists _, _. split; [done|]. right. by right.
  - erewrite approval_loop_no; [eexists _, _; split; [done|]; right; by right|done|].
    set_unfold. tauto.
Qed.

Lemma live_inv_initial w :
  state_obj w !! "destination" = Some (VStr d) →
  state_obj w !! "dates" = Some (VStr t) →
  state_obj w !! "budget" = Some (VStr b) →
  prompt_answers w = answer :: rest →
  live_inv (initial w).
Proof.
  intros Hd Ht Hb Hw. split; cbn [initial env pending trace]; [done| | | | |done|].
  - intros n e Hin. by apply elem_of_nil in Hin.
  - intros n p Hin. by apply elem_of_nil in Hin.
  - intros g Hin. by apply elem_of_nil in Hin.
  - intros Hin. by apply elem_of_nil in Hin.
  - intros Hin. by apply elem_of_nil in Hin.
Qed.

(** A node that is started returns. *)
Lemma live_node_returns c n fn :
  sched_inv workflow c → live_inv c →
  find_node n (nodes workflow) = Some fn →
  eligible workflow n (trace c) = true →
  ∃ p w', fn (env c) = (Returns p, w') ∧ live_patch n p ∧
          (n ≠ "human_approval" → prompt_answers w' = prompt_answers (env c)).
Proof.
  intros Hsched [(Hd & Ht & Hb) Hnofail Hpend Hgather Hplan Hanswers Happ] Hfn Helig.
  apply eligible_spec in Helig as (_ & Hnot & _ & Hpreds).
  destruct (workflow_find_cases n fn Hfn) as [(g & -> & ->)|[[-> ->]|[-> ->]]].
  - destruct (gather_agent_returns g (env c) Hd Ht Hb) as (p & w' & Hrun & Hp & Hw).
    by exists p, w'.
  - rewrite consolidate_predecessors, Forall_fmap in Hpreds.
    pose proof (proj1 (all_gathers _) Hpreds) as Hall. cbn in Hall.
    destruct (consolidate_plan_returns (env c) Hd Ht Hb) as (p & w' & Hrun & Hp & Hw).
    { intros g. by apply Hgather. }
    by exists p, w'.
  - rewrite human_approval_predecessors, Forall_singleton in Hpreds.
    destruct (Hplan Hpreds) as [plan Hfinal].
    destruct (human_approval_agent_returns (env c) plan Hd Ht Hb Hfinal (Hanswers Hnot))
      as (p & w' & Hrun & Hp).
    by exists p, w'.
Qed.

Lemma live_inv_step a c c' :
  sched_inv workflow c ∧ live_inv c → sched_step workflow a c = Some c' →
  sched_inv workflow c' ∧ live_inv c'.
Proof.
  intros [Hsched Hlive] Hstep. split; [by eapply sched_step_inv|].
  pose proof Hlive as [(Hd & Ht & Hb) Hnofail Hpend Hgather Hplan Hanswers Happ].
  destruct (sched_step_cases workflow a c c' Hstep)
    as [(n & fn & -> & Hfn & Helig & Hcases)
       |(n & p & l1 & l2 & -> & Hl & Hl' & Henv & Htr)].
  - destruct (live_node_returns c n fn Hsched Hlive Hfn Helig) as (p & w' & Hrun & Hp & Hw).
    destruct Hcases as [(p' & Hrun' & Hl & Htr)|(e & Hrun' & _)]; [|congruence].
    rewrite Hrun in Hrun'. injection Hrun' as <- ->.
    destruct (workflow_find_frame n fn Hfn (env c)) as [Hs _].
    rewrite Hrun in Hs. cbn [snd] in Hs.
    split; rewrite ?Hs, ?Htr.
    + done.
    + intros m e Hin%failed_snoc_invoked. by eapply Hnofail.
    + rewrite Hl. intros m q [Hin|Hin]%elem_of_app; [by apply Hpend|].
      apply list_elem_of_singleton in Hin. by injection Hin as -> ->.
    + intros g Hin%merged_snoc_invoked. by apply Hgather.
    + intros Hin%merged_snoc_invoked. by apply Hplan.
    + intros Hnot. rewrite Hw.
      * apply Hanswers. intros Hin. apply Hnot, invoked_snoc. by left.
      * intros ->. apply Hnot, invoked_snoc. by right.
    + intros Hin%merged_snoc_invoked. by apply Happ.
  - assert ((n, p) ∈ pending c) as Hin.
    { rewrite Hl. apply elem_of_app. right. by left. }
    assert (∀ k, p !! k = None → state_obj (env c') !! k = state_obj (env c) !! k) as Hsame.
    { intros k Hk. rewrite Henv. cbn [with_state state_obj]. by rewrite merge_lookup, Hk. }
    assert (∀ k v, p !! k = Some v → state_obj (env c') !! k = Some v) as Hnew.
    { intros k v Hk. rewrite Henv. cbn [with_state state_obj]. by rewrite merge_lookup, Hk. }
    assert (prompt_answers (env c') = prompt_answers (env c)) as Hw by (by rewrite Henv).
    assert (∀ m q, (m, q) ∈ pending c' → live_patch m q) as Hpend'.
    { intros m q Hq. apply Hpend. rewrite Hl. rewrite Hl' in Hq.
      apply elem_of_app in Hq as [?|?]; apply elem_of_app; [by left|right; by right]. }
    destruct (Hpend n p Hin) as [(g' & data & a & -> & ->)|[(plan & -> & ->)|[-> ->]]].
    + destruct (gather_field_other g') as (Hk1 & Hk2 & Hk3 & Hk4 & Hk5).
      destruct (gather_node_other g') as (Hn1 & Hn2).
      assert (∀ k, gather_field g' ≠ k → gather_patch g' data a !! k = None) as Hnone.
      { intros k Hk. rewrite gather_patch_lookup, decide_False; [done|congruence]. }
      split; rewrite ?Htr, ?Hw.
      * rewrite !Hsame by (by apply Hnone). done.
      * intros m e Hf%failed_snoc_merged. by eapply Hnofail.
      * done.
      * intros g [Hm| ->%gather_node_inj]%merged_snoc.
        -- destruct (decide (gather_field g' = gather_field g)) as [Heq|Hne].
           ++ eexists. split; [|by eexists _, _]. apply Hnew.
              rewrite gather_patch_lookup, decide_True; done.
           ++ rewrite Hsame by (by apply Hnone). by apply Hgather.
        -- eexists. split; [|by eexists _, _]. apply Hnew.
           rewrite gather_patch_lookup, decide_True; done.
      * intros [Hm|Heq]%merged_snoc; [|congruence].
        rewrite Hsame by (by apply Hnone). by apply Hplan.
      * intros Hnot. apply Hanswers. intros Hi. by apply Hnot, invoked_snoc_merged.
      * intros [Hm|Heq]%merged_snoc; [|congruence].
        rewrite Hsame by (by apply Hnone). by apply Happ.
    + split; rewrite ?Htr, ?Hw.
      * by rewrite !Hsame by (by rewrite lookup_singleton_ne).
      * intros m e Hf%failed_snoc_merged. by eapply Hnofail.
      * done.
      * intros g. destruct (gather_field_other g) as (_ & _ & _ & Hk4 & _).
        destruct (gather_node_other g) as (Hn1 & _).
        intros [Hm|Heq]%merged_snoc; [|congruence].
        rewrite Hsame by (rewrite lookup_singleton_ne; [done|congruence]).
        by apply Hgather.
      * intros _. exists plan. apply Hnew. by rewrite lookup_singleton_eq.
      * intros Hnot. apply Hanswers. intros Hi. by apply Hnot, invoked_snoc_merged.
      * intros [Hm|Heq]%merged_snoc; [|done].
        rewrite Hsame by (by rewrite lookup_singleton_ne). by apply Happ.
    + split; rewrite ?Htr, ?Hw.
      * by rewrite !Hsame by (by rewrite lookup_singleton_ne).
      * intros m e Hf%failed_snoc_merged. by eapply Hnofail.
      * done.
      * intros g. destruct (gather_field_other g) as (_ & _ & _ & _ & Hk5).
        destruct (gather_node_other g) as (_ & Hn2).
        intros [Hm|Heq]%merged_snoc; [|congruence].
        rewrite Hsame by (rewrite lookup_singleton_ne; [done|congruence]).
        by apply Hgather.
      * intros [Hm|Heq]%merged_snoc; [|done].
        rewrite Hsame by (by rewrite lookup_singleton_ne). by apply Hplan.
      * intros Hnot. apply Hanswers. intros Hi. by apply Hnot, invoked_snoc_merged.
      * intros _. apply Hnew. by rewrite lookup_singleton_eq.
Qed.

Lemma live_inv_run w schedule c :
  state_obj w !! "destination" = Some (VStr d) →
  state_obj w !! "dates" = Some (VStr t) →
  state_obj w !! "budget" = Some (VStr b) →
  prompt_answers w = answer :: rest →
  run workflow schedule (initial w) = Some c →
  sched_inv workflow c ∧ live_inv c.
Proof.
  intros Hd Ht Hb Hw.
  apply (run_invariant workflow (λ c, sched_inv workflow c ∧ live_inv c)).
  - intros a c1 c2. apply live_inv_step.
  - split; [apply sched_inv_initial|by apply live_inv_initial].
Qed.

Lemma execute_returns_state w :
  state_obj w !! "destination" = Some (VStr d) →
  state_obj w !! "dates" = Some (VStr t) →
  state_obj w !! "budget" = Some (VStr b) →
  prompt_answers w = answer :: rest →
  ∃ s, execute workflow w = Returns s ∧
       s !! "human_approved" = Some (VBool approved) ∧
       (∀ g, ∃ v, s !! gather_field g = Some v ∧ result_entry v) ∧
       (∃ plan, s !! "final_plan" = Some (VStr plan)).
Proof.
  intros Hd Ht Hb Hw.
  destruct (execute_from_run workflow (2 * length (nodes workflow)) (initial w))
    as [schedule Hrun].
  fold (execute_config workflow w) in Hrun.
  destruct (live_inv_run w schedule _ Hd Ht Hb Hw Hrun)
    as [Hsched [_ Hnofail _ Hgather Hplan _ Happ]].
  pose proof (inv_trace _ _ Hsched) as Htrace.
  destruct (execute_config_final workflow w) as [Hfail|Hdone].
  { apply no_failure_spec in Hnofail. congruence. }
  destruct (complete_workflow_trace _ Hsched Hdone Hnofail) as (pre & post & Heq & Hfinal).
  assert (Merged "human_approval" ∈ trace (execute_config workflow w)) as Hm.
  { rewrite Heq. apply elem_of_app. right. by right. }
  assert (Merged "consolidate" ∈ trace (execute_config workflow w)) as Hcons.
  { pose proof (merged_was_invoked workflow _ _ Htrace Hm) as Hinvoked.
    apply list_elem_of_split in Hinvoked as (pre' & post' & Heq').
    destruct (human_approval_invoked_after_consolidate _ _ _ Htrace Heq') as [_ Hc].
    rewrite Heq'. apply elem_of_app. by left. }
  exists (state_obj (env (execute_config workflow w))). split_and!.
  - unfold execute, first_failure. by rewrite filter_no_failure.
  - by apply Happ.
  - intros g. apply Hgather.
    destruct (consolidate_invoked_after_gathers _ _ _ Htrace Heq) as (Hg & _).
    rewrite Heq. apply elem_of_app. left. apply Hg.
  - by apply Hplan.
Qed.

End workflow_returns.



(** ** The failures of the workflow

    Whatever the chain and the user answer, the nodes of the workflow find
    what they look up: an execution fails on a call of the chain, for want
    of an answer, or because the console cannot print the request in the
    review, never on a missing key. *)

(** The failures that come from outside: the console has no answer left,
    or a call of the chain has failed. *)
Definition benign (e : exn) : Prop :=
  e = EOFError ∨ ∃ msg, e = GenerationError msg.

(** The failures of the review on the request fields [vd], [vt], [vb]: a
    field that is not a string is refused as a cell of the table, and a
    string with markup that the parser refuses makes the table fail when it
    is printed. *)
Definition unprintable `{Externals} (vd vt vb : pyval) (e : exn) : Prop :=
  (e = NotRenderableError ∧ ¬ ∃ d t b, vd = VStr d ∧ vt = VStr t ∧ vb = VStr b) ∨
  (e = MarkupError ∧
   ∃ d t b, vd = VStr d ∧ vt = VStr t ∧ vb = VStr b ∧
            (markup_raises d = true ∨ markup_raises t = true ∨ markup_raises b = true)).

Section workflow_failures.
Context `{Externals}.
Variables vd vt vb : pyval.

Lemma approval_loop_benign fuel w e w' :
  is_Some (state_obj w !! "final_plan") →
  approval_loop fuel w = (Raises e, w') → benign e.
Proof.
  revert w. induction fuel as [|fuel IH]; intros w Hplan Hrun.
  { injection Hrun as <- _. by left. }
  destruct (prompt_answers w) as [|a rest] eqn:Hw.
  { cbn [approval_loop] in Hrun.
    erewrite bind_Raises in Hrun by (by apply prompt_ask_nil).
    injection Hrun as <- _. by left. }
  destruct (decide (decision a ∈ ["yes"; "y"])) as [Hyes|Hnyes].
  { by erewrite approval_loop_yes in Hrun by done. }
  destruct (decide (decision a ∈ ["no"; "n"])) as [Hno|Hnno].
  { by erewrite approval_loop_no in Hrun by done. }
  destruct (decide (decision a ∈ ["modify"; "m"])) as [Hmod|Hnmod].
  2:{ erewrite approval_loop_invalid in Hrun
        by (done || unfold valid_decision; set_unfold; tauto).
      by apply (IH (with_answers rest w)). }
  destruct Hplan as [plan Hplan].
  cbn [approval_loop] in Hrun.
  erewrite bind_Returns in Hrun by (by apply prompt_ask_cons).
  fold (decision a) in Hrun.
  rewrite (bool_decide_eq_false_2 (decision a ∈ ["yes"; "y"])) in Hrun by done.
  rewrite (bool_decide_eq_false_2 (decision a ∈ ["no"; "n"])) in Hrun by done.
  rewrite bool_decide_eq_true_2 in Hrun by done.
  erewrite bind_Returns in Hrun by constant_renders.
  destruct rest as [|fb rest].
  { erewrite bind_Raises in Hrun by (by apply prompt_ask_nil).
    injection Hrun as <- _. by left. }
  erewrite bind_Returns in Hrun by (by apply prompt_ask_cons).
  erewrite bind_Returns in Hrun by (by apply state_get_Some).
  destruct (chain_invoke (length (llm_log w)) modification_prompt (modification_vars plan fb))
    as [revised|msg] eqn:Hgen.
  2:{ erewrite bind_Raises in Hrun.
      2:{ rewrite invoke_eq. cbn [printed with_answers llm_log].
          fold (modification_vars plan fb). by rewrite Hgen. }
      injection Hrun as <- _. right. by exists msg. }
  erewrite bind_Returns in Hrun.
  2:{ rewrite invoke_eq. cbn [printed with_answers llm_log].
      fold (modification_vars plan fb). by rewrite Hgen. }
  do 2 (erewrite bind_Returns in Hrun by constant_renders).
  erewrite bind_Returns in Hrun by reflexivity.
  erewrite bind_Returns in Hrun by constant_renders.
  destruct (confirm_answers w) as [|ok oks] eqn:Hok.
  { erewrite bind_Raises in Hrun.
    2:{ unfold confirm_ask. cbn [printed logged with_answers confirm_answers].
        by rewrite Hok. }
    injection Hrun as <- _. by left. }
  erewrite bind_Returns in Hrun.
  2:{ apply confirm_ask_cons. cbn [printed logged with_answers confirm_answers].
      exact Hok. }
  destruct ok; by erewrite bind_Returns in Hrun by constant_renders.
Qed.

(** The approval node on a state that holds the request and a plan that
    is a string: it fails for a reason from outside, or on a request field
    that the console cannot print. *)
Lemma human_approval_agent_failure w e w' plan :
  state_obj w !! "destination" = Some vd →
  state_obj w !! "dates" = Some vt →
  state_obj w !! "budget" = Some vb →
  state_obj w !! "final_plan" = Some (VStr plan) →
  human_approval_agent w = (Raises e, w') → benign e ∨ unprintable vd vt vb e.
Proof.
  intros Hd Ht Hb Hplan Hrun. rewrite human_approval_agent_review in Hrun.
  unfold review_outcome, review_cell in Hrun. rewrite Hd, Ht, Hb, Hplan in Hrun.
  destruct vd as [d| | |];
    try (injection Hrun as <- _; right; left; split; [done|];
         by intros (? & ? & ? & ? & _)).
  destruct vt as [t| | |];
    try (injection Hrun as <- _; right; left; split; [done|];
         by intros (? & ? & ? & _ & ? & _)).
  destruct vb as [b| | |];
    try (injection Hrun as <- _; right; left; split; [done|];
         by intros (? & ? & ? & _ & _ & ?)).
  cbn zeta in Hrun.
  destruct (refused (Table _)) eqn:Htable.
  - injection Hrun as <- _. right. right. split; [done|].
    exists d, t, b. split_and!; [done..|]. by apply review_table_refused.
  - left. eapply approval_loop_benign; [|done].
    cbn [reviewed printed state_obj]. by rewrite Hplan.
Qed.

Lemma gather_agent_benign g w e w' :
  is_Some (state_obj w !! "destination") →
  is_Some (state_obj w !! "dates") →
  is_Some (state_obj w !! "budget") →
  gather_agent g w = (Raises e, w') → benign e.
Proof.
  intros [d Hd] [t Ht] [b Hb] Hrun.
  assert (∀ k, k ∈ gather_reads g → is_Some (state_obj w !! k)) as Hreads.
  { apply first_missing_None. destruct g; cbn; by rewrite ?Hd, ?Ht, ?Hb. }
  rewrite (gather_agent_call g w Hreads) in Hrun.
  destruct (chain_invoke _ _ _) as [a|msg]; [done|].
  injection Hrun as <- _. right. by exists msg.
Qed.

(** A gather node returns a dict with [data] and [analysis] or nothing. *)
Lemma gather_agent_patch g w p w' :
  gather_agent g w = (Returns p, w') → ∃ data a, p = gather_patch g data a.
Proof.
  intros Hrun. pose proof (gather_agent_reads_cases g w) as Hcases.
  destruct (first_missing _ _) as [k|] eqn:Hmiss; [by rewrite Hcases in Hrun|].
  pose proof (proj1 (first_missing_None _ _) Hmiss) as Hreads.
  rewrite (gather_agent_call g w Hreads) in Hrun.
  destruct (chain_invoke _ _ _) as [a|msg]; [|done].
  injection Hrun as <- _. by eexists _, a.
Qed.

Lemma consolidation_reads_entries s :
  is_Some (s !! "destination") → is_Some (s !! "dates") → is_Some (s !! "budget") →
  (∀ g, ∃ v, s !! gather_field g = Some v ∧ result_entry v) →
  ∃ vars, collect_reads (consolidation_reads s) = Returns vars.
Proof.
  intros [d Hd] [t Ht] [b Hb] Hg. unfold consolidation_reads, state_lookup, analysis_entry.
  destruct (Hg Flight) as (? & HF & ? & ? & ->).
  destruct (Hg Hotel) as (? & HH & ? & ? & ->).
  destruct (Hg Events) as (? & HE & ? & ? & ->).
  destruct (Hg Restaurant) as (? & HR & ? & ? & ->).
  destruct (Hg Attractions) as (? & HA & ? & ? & ->).
  destruct (Hg SocialPlaces) as (? & HS & ? & ? & ->).
  cbn [gather_field] in *. rewrite Hd, Ht, Hb, HF, HH, HE, HR, HA, HS.
  by eexists.
Qed.

Lemma consolidate_plan_benign w e w' :
  is_Some (state_obj w !! "destination") →
  is_Some (state_obj w !! "dates") →
  is_Some (state_obj w !! "budget") →
  (∀ g, ∃ v, state_obj w !! gather_field g = Some v ∧ result_entry v) →
  consolidate_plan w = (Raises e, w') → benign e.
Proof.
  intros Hd Ht Hb Hg Hrun. rewrite consolidate_plan_reads in Hrun.
  destruct (consolidation_reads_entries _ Hd Ht Hb Hg) as [vars Hvars].
  rewrite Hvars in Hrun.
  destruct (chain_invoke _ _ _) as [plan|msg]; [done|].
  injection Hrun as <- _. right. by exists msg.
Qed.

Lemma consolidate_plan_patch w p w' :
  consolidate_plan w = (Returns p, w') → ∃ plan, p = {[ "final_plan" := VStr plan ]}.
Proof.
  rewrite consolidate_plan_reads.
  destruct (collect_reads _) as [vars|e]; [|done].
  destruct (chain_invoke _ _ _) as [plan|msg]; [|done].
  intros [= <- _]. by exists plan.
Qed.

(** The patches that the nodes return. *)
Definition safe_patch (n : string) (p : gmap string pyval) : Prop :=
  (∃ g data a, n = gather_node g ∧ p = gather_patch g data a) ∨
  (∃ plan, n = "consolidate" ∧ p = {[ "final_plan" := VStr plan ]}) ∨
  (n = "human_approval" ∧ writes_only {[ "final_plan"; "human_approved" ]} p).

(** How a node of the workflow may fail. *)
Definition safe_failure (n : string) (e : exn) : Prop :=
  benign e ∨ (n = "human_approval" ∧ unprintable vd vt vb e).

(** What every configuration of an execution satisfies. *)
Record safe_inv (c : config) : Prop := SafeInv {
  safe_request :
    state_obj (env c) !! "destination" = Some vd ∧
    state_obj (env c) !! "dates" = Some vt ∧
    state_obj (env c) !! "budget" = Some vb;
  safe_failed : ∀ n e, Failed n e ∈ trace c → safe_failure n e;
  safe_pending : ∀ n p, (n, p) ∈ pending c → safe_patch n p;
  safe_gather : ∀ g, Merged (gather_node g) ∈ trace c →
    ∃ v, state_obj (env c) !! gather_field g = Some v ∧ result_entry v;
  safe_plan : Merged "consolidate" ∈ trace c → Invoked "human_approval" ∉ trace c →
    ∃ plan, state_obj (env c) !! "final_plan" = Some (VStr plan)
}.

Lemma safe_inv_initial w :
  state_obj w !! "destination" = Some vd →
  state_obj w !! "dates" = Some vt →
  state_obj w !! "budget" = Some vb →
  safe_inv (initial w).
Proof.
  intros Hd Ht Hb. split; cbn [initial env pending trace]; [done|..].
  - intros n e Hin. by apply elem_of_nil in Hin.
  - intros n p Hin. by apply elem_of_nil in Hin.
  - intros g Hin. by apply elem_of_nil in Hin.
  - intros Hin. by apply elem_of_nil in Hin.
Qed.

(** What a node that is started does: it returns a patch of its kind or
    fails for a reason from outside, or, the approval node, on a request
    that the console cannot print. *)
Lemma safe_node c n fn r w' :
  sched_inv workflow c → safe_inv c →
  find_node n (nodes workflow) = Some fn →
  eligible workflow n (trace c) = true →
  fn (env c) = (r, w') →
  match r with
  | Returns p => safe_patch n p
  | Raises e => safe_failure n e
  end.
Proof.
  intros Hsched [(Hd & Ht & Hb) Hfailed Hpend Hgather Hplan] Hfn Helig Hrun.
  apply eligible_spec in Helig as (_ & Hnot & _ & Hpreds).
  destruct (workflow_find_cases n fn Hfn) as [(g & -> & ->)|[[-> ->]|[-> ->]]].
  - destruct r as [p|e].
    + destruct (gather_agent_patch g _ _ _ Hrun) as (data & a & ->).
      left. by exists g, data, a.
    + left. by eapply gather_agent_benign.
  - rewrite consolidate_predecessors, Forall_fmap in Hpreds.
    pose proof (proj1 (all_gathers _) Hpreds) as Hall. cbn in Hall.
    destruct r as [p|e].
    + destruct (consolidate_plan_patch _ _ _ Hrun) as [plan ->].
      right. left. by exists plan.
    + left. eapply consolidate_plan_benign; [done..| |done].
      intros g. by apply Hgather.
  - rewrite human_approval_predecessors, Forall_singleton in Hpreds.
    destruct r as [p|e].
    + right. right. split; [done|].
      destruct (human_approval_agent_frame (env c)) as [_ Hp].
      apply Hp. by rewrite Hrun.
    + destruct (Hplan Hpreds Hnot) as [plan Hfinal].
      destruct (human_approval_agent_failure _ _ _ _ Hd Ht Hb Hfinal Hrun) as [?|?];
        [by left|by right].
Qed.

Lemma failed_snoc_failed tr n e m e' :
  Failed m e' ∈ tr ++ [Invoked n; Failed n e] ↔ Failed m e' ∈ tr ∨ (m = n ∧ e' = e).
Proof. set_unfold. intuition congruence. Qed.

Lemma writes_only_lookup keys (p : gmap string pyval) k :
  writes_only keys p → k ∉ keys → p !! k = None.
Proof. intros Hp Hk. apply not_elem_of_dom. intros Hin. by apply Hk, Hp. Qed.

Lemma safe_inv_step a c c' :
  sched_inv workflow c ∧ safe_inv c → sched_step workflow a c = Some c' →
  sched_inv workflow c' ∧ safe_inv c'.
Proof.
  intros [Hsched Hsafe] Hstep. split; [by eapply sched_step_inv|].
  pose proof Hsafe as [(Hd & Ht & Hb) Hfailed Hpend Hgather Hplan].
  destruct (sched_step_cases workflow a c c' Hstep)
    as [(n & fn & -> & Hfn & Helig & Hcases)
       |(n & p & l1 & l2 & -> & Hl & Hl' & Henv & Htr)].
  - destruct (workflow_find_frame n fn Hfn (env c)) as [Hs _].
    destruct Hcases as [(p & Hrun & Hl & Htr)|(e & Hrun & Hl & Htr)];
      pose proof (safe_node c n fn _ _ Hsched Hsafe Hfn Helig Hrun) as Hnode;
      rewrite Hrun in Hs; cbn [snd] in Hs; cbn in Hnode;
      (split; rewrite ?Hs, ?Htr, ?Hl; [done|..]).
    + intros m e Hin%failed_snoc_invoked. by eapply Hfailed.
    + intros m q [Hin|Hin]%elem_of_app; [by apply Hpend|].
      apply list_elem_of_singleton in Hin. by injection Hin as -> ->.
    + intros g Hin%merged_snoc_invoked. by apply Hgather.
    + intros Hin%merged_snoc_invoked Hnot. apply Hplan; [done|].
      intros Hi. apply Hnot, invoked_snoc. by left.
    + intros m e' [Hin|[-> ->]]%failed_snoc_failed; [by eapply Hfailed|done].
    + done.
    + intros g Hin%merged_snoc_failed. by apply Hgather.
    + intros Hin%merged_snoc_failed Hnot. apply Hplan; [done|].
      intros Hi. apply Hnot, elem_of_app. by left.
  - assert ((n, p) ∈ pending c) as Hin.
    { rewrite Hl. apply elem_of_app. right. by left. }
    assert (∀ k, p !! k = None → state_obj (env c') !! k = state_obj (env c) !! k) as Hsame.
    { intros k Hk. rewrite Henv. cbn [with_state state_obj]. by rewrite merge_lookup, Hk. }
    assert (∀ k v, p !! k = Some v → state_obj (env c') !! k = Some v) as Hnew.
    { intros k v Hk. rewrite Henv. cbn [with_state state_obj]. by rewrite merge_lookup, Hk. }
    assert (∀ m q, (m, q) ∈ pending c' → safe_patch m q) as Hpend'.
    { intros m q Hq. apply Hpend. rewrite Hl. rewrite Hl' in Hq.
      apply elem_of_app in Hq as [?|?]; apply elem_of_app; [by left|right; by right]. }
    assert (Invoked n ∈ trace c) as Hinvoked.
    { apply (inv_pending _ _ Hsched). apply list_elem_of_fmap. by exists (n, p). }
    destruct (Hpend n p Hin) as [(g' & data & a & -> & ->)|[(plan & -> & ->)|[-> Hp]]].
    + destruct (gather_field_other g') as (Hk1 & Hk2 & Hk3 & Hk4 & Hk5).
      destruct (gather_node_other g') as (Hn1 & Hn2).
      assert (∀ k, gather_field g' ≠ k → gather_patch g' data a !! k = None) as Hnone.
      { intros k Hk. rewrite gather_patch_lookup, decide_False; [done|congruence]. }
      split; rewrite ?Htr.
      * rewrite !Hsame by (by apply Hnone). done.
      * intros m e Hf%failed_snoc_merged. by eapply Hfailed.
      * done.
      * intros g [Hm| ->%gather_node_inj]%merged_snoc.
        -- destruct (decide (gather_field g' = gather_field g)) as [Heq|Hne].
           ++ eexists. split; [|by eexists _, _]. apply Hnew.
              rewrite gather_patch_lookup, decide_True; done.
           ++ rewrite Hsame by (by apply Hnone). by apply Hgather.
        -- eexists. split; [|by eexists _, _]. apply Hnew.
           rewrite gather_patch_lookup, decide_True; done.
      * intros [Hm|Heq]%merged_snoc Hnot; [|congruence].
        rewrite Hsame by (by apply Hnone). apply Hplan; [done|].
        intros Hi. by apply Hnot, invoked_snoc_merged.
    + split; rewrite ?Htr.
      * by rewrite !Hsame by (by rewrite lookup_singleton_ne).
      * intros m e Hf%failed_snoc_merged. by eapply Hfailed.
      * done.
      * intros g. destruct (gather_field_other g) as (_ & _ & _ & Hk4 & _).
        destruct (gather_node_other g) as (Hn1 & _).
        intros [Hm|Heq]%merged_snoc; [|congruence].
        rewrite Hsame by (rewrite lookup_singleton_ne; [done|congruence]).
        by apply Hgather.
      * intros _ _. exists plan. apply Hnew. by rewrite lookup_singleton_eq.
    + assert (∀ k, k ∉ ({[ "final_plan"; "human_approved" ]} : gset string) → p !! k = None)
        as Hnone by (intros k; apply (writes_only_lookup _ _ _ Hp)).
      split; rewrite ?Htr.
      * rewrite !Hsame by (apply Hnone; set_unfold; intuition congruence). done.
      * intros m e Hf%failed_snoc_merged. by eapply Hfailed.
      * done.
      * intros g. destruct (gather_field_other g) as (_ & _ & _ & Hk4 & Hk5).
        destruct (gather_node_other g) as (_ & Hn2).
        intros [Hm|Heq]%merged_snoc; [|congruence].
        rewrite Hsame; [by apply Hgather|].
        apply Hnone. set_unfold. intuition congruence.
      * intros _ Hnot. destruct Hnot. by apply invoked_snoc_merged.
Qed.

Lemma safe_inv_run w schedule c :
  state_obj w !! "destination" = Some vd →
  state_obj w !! "dates" = Some vt →
  state_obj w !! "budget" = Some vb →
  run workflow schedule (initial w) = Some c →
  sched_inv workflow c ∧ safe_inv c.
Proof.
  intros Hd Ht Hb.
  apply (run_invariant workflow (λ c, sched_inv workflow c ∧ safe_inv c)).
  - intros a c1 c2. apply safe_inv_step.
  - split; [apply sched_inv_initial|by apply safe_inv_initial].
Qed.

Lemma run_failure_cases w schedule c n e :
  state_obj w !! "destination" = Some vd →
  state_obj w !! "dates" = Some vt →
  state_obj w !! "budget" = Some vb →
  run workflow schedule (initial w) = Some c → Failed n e ∈ trace c → safe_failure n e.
Proof.
  intros Hd Ht Hb Hrun Hin.
  destruct (safe_inv_run w schedule c Hd Ht Hb Hrun) as [_ Hsafe].
  by eapply (safe_failed _ Hsafe).
Qed.

Lemma execute_failure_cases w e :
  state_obj w !! "destination" = Some vd →
  state_obj w !! "dates" = Some vt →
  state_obj w !! "budget" = Some vb →
  execute workflow w = Raises e → benign e ∨ unprintable vd vt vb e.
Proof.
  intros Hd Ht Hb. unfold execute.
  destruct (first_failure _) as [e'|] eqn:Hfirst; [|done]. intros [= ->].
  destruct (execute_from_run workflow (2 * length (nodes workflow)) (initial w))
    as [schedule Hrun].
  fold (execute_config workflow w) in Hrun.
  unfold first_failure in Hfirst.
  destruct (filter _ _) as [|x l] eqn:Hfilter; [done|].
  destruct x as [| |n e']; try done. injection Hfirst as ->.
  assert (Failed n e ∈ filter (λ x, is_failure x = true) (trace (execute_config workflow w)))
    as Hin by (rewrite Hfilter; by left).
  apply list_elem_of_filter in Hin as [_ Hin].
  destruct (run_failure_cases w schedule _ n e Hd Ht Hb Hrun Hin) as [?|[_ ?]];
    [by left|by right].
Qed.


End workflow_failures.


Example workflow_generation_failure_is_benign :
  execute (@workflow (stub_chain (inr "rate limit")))
          (world_of sample_travel_state ["yes"] [])
  = Raises (GenerationError "rate limit").
Proof. vm_compute. reflexivity. Qed.

(** ** main.py: the program *)

(** What [main] shows besides what the functions it calls print: a table
    with a title and a header, a panel with a title, and the progress line
    around the run of the workflow. *)
Inductive shown : Type :=
  | Shown (r : rich)
  | TitledTable (title : string) (columns : list string) (rows : list (string * string))
  | Panel (body title : string)
  | ProgressTask (description : string)
  | ProgressUpdate (description : string).

(** The strings of a shown item that are parsed as markup. *)
Definition shown_texts (x : shown) : list string :=
  match x with
  | Shown r => markup_texts r
  | TitledTable title columns rows =>
      title :: columns ++ flat_map (λ row, [row.1; row.2]) rows
  | Panel body title => [body; title]
  | ProgressTask description => [description]
  | ProgressUpdate description => [description]
  end.

(** The world of [main]: the world of the functions that it calls, and the
    screen with all that was shown, oldest first. *)
Record stage : Type := Stage {
  inner : world;
  screen : list shown
}.

Definition Main (A : Type) : Type := stage → result A * stage.

#[global] Instance Main_ret : MRet Main := λ A a st, (Returns a, st).
#[global] Instance Main_bind : MBind Main :=
  λ A B f m st, match m st with
                | (Returns a, st') => f a st'
                | (Raises e, st') => (Raises e, st')
                end.

(** [console.print(x)] in [main]: a [MarkupError] when the parser refuses
    a string of [x], as in [console_print]. *)
Definition show `{Externals} (x : shown) : Main unit :=
  λ st, if existsb markup_raises (shown_texts x) then (Raises MarkupError, st)
        else (Returns (), Stage (inner st) (screen st ++ [x])).

(** A call of a function of the program: it runs in the inner world, and
    what it prints comes on the screen. *)
Definition called {A} (m : M A) : Main A :=
  λ st, let '(r, w') := m (inner st) in
        (r, Stage w' (screen st
                      ++ (Shown <$> drop (length (console_log (inner st))) (console_log w')))).

(** [user_request[k]]. *)
Definition request_item (user_request : gmap string string) (k : string) : Main string :=
  λ st, match user_request !! k with
        | Some v => (Returns v, st)
        | None => (Raises (KeyError k), st)
        end.

(** [result[k]]. *)
Definition result_item (result : gmap string pyval) (k : string) : Main pyval :=
  λ st, match result !! k with
        | Some v => (Returns v, st)
        | None => (Raises (KeyError k), st)
        end.

(** The truth value of a Python value. *)
Definition truthy (v : pyval) : bool :=
  match v with
  | VStr s => bool_decide (s ≠ "")
  | VBool flag => flag
  | VDict items => bool_decide (items ≠ [])
  | VList elems => bool_decide (elems ≠ [])
  end.

(** Modelled from the spec: [travel_system.invoke(travel_request)], the
    execution of the compiled graph on a state object of its own, with the
    world in which it leaves the console and the chain. *)
Definition graph_invoke (g : graph) (state : gmap string pyval) : M (gmap string pyval) :=
  λ w, let c := execute_config g (with_state state w) in
       (match first_failure (trace c) with
        | Some e => Raises e
        | None => Returns (state_obj (env c))
        end, env c).

Definition approved_panel : shown :=
  Panel ("[bold green]✅ Your travel plan has been approved and is ready for booking![/bold green]"
         +:+ nl +:+ nl +:+
         "[cyan]Next steps: Proceed with reservations based on the approved plan.[/cyan]")
        "Success".

Definition rejected_panel : shown :=
  Panel ("[bold red]❌ Travel plan was not approved.[/bold red]"
         +:+ nl +:+ nl +:+
         "[yellow]You may restart the process with modified requirements.[/yellow]")
        "Not Approved".

Section program.
Context `{Externals} `{Loads}.

(** [create_parallelization_workflow()] gives the graph [workflow]: the
    validation of [compile] accepts it. *)
Lemma create_parallelization_workflow_compiles :
  create_parallelization_workflow = Some workflow.
Proof.
  unfold create_parallelization_workflow, compile.
  assert (edges_registered workflow && acyclic workflow && predecessors_present workflow
          && end_reachable workflow = true) as ->; [|done].
  vm_compute. reflexivity.
Qed.

(** [main].  What [create_parallelization_workflow()] returns is the
    graph [workflow], as the lemma above shows; the progress line is shown
    when its task is added and when it is updated, around the run of the
    workflow.  The cells of the request table are the three strings of the
    request, which [add_row] takes as they are; they are parsed as markup
    when the table is printed. *)
Definition main : Main unit :=
  called (console_print (PanelFit
    ("[bold magenta]PARALLELIZATION PATTERN: TRAVEL PLANNING[/bold magenta]" +:+ nl +:+
     "[cyan]This system demonstrates parallel processing with human oversight.[/cyan]")));;
  called (console_print (Markup
    (nl +:+ "[bold]How would you like to provide your travel request?[/bold]")));;
  called (console_print (Table [
    ("1.", "Direct input (manual)");
    ("2.", "AI-assisted conversation")
  ]));;
  choice ← called prompt_ask;
  user_request ← (if decide (choice = "1")
                  then called collect_user_travel_request
                  else called generate_travel_request_with_ai);
  let travel_system := workflow in
  v_destination ← request_item user_request "destination";
  v_dates ← request_item user_request "dates";
  v_budget ← request_item user_request "budget";
  let travel_request : gmap string pyval :=
    list_to_map [
      ("destination", VStr v_destination);
      ("dates", VStr v_dates);
      ("budget", VStr v_budget);
      ("flight_results", VDict []);
      ("hotel_results", VDict []);
      ("events_results", VDict []);
      ("restaurant_results", VDict []);
      ("attractions_results", VDict []);
      ("social_places_results", VDict []);
      ("final_plan", VStr "");
      ("human_approved", VBool false)
    ] in
  called (console_print (Markup nl));;
  called (console_print (PanelFit "[bold blue]PROCESSING TRAVEL REQUEST[/bold blue]"));;
  show (TitledTable "Travel Request Details" ["Field"; "Value"] [
    ("Destination", v_destination);
    ("Dates", v_dates);
    ("Budget", v_budget)
  ]);;
  called (console_print (Markup
    (nl +:+ "[yellow]Executing parallel searches for flights, hotels, events, restaurants, attractions, and social places...[/yellow]")));;
  show (ProgressTask "Processing travel searches...");;
  result ← called (graph_invoke travel_system travel_request);
  show (ProgressUpdate "Travel searches completed!");;
  called (console_print (Markup nl));;
  called (console_print (PanelFit "[bold blue]TRAVEL PLANNING COMPLETE[/bold blue]"));;
  approved ← result_item result "human_approved";
  if truthy approved then show approved_panel else show rejected_panel.

(** *** How the program fails *)

(** The failures of [main]: for a reason from outside, or because the
    console refuses a text as markup. *)
Definition main_failure (e : exn) : Prop := benign e ∨ e = MarkupError.

(** A command of [main] that gives a value in [Q] or fails in one of these
    ways. *)
Definition sound {A} (Q : A → Prop) (m : Main A) : Prop :=
  ∀ st, match (m st).1 with
        | Returns a => Q a
        | Raises e => main_failure e
        end.

Lemma sound_bind {A B} (Q : A → Prop) (R : B → Prop) (m : Main A) (f : A → Main B) :
  sound Q m → (∀ a, Q a → sound R (f a)) → sound R (m ≫= f).
Proof.
  intros Hm Hf st. unfold mbind, Main_bind. specialize (Hm st).
  destruct (m st) as [[a|e] st']; cbn [fst] in *; [|done].
  by apply Hf.
Qed.

Lemma sound_called {A} (Q : A → Prop) (m : M A) :
  (∀ w, match (m w).1 with Returns a => Q a | Raises e => main_failure e end) →
  sound Q (called m).
Proof.
  intros Hm st. unfold called. specialize (Hm (inner st)).
  by destruct (m (inner st)) as [[a|e] w'].
Qed.

Lemma sound_print r : sound (λ _, True) (called (console_print r)).
Proof.
  apply sound_called. intros w. unfold console_print.
  destruct (refused r); [by right|done].
Qed.

Lemma sound_show x : sound (λ _, True) (show x).
Proof. intros st. unfold show. destruct (existsb _ _); [by right|done]. Qed.

Lemma sound_prompt_ask : sound (λ _, True) (called prompt_ask).
Proof.
  apply sound_called. intros w. unfold prompt_ask.
  destruct (prompt_answers w); [by left; left|done].
Qed.

Lemma sound_request_item (user_request : gmap string string) k :
  is_Some (user_request !! k) → sound (λ _, True) (request_item user_request k).
Proof. intros [v Hk] st. unfold request_item. by rewrite Hk. Qed.

Lemma sound_result_item (result : gmap string pyval) k :
  is_Some (result !! k) → sound (λ _, True) (result_item result k).
Proof. intros [v Hk] st. unfold result_item. by rewrite Hk. Qed.

Lemma sound_collect :
  sound has_request (called collect_user_travel_request).
Proof.
  apply sound_called. intros w. rewrite collect_user_travel_request_run.
  destruct (first_filled _) as [[d rest_d]|]; [|by left; left].
  destruct (first_filled _) as [[t rest_t]|]; [|by left; left].
  destruct (first_filled _) as [[b rest_b]|]; [|by left; left].
  cbn [fst]. unfold has_request, travel_request_of.
  split_and!; by simplify_map_eq.
Qed.

Lemma sound_generate :
  sound has_request (called generate_travel_request_with_ai).
Proof.
  apply sound_called. intros w. rewrite generate_travel_request_with_ai_run.
  destruct (chain_invoke _ _ _) as [first|msg]; [|left; right; by exists msg].
  destruct (refused (assistant_says first)); [by right|].
  pose proof (conversation_loop_run (S (length (prompt_answers w))) 0 ["AI: " +:+ first]
                start_info (greeted first w) start_info_has_request ltac:(cbn; lia)) as Hrun.
  pose proof (conversation_result _ _ _ _ _ _ Hrun
                start_info_has_request start_info_others_filled) as Hres.
  destruct (conversation_loop _ _ _ _ _) as [[info|e] w2]; cbn [finish fst snd] in *.
  - by destruct Hres.
  - destruct Hres as [[-> _]|[(msg & vars & -> & _)|(resp & vars & -> & _)]];
      [by left; left|left; right; by exists msg|by right].
Qed.

(** A key of the state stays in the state. *)
Lemma run_keeps_key w schedule c k :
  is_Some (state_obj w !! k) →
  run workflow schedule (initial w) = Some c →
  is_Some (state_obj (env c) !! k).
Proof.
  intros Hk. apply (run_invariant workflow (λ c, is_Some (state_obj (env c) !! k))); [|done].
  intros a c1 c2 Hc1 Hstep.
  destruct (sched_step_cases workflow a c1 c2 Hstep)
    as [(n & fn & -> & Hfn & _ & Hcases)|(n & p & l1 & l2 & -> & _ & _ & Henv & _)].
  - destruct (workflow_find_frame n fn Hfn (env c1)) as [Hs _].
    destruct Hcases as [(p & Hrun & _)|(e & Hrun & _)];
      rewrite Hrun in Hs; cbn [snd] in Hs; by rewrite Hs.
  - rewrite Henv. cbn [with_state state_obj]. rewrite merge_lookup. by destruct (p !! k).
Qed.

Lemma graph_invoke_execute g state w :
  (graph_invoke g state w).1 = execute g (with_state state w).
Proof. done. Qed.

(** The workflow on a request of three strings: a request that the console
    cannot print is one that the markup parser refuses. *)
Lemma sound_graph_invoke (state : gmap string pyval) d t b :
  state !! "destination" = Some (VStr d) → state !! "dates" = Some (VStr t) →
  state !! "budget" = Some (VStr b) → is_Some (state !! "human_approved") →
  sound (λ result, is_Some (result !! "human_approved"))
        (called (graph_invoke workflow state)).
Proof.
  intros Hd Ht Hb Ha. apply sound_called. intros w. rewrite graph_invoke_execute.
  destruct (execute workflow (with_state state w)) as [s|e] eqn:Hex.
  - destruct (execute_Returns workflow _ _ Hex) as (_ & _ & ->).
    destruct (execute_from_run workflow (2 * length (nodes workflow))
                (initial (with_state state w))) as [schedule Hrun].
    by apply (run_keeps_key (with_state state w) schedule).
  - destruct (execute_failure_cases (VStr d) (VStr t) (VStr b) (with_state state w) e)
      as [?|[[_ Hnot]|[-> _]]]; [done..|by left| |by right].
    destruct Hnot. by exists d, t, b.
Qed.

Lemma main_sound : sound (λ _, True) main.
Proof.
  unfold main.
  do 3 (eapply sound_bind; [apply sound_print|intros _ _]).
  eapply sound_bind; [apply sound_prompt_ask|intros choice _].
  eapply (sound_bind has_request).
  { case_decide; [apply sound_collect|apply sound_generate]. }
  intros user_request (Hd & Ht & Hb).
  eapply sound_bind; [by apply sound_request_item|intros v_destination _].
  eapply sound_bind; [by apply sound_request_item|intros v_dates _].
  eapply sound_bind; [by apply sound_request_item|intros v_budget _].
  do 2 (eapply sound_bind; [apply sound_print|intros _ _]).
  eapply sound_bind; [apply sound_show|intros _ _].
  eapply sound_bind; [apply sound_print|intros _ _].
  eapply sound_bind; [apply sound_show|intros _ _].
  eapply sound_bind;
    [apply (sound_graph_invoke _ v_destination v_dates v_budget); by simplify_map_eq
    |intros result Hresult].
  eapply sound_bind; [apply sound_show|intros _ _].
  do 2 (eapply sound_bind; [apply sound_print|intros _ _]).
  eapply sound_bind; [by apply sound_result_item|intros approved _].
  destruct (truthy approved); apply sound_show.
Qed.

End program.



Example main_generation_failure :
  (@main (stub_chain (inr "rate limit")) (stub_loads None)
     (Stage (world_of ∅ ["2"; "Paris"] []) [])).1
  = Raises (GenerationError "rate limit").
Proof. vm_compute. reflexivity. Qed.

(** *** The request typed in and decided at once *)

Section manual_entry.
Context `{Externals} `{Loads}.

Lemma main_bind_run {A B} (m : Main A) (f : A → Main B) st a st' :
  m st = (Returns a, st') → (m ≫= f) st = f a st'.
Proof. intros Hm. unfold mbind, Main_bind. by rewrite Hm. Qed.

Lemma called_print r st :
  refused r = false →
  called (console_print r) st
    = (Returns (), Stage (printed [r] (inner st)) (screen st ++ [Shown r])).
Proof.
  intros Hr. unfold called. rewrite console_print_eq by done. cbn [printed console_log].
  by rewrite drop_app_length.
Qed.

Lemma show_run x st :
  existsb markup_raises (shown_texts x) = false →
  show x st = (Returns (), Stage (inner st) (screen st ++ [x])).
Proof. intros Hx. unfold show. by rewrite Hx. Qed.

Lemma show_either (flag : bool) x y st :
  existsb markup_raises (shown_texts x) = false →
  existsb markup_raises (shown_texts y) = false →
  (if flag then show x else show y) st
    = (Returns (), Stage (inner st) (screen st ++ [if flag then x else y])).
Proof. intros Hx Hy. destruct flag; by apply show_run. Qed.

Lemma called_run {A} (m : M A) st r w' :
  m (inner st) = (r, w') →
  called m st
    = (r, Stage w' (screen st
                    ++ (Shown <$> drop (length (console_log (inner st))) (console_log w')))).
Proof. intros Hm. unfold called. by rewrite Hm. Qed.

Lemma request_item_run (user_request : gmap string string) k v st :
  user_request !! k = Some v → request_item user_request k st = (Returns v, st).
Proof. intros Hk. unfold request_item. by rewrite Hk. Qed.

Lemma result_item_run (result : gmap string pyval) k v st :
  result !! k = Some v → result_item result k st = (Returns v, st).
Proof. intros Hk. unfold result_item. by rewrite Hk. Qed.

Lemma graph_invoke_returns g state w s :
  execute g (with_state state w) = Returns s →
  graph_invoke g state w = (Returns s, env (execute_config g (with_state state w))) ∧
  state_obj (env (execute_config g (with_state state w))) = s.
Proof.
  unfold execute, graph_invoke. cbn zeta.
  destruct (first_failure _); [done|]. by intros [= ->].
Qed.

Lemma first_filled_cons a answers :
  str_strip a ≠ "" → first_filled (a :: answers) = Some (a, answers).
Proof. intros Ha. cbn [first_filled]. by rewrite decide_False. Qed.

(** The travel request of [main] for the three fields. *)
Definition travel_request (d t b : string) : gmap string pyval :=
  list_to_map [
    ("destination", VStr d);
    ("dates", VStr t);
    ("budget", VStr b);
    ("flight_results", VDict []);
    ("hotel_results", VDict []);
    ("events_results", VDict []);
    ("restaurant_results", VDict []);
    ("attractions_results", VDict []);
    ("social_places_results", VDict []);
    ("final_plan", VStr "");
    ("human_approved", VBool false)
  ].

Definition request_table (d t b : string) : shown :=
  TitledTable "Travel Request Details" ["Field"; "Value"] [
    ("Destination", d);
    ("Dates", t);
    ("Budget", b)
  ].

Lemma request_table_renders d t b :
  markup_raises d = false → markup_raises t = false → markup_raises b = false →
  existsb markup_raises (shown_texts (request_table d t b)) = false.
Proof.
  intros Hd Ht Hb. cbn [request_table shown_texts flat_map app fst snd existsb].
  rewrite Hd, Ht, Hb. reflexivity.
Qed.

Lemma main_manual_run st rd rt rb answer rest :
  prompt_answers (inner st) = "1" :: rd :: rt :: rb :: answer :: rest →
  str_strip rd ≠ "" → str_strip rt ≠ "" → str_strip rb ≠ "" →
  markup_raises (str_strip rd) = false →
  markup_raises (str_strip rt) = false →
  markup_raises (str_strip rb) = false →
  (∀ n prompt vars, ∃ text, chain_invoke n prompt vars = inl text) →
  decision answer ∈ ["yes"; "y"; "no"; "n"] →
  ∃ st' s,
    main st = (Returns (), st') ∧
    state_obj (inner st') = s ∧
    s !! "human_approved" = Some (VBool (approved answer)) ∧
    request_table (str_strip rd) (str_strip rt) (str_strip rb) ∈ screen st' ∧
    last (screen st') = Some (if approved answer then approved_panel else rejected_panel).
Proof.
  intros Hst Hd Ht Hb Hmd Hmt Hmb Hchain Hdecided. unfold main.
  do 3 (erewrite main_bind_run by (apply called_print; reflexivity); cbn [inner screen]).
  erewrite main_bind_run.
  2:{ apply called_run. apply prompt_ask_cons. cbn [printed prompt_answers]. exact Hst. }
  cbn [inner screen with_answers printed console_log]. rewrite drop_all, app_nil_r.
  rewrite decide_True by done.
  erewrite main_bind_run.
  2:{ apply called_run. rewrite collect_user_travel_request_run.
      cbn [inner with_answers printed prompt_answers].
      by rewrite !first_filled_cons by done. }
  cbn [inner screen with_answers printed console_log]. rewrite drop_app_length.
  erewrite main_bind_run by (apply request_item_run; unfold travel_request_of; by simplify_map_eq).
  erewrite main_bind_run by (apply request_item_run; unfold travel_request_of; by simplify_map_eq).
  erewrite main_bind_run by (apply request_item_run; unfold travel_request_of; by simplify_map_eq).
  fold (travel_request (str_strip rd) (str_strip rt) (str_strip rb)).
  fold (request_table (str_strip rd) (str_strip rt) (str_strip rb)).
  do 2 (erewrite main_bind_run by (apply called_print; reflexivity);
        cbn [inner screen printed]).
  erewrite main_bind_run by (by apply show_run, request_table_renders). cbn [inner screen].
  erewrite main_bind_run by (apply called_print; reflexivity). cbn [inner screen printed].
  erewrite main_bind_run by (apply show_run; reflexivity). cbn [inner screen].
  match goal with
  | |- context [(called (graph_invoke workflow ?state) ≫= _) ?st0] =>
      destruct (execute_returns_state (str_strip rd) (str_strip rt)
                  (str_strip rb) answer rest Hchain Hdecided
                  (conj Hmd (conj Hmt Hmb))
                  (with_state state (inner st0)))
        as (s & Hs & Happroved & _); [by simplify_map_eq..|done|]
  end.
  cbn [inner] in Hs. apply graph_invoke_returns in Hs as [Hrun Hstate].
  erewrite main_bind_run by (apply called_run, Hrun).
  cbn [inner screen].
  erewrite main_bind_run by (apply show_run; reflexivity). cbn [inner screen].
  do 2 (erewrite main_bind_run by (apply called_print; reflexivity); cbn [inner screen]).
  erewrite main_bind_run by (by apply result_item_run).
  cbn [truthy]. eexists _, s. split; [apply show_either; reflexivity|].
  cbn [inner screen]. split_and!; [exact Hstate|exact Happroved| |by rewrite last_snoc].
  rewrite !elem_of_app.
  repeat first [by right; apply list_elem_of_here|left].
Qed.


End manual_entry.

